(** * tree-pro: structural fingerprints, the truncation-aware walker,
      sibling grouping and the printed tree

    A shallow embedding of [internal/walker.go], [internal/detect.go],
    [internal/printer.go] and [cmd/root.go].

    - Go's [int] and [uint64] are [Z]; the 64-bit wrap-around of the FNV-1a
      digest is written out with [mod 2^64].  The counters of the walker
      ([len], [hiddenFiles], [TotalDirs] ...) are bounded by the number of
      directory entries held in memory and are kept as plain [Z]; the
      printer, which accepts any [Directory], computes with [wrapInt].
    - Go strings are byte strings: [string] with one [ascii] per byte.
    - [strings.ToLower] and [strings.TrimSpace] work on Unicode text.  They
      are the methods of the class [Strings], which states what the
      development uses of them; every definition and theorem that
      depends on them holds for each instance of the class, Go's
      functions among them.  The snapshots at the end of the file have
      ASCII names, and are computed on the instance [asciiStrings].
    - [map[string]int] is [gmap string Z]; a missing key reads as [0].
    - [*Directory] is [option Directory] where the code tests for [nil].
    - The operating system is a tree: what [os.ReadDir] returns for a path is
      either an error or a listing together with the contents of the entries
      listed.  [walkDir] additionally returns the list of paths it handed to
      [os.ReadDir], in call order. *)

From stdpp Require Import base numbers list sorting strings pretty gmap fin_maps.
From Stdlib Require Import ZArith Ascii.

Local Open Scope Z_scope.
Set Warnings "-clear-no-such-hyp".

(** ** Bytes and the standard-library primitives used by the walker *)

Module GoLib.

Definition byteOf (c : ascii) : Z := Z.of_N (N_of_ascii c).

(** [[]byte(s)] *)
Definition bytesOf (s : string) : list Z :=
  map byteOf (String.list_ascii_of_string s).

(** [hash/fnv]: the 64-bit FNV-1a state is a [uint64]. *)
Definition offset64 : Z := 14695981039346656037.
Definition prime64 : Z := 1099511628211.

Definition fnv_New64a : Z := offset64.

Definition fnv_step (h b : Z) : Z := (Z.lxor h b * prime64) mod 2 ^ 64.

Definition hasher_Write (h : Z) (p : list Z) : Z := fold_left fnv_step p h.

Definition hasher_Sum64 (h : Z) : Z := h.

(** [fmt.Sprintf("%x", v)] on a [uint64]: lower-case hexadecimal without
    leading zeros. *)
Definition hexDigit (d : Z) : ascii :=
  if d <? 10 then ascii_of_N (Z.to_N (48 + d)) else ascii_of_N (Z.to_N (87 + d)).

Fixpoint hexDigits (fuel : nat) (v : Z) (acc : string) : string :=
  match fuel with
  | O => acc
  | S fuel' =>
      let acc' := String (hexDigit (v mod 16)) acc in
      if v / 16 =? 0 then acc' else hexDigits fuel' (v / 16) acc'
  end.

Definition fmt_x (v : Z) : string := hexDigits 16 v "".

(** [sort.Strings]: ascending byte-wise order.  The result of sorting
    strings does not depend on the algorithm. *)
Definition sort_Strings (l : list string) : list string :=
  merge_sort String.le l.

(** [os.PathSeparator] on Unix. *)
Definition isPathSeparator (c : ascii) : bool := bool_decide (c = "/"%char).

(** [filepath.Ext]: scan from the last byte towards the first, stop at a
    separator, return the suffix that starts at the first dot met. *)
Fixpoint ext_scan (before : list ascii) (suffix : list ascii) : list ascii :=
  match before with
  | [] => []
  | c :: before' =>
      if isPathSeparator c then []
      else if bool_decide (c = "."%char) then c :: suffix
      else ext_scan before' (c :: suffix)
  end.

Definition filepath_Ext (path : string) : string :=
  String.string_of_list_ascii
    (ext_scan (rev (String.list_ascii_of_string path)) []).

(** A string of ASCII bytes: no byte reaches [utf8.RuneSelf]. *)
Definition isASCII (s : string) : bool :=
  forallb (λ c, byteOf c <? 128) (String.list_ascii_of_string s).

(** What [strings.ToLower] returns for a string of ASCII bytes (its
    first branch): the bytes ['A'..'Z'] are shifted to ['a'..'z']. *)
Definition lowerByte (c : ascii) : ascii :=
  let n := byteOf c in
  if (65 <=? n) && (n <=? 90) then ascii_of_N (Z.to_N (n + 32)) else c.

Definition toLowerASCII (s : string) : string :=
  String.string_of_list_ascii (map lowerByte (String.list_ascii_of_string s)).

(** What [strings.TrimSpace] returns for a string of ASCII bytes: the
    leading and the trailing tabs, line feeds, vertical tabs, form
    feeds, carriage returns and spaces are removed. *)
Definition isSpaceByte (c : ascii) : bool :=
  let n := byteOf c in ((9 <=? n) && (n <=? 13)) || (n =? 32).

Fixpoint trimLeft (l : list ascii) : list ascii :=
  match l with
  | c :: l' => if isSpaceByte c then trimLeft l' else l
  | [] => []
  end.

Definition trimSpaceASCII (s : string) : string :=
  String.string_of_list_ascii
    (rev (trimLeft (rev (trimLeft (String.list_ascii_of_string s))))).

(** [filepath.Clean] (Unix), by path elements: empty elements and [.] are
    dropped, [..] removes the element before it, stays at the front of a
    relative path and is dropped at the root. *)
Fixpoint splitElems (cur : list ascii) (s : list ascii) : list (list ascii) :=
  match s with
  | [] => [rev cur]
  | c :: s' =>
      if isPathSeparator c then rev cur :: splitElems [] s'
      else splitElems (c :: cur) s'
  end.

Definition dot : list ascii := ["."%char].
Definition dotdot : list ascii := ["."%char; "."%char].

Fixpoint cleanElems (rooted : bool) (out : list (list ascii))
    (elems : list (list ascii)) : list (list ascii) :=
  match elems with
  | [] => rev out
  | e :: elems' =>
      if bool_decide (e = []) || bool_decide (e = dot) then
        cleanElems rooted out elems'
      else if bool_decide (e = dotdot) then
        match out with
        | top :: out' =>
            if bool_decide (top = dotdot) then cleanElems rooted (e :: out) elems'
            else cleanElems rooted out' elems'
        | [] =>
            if rooted then cleanElems rooted [] elems'
            else cleanElems rooted [e] elems'
        end
      else cleanElems rooted (e :: out) elems'
  end.

Fixpoint joinElems (elems : list (list ascii)) : list ascii :=
  match elems with
  | [] => []
  | [e] => e
  | e :: elems' => e ++ "/"%char :: joinElems elems'
  end.

Definition filepath_Clean (path : string) : string :=
  match String.list_ascii_of_string path with
  | [] => "."
  | (c :: _) as bytes =>
      let rooted := isPathSeparator c in
      let body := joinElems (cleanElems rooted [] (splitElems [] bytes)) in
      let out := if rooted then "/"%char :: body else body in
      match out with
      | [] => "."
      | _ => String.string_of_list_ascii out
      end
  end.

(** [filepath.Join] of two elements: empty elements are ignored and the
    result is cleaned. *)
Definition filepath_Join (a b : string) : string :=
  if bool_decide (a = "") then
    if bool_decide (b = "") then "" else filepath_Clean b
  else filepath_Clean (a +:+ "/" +:+ b).

(** [math.MaxInt] on a 64-bit platform. *)
Definition math_MaxInt : Z := 2 ^ 63 - 1.

(** The result of [int] arithmetic (64 bits, two's complement): the
    value in [[-2^63, 2^63)] that is congruent to [z] modulo [2^64]. *)
Definition wrapInt (z : Z) : Z := (z + 2 ^ 63) mod 2 ^ 64 - 2 ^ 63.

(** Go [error] values, as far as the walker looks at them: the dynamic
    type printed by [%T], the text of [Error()], and whether
    [errors.Is(err, fs.ErrPermission)] holds. *)
Inductive ErrKind := KindPermission | KindNotExist | KindOther.

Record GoError := mkGoError {
  errType : string;
  errText : string;
  errKind : ErrKind
}.

Definition errors_Is_ErrPermission (e : GoError) : bool :=
  match errKind e with KindPermission => true | _ => false end.

(** [errors.New(s)] as built by [fmt.Errorf] without a [%w] verb. *)
Definition fmt_Errorf (text : string) : GoError :=
  {| errType := "*errors.errorString"; errText := text; errKind := KindOther |}.

#[global] Instance ErrKind_eq_dec : EqDecision ErrKind.
Proof. solve_decision. Defined.

#[global] Instance GoError_eq_dec : EqDecision GoError.
Proof. solve_decision. Defined.

End GoLib.

Import GoLib.

(** ** Data model ([internal/walker.go], [internal/detect.go]) *)

(** [Options] controls how the filesystem is traversed. *)
Record Options := mkOptions {
  MaxFiles : Z;
  MaxLevel : Z
}.

(** [FileEntry] holds the name of a file. *)
Record FileEntry := mkFileEntry {
  FileEntry_Name : string
}.

(** [Directory] is a directory and its contents.  [Subdirs] holds the
    children themselves: [walkDir] only ever appends non-nil pointers. *)
#[warnings="-register-all"]
Inductive Directory := mkDirectory {
  Name : string;
  Path : string;
  Level : Z;
  Subdirs : list Directory;
  Files : list FileEntry;
  HiddenFiles : Z;
  ImmediateDirCount : Z;
  ImmediateFileCount : Z;
  TotalDirs : Z;
  TotalFiles : Z;
  Signature : string;
  Err : option GoError
}.

(** [DirGroup] is a run of directories sharing one signature; [Members] is
    a slice of pointers. *)
Record DirGroup := mkDirGroup {
  DirGroup_Signature : string;
  Members : list (option Directory)
}.

(** What the operating system shows of one directory entry
    ([os.DirEntry]: [Name()] and [IsDir()]). *)
Record DirEntry := mkDirEntry {
  DirEntry_Name : string;
  DirEntry_IsDir : bool
}.

(** The outcome of [os.ReadDir] on a directory: an error, or the entries
    in the order the system returns them, together with the outcome of
    [os.ReadDir] on each entry, by entry name. *)
Inductive ReadDir :=
| ReadDirErr (err : GoError)
| ReadDirOk (entries : list DirEntry) (sub : string → ReadDir).

(** The outcome of [os.Stat] on the path given to [Walk]. *)
Inductive Stat :=
| StatErr (err : GoError)
| StatInfo (name : string) (isDir : bool).

(** The filesystem as seen from the path given to [Walk]. *)
Record FileSystem := mkFileSystem {
  os_Stat : Stat;
  os_ReadDir : ReadDir
}.

(** ** Fingerprint engine *)

(** [intToBytes]: the eight little-endian bytes of [uint64(v)]. *)
Definition intToBytes (v : Z) : list Z :=
  let u := v mod 2 ^ 64 in
  map (λ i, Z.land (Z.shiftr u (8 * i)) 255) [0; 1; 2; 3; 4; 5; 6; 7].

(** The bytes written for one extension and for one child signature. *)
Definition writeExt (fileExtCounts : gmap string Z) (hasher : Z) (ext : string) : Z :=
  let hasher := hasher_Write hasher (bytesOf ext) in
  let hasher := hasher_Write hasher [0] in
  hasher_Write hasher (intToBytes (default 0 (fileExtCounts !! ext))).

Definition writeSig (hasher : Z) (sig : string) : Z :=
  let hasher := hasher_Write hasher (bytesOf sig) in
  hasher_Write hasher [0].

(** [signatureForDirectory], with the order in which [range] visits the
    keys of the map made explicit: Go leaves that order unspecified. *)
Definition signatureForDirectoryRange (rangeOrder : list string)
    (fileExtCounts : gmap string Z) (subdirs : list Directory) : string :=
  let hasher := fnv_New64a in
  let hasher := hasher_Write hasher (bytesOf "files:") in
  let exts := sort_Strings rangeOrder in
  let hasher := fold_left (writeExt fileExtCounts) exts hasher in
  let hasher := hasher_Write hasher (bytesOf "dirs:") in
  let childSigs := sort_Strings (map Signature subdirs) in
  let hasher := fold_left writeSig childSigs hasher in
  "d:" +:+ fmt_x (hasher_Sum64 hasher).

Definition signatureForDirectory (fileExtCounts : gmap string Z)
    (subdirs : list Directory) : string :=
  signatureForDirectoryRange (map fst (map_to_list fileExtCounts))
    fileExtCounts subdirs.

Definition signatureForLeaf (path : string) : string :=
  let hasher := fnv_New64a in
  let hasher := hasher_Write hasher (bytesOf "leaf:") in
  let hasher := hasher_Write hasher (bytesOf path) in
  "l:" +:+ fmt_x (hasher_Sum64 hasher).

Definition signatureForError (path : string) (err : GoError) : string :=
  "err:" +:+ path +:+ ":" +:+ errType err.

(** [IsPermissionError] on a [*Directory]. *)
Definition IsPermissionError (d : option Directory) : bool :=
  match d with
  | None => false
  | Some d =>
      match Err d with
      | None => false
      | Some err => errors_Is_ErrPermission err
      end
  end.

(** ** Tree walker *)

(** [sort.Slice(entries, func(i, j) { entries[i].Name() < entries[j].Name() })].
    Entry names of one directory are distinct, so the sorted order is
    unique. *)
Definition byName (a b : DirEntry) : Prop :=
  String.le (DirEntry_Name a) (DirEntry_Name b).

#[global] Instance byName_dec : RelDecision byName.
Proof. intros a b. unfold byName. apply _. Defined.

Definition sortEntries (entries : list DirEntry) : list DirEntry :=
  merge_sort byName entries.

(** The variables of the loop over the entries, and [reads]: the paths
    handed to [os.ReadDir] so far. *)
Record Loop := mkLoop {
  fileExtCounts : gmap string Z;
  hiddenFiles : Z;
  files : list FileEntry;
  subdirs : list Directory;
  reads : list string
}.

(** ** The functions of package [strings] *)

(** [strings.ToLower] and [strings.TrimSpace], and what Go's
    implementation guarantees of them: on a string of ASCII bytes both
    take their ASCII branch; [strings.ToLower] maps rune by rune, so it
    adds no byte [0] to a string that has none (no letter maps to
    [U+0000], an invalid byte becomes [U+FFFD], and UTF-8 encodes no
    other rune with a byte [0]) and leaves a leading dot in place. *)
Class Strings := {
  strings_ToLower : string → string;
  strings_TrimSpace : string → string;
  ToLower_ascii s : isASCII s = true → strings_ToLower s = toLowerASCII s;
  ToLower_nul s : 0 ∉ bytesOf s → 0 ∉ bytesOf (strings_ToLower s);
  ToLower_dot s : ∃ s', strings_ToLower (String "." s) = String "." s';
  TrimSpace_ascii s : isASCII s = true → strings_TrimSpace s = trimSpaceASCII s
}.

(** The two functions on ASCII text. *)
Definition asciiStrings : Strings.
Proof.
  refine {| strings_ToLower := toLowerASCII;
            strings_TrimSpace := trimSpaceASCII |}.
  - reflexivity.
  - intros s Hs. unfold bytesOf, toLowerASCII in *.
    rewrite String.list_ascii_of_string_of_list_ascii, map_map.
    intros (c & H0 & Hin)%list_elem_of_fmap. apply Hs.
    apply list_elem_of_fmap. exists c. split; [|done].
    unfold lowerByte in H0.
    destruct ((65 <=? byteOf c) && (byteOf c <=? 90)) eqn:E; [|done].
    apply andb_true_iff in E as [H1%Z.leb_le H2%Z.leb_le].
    unfold byteOf at 1 in H0. rewrite N_ascii_embedding in H0; lia.
  - intros s. eexists. reflexivity.
  - reflexivity.
Defined.

(** The definitions that call the two functions, directly or through
    [walkDir] and [printChildren], take the instance as an implicit
    argument. *)
Section model.
Context {pkg : Strings}.

(** The extension under which a file is counted. *)
Definition extOf (filename : string) : string :=
  let ext := strings_ToLower (filepath_Ext filename) in
  if bool_decide (ext = "") then "<noext>" else ext.

(** [opts.MaxLevel != 0 && level >= opts.MaxLevel] *)
Definition atLimit (opts : Options) (level : Z) : bool :=
  negb (MaxLevel opts =? 0) && (level >=? MaxLevel opts).

(** The node recorded for a subdirectory that is not descended into. *)
Definition leafNode (joined name : string) (level : Z) : Directory :=
  {| Name := name; Path := joined; Level := level + 1;
     Subdirs := []; Files := []; HiddenFiles := 0;
     ImmediateDirCount := 0; ImmediateFileCount := 0;
     TotalDirs := 0; TotalFiles := 0;
     Signature := signatureForLeaf joined; Err := None |}.

(** One iteration of the loop over the sorted entries.  [descend joined
    name] stands for the recursive call [walkDir(joined, name, level+1,
    opts)]. *)
Definition walkEntry (descend : string → string → Directory * list string)
    (path : string) (level : Z) (opts : Options) (maxFiles : Z)
    (st : Loop) (entry : DirEntry) : Loop :=
  if DirEntry_IsDir entry then
    let joined := filepath_Join path (DirEntry_Name entry) in
    if atLimit opts level then
      let subdir := leafNode joined (DirEntry_Name entry) level in
      {| fileExtCounts := fileExtCounts st; hiddenFiles := hiddenFiles st;
         files := files st; subdirs := subdirs st ++ [subdir];
         reads := reads st |}
    else
      let '(child, r) := descend joined (DirEntry_Name entry) in
      {| fileExtCounts := fileExtCounts st; hiddenFiles := hiddenFiles st;
         files := files st; subdirs := subdirs st ++ [child];
         reads := reads st ++ r |}
  else
    let filename := DirEntry_Name entry in
    let ext := extOf filename in
    let counts :=
      <[ext := default 0 (fileExtCounts st !! ext) + 1]> (fileExtCounts st) in
    if Z.of_nat (length (files st)) <? maxFiles then
      {| fileExtCounts := counts; hiddenFiles := hiddenFiles st;
         files := files st ++ [mkFileEntry filename]; subdirs := subdirs st;
         reads := reads st |}
    else
      {| fileExtCounts := counts; hiddenFiles := hiddenFiles st + 1;
         files := files st; subdirs := subdirs st; reads := reads st |}.

Definition emptyLoop (path : string) : Loop :=
  {| fileExtCounts := ∅; hiddenFiles := 0; files := []; subdirs := [];
     reads := [path] |}.

(** [maxFiles := opts.MaxFiles; if maxFiles <= 0 { maxFiles = math.MaxInt }] *)
Definition fileCap (opts : Options) : Z :=
  if MaxFiles opts <=? 0 then math_MaxInt else MaxFiles opts.

(** The node built from the final state of the loop. *)
Definition finishNode (path name : string) (level : Z) (st : Loop) : Directory :=
  let immediateFileCount := Z.of_nat (length (files st)) + hiddenFiles st in
  let totalDirs :=
    fold_left (λ acc child, acc + TotalDirs child) (subdirs st)
      (Z.of_nat (length (subdirs st))) in
  let totalFiles :=
    fold_left (λ acc child, acc + TotalFiles child) (subdirs st)
      immediateFileCount in
  {| Name := name; Path := path; Level := level;
     Subdirs := subdirs st; Files := files st;
     HiddenFiles := hiddenFiles st;
     ImmediateDirCount := Z.of_nat (length (subdirs st));
     ImmediateFileCount := immediateFileCount;
     TotalDirs := totalDirs; TotalFiles := totalFiles;
     Signature := signatureForDirectory (fileExtCounts st) (subdirs st);
     Err := None |}.

(** The node returned when [os.ReadDir] fails. *)
Definition errorNode (path name : string) (level : Z) (err : GoError) : Directory :=
  {| Name := name; Path := path; Level := level;
     Subdirs := []; Files := []; HiddenFiles := 0;
     ImmediateDirCount := 0; ImmediateFileCount := 0;
     TotalDirs := 0; TotalFiles := 0;
     Signature := signatureForError path err; Err := Some err |}.

(** [walkDir(path, name, level, opts)], on the outcome [fs] of
    [os.ReadDir(path)].  The second component lists the paths read. *)
Fixpoint walkDir (fs : ReadDir) (path name : string) (level : Z)
    (opts : Options) {struct fs} : Directory * list string :=
  match fs with
  | ReadDirErr err => (errorNode path name level err, [path])
  | ReadDirOk entries sub =>
      let entries := sortEntries entries in
      let maxFiles := fileCap opts in
      let st :=
        fold_left
          (walkEntry
             (λ joined child, walkDir (sub child) joined child (level + 1) opts)
             path level opts maxFiles)
          entries (emptyLoop path) in
      (finishNode path name level st, reads st)
  end.

(** [Walk(path, opts)]: the tree, or the error of the root. *)
Definition Walk (fs : FileSystem) (path : string) (opts : Options)
    : GoError + Directory :=
  match os_Stat fs with
  | StatErr err => inl err
  | StatInfo name isDir =>
      if negb isDir then inl (fmt_Errorf (path +:+ " is not a directory"))
      else
        let clean := filepath_Clean path in
        let root := (walkDir (os_ReadDir fs) clean name 0 opts).1 in
        match Err root with
        | Some err => inl err
        | None => inr root
        end
  end.

(** ** Grouping ([internal/detect.go]) *)

(** [fmt.Sprintf("%d", n)] on an [int]. *)
Definition fmt_d (n : Z) : string :=
  if n <? 0 then "-" +:+ pretty (Z.to_N (- n)) else pretty (Z.to_N n).

Definition fallbackSignature (dir : Directory) : string :=
  "name:" +:+ Name dir +:+ ":level:" +:+ fmt_d (Level dir).

(** The key under which [GroupIdentical] files a directory. *)
Definition groupKey (dir : Directory) : string :=
  let sig := Signature dir in
  if bool_decide (sig = "") then fallbackSignature dir else sig.

(** One iteration of the first loop: [grouped] and [order]. *)
Definition groupStep (st : gmap string (list (option Directory)) * list string)
    (dir : option Directory) : gmap string (list (option Directory)) * list string :=
  let '(grouped, order) := st in
  match dir with
  | None => (grouped, order)
  | Some d =>
      let sig := groupKey d in
      let order :=
        match grouped !! sig with
        | None => order ++ [sig]
        | Some _ => order
        end in
      (<[sig := default [] (grouped !! sig) ++ [dir]]> grouped, order)
  end.

Definition GroupIdentical (dirs : list (option Directory)) : list DirGroup :=
  let '(grouped, order) := fold_left groupStep dirs (∅, []) in
  map (λ sig, {| DirGroup_Signature := sig;
                 Members := default [] (grouped !! sig) |}) order.

(** ** Reference descriptions used in the statements *)

(** The names of the files, and of the subdirectories, of a listing. *)
Definition fileNames (entries : list DirEntry) : list string :=
  map DirEntry_Name (filter (λ e, ¬ DirEntry_IsDir e) entries).

Definition dirNames (entries : list DirEntry) : list string :=
  map DirEntry_Name (filter (λ e, DirEntry_IsDir e) entries).

(** [fileExtCounts[ext]++] *)
Definition bumpExt (m : gmap string Z) (ext : string) : gmap string Z :=
  <[ext := default 0 (m !! ext) + 1]> m.

(** The extension histogram of a list of file names. *)
Definition histogram (names : list string) : gmap string Z :=
  fold_left bumpExt (map extOf names) ∅.

(** The node recorded for the subdirectory [name] of [path]. *)
Definition childNode (descend : string → string → Directory * list string)
    (path : string) (level : Z) (opts : Options) (name : string) : Directory :=
  let joined := filepath_Join path name in
  if atLimit opts level then leafNode joined name level
  else (descend joined name).1.

(** The reads caused by the subdirectory [name] of [path]. *)
Definition childReads (descend : string → string → Directory * list string)
    (path : string) (level : Z) (opts : Options) (name : string) : list string :=
  if atLimit opts level then []
  else (descend (filepath_Join path name) name).2.

(** Every node of a tree, parents before children, siblings in order. *)
Fixpoint allNodes (d : Directory) : list Directory :=
  d :: flat_map allNodes (Subdirs d).

(** [walkDir(joined, name, level+1, opts)] for the entry [name] of a
    directory whose entries are read through [sub]. *)
Definition descendInto (sub : string → ReadDir) (level : Z) (opts : Options)
    (joined name : string) : Directory * list string :=
  walkDir (sub name) joined name (level + 1) opts.

Definition sumZ (l : list Z) : Z := foldr Z.add 0 l.

(** The count invariants of one node. *)
Definition countsAddUp (d : Directory) : Prop :=
  ImmediateFileCount d = Z.of_nat (length (Files d)) + HiddenFiles d ∧
  ImmediateDirCount d = Z.of_nat (length (Subdirs d)) ∧
  TotalFiles d = ImmediateFileCount d + sumZ (map TotalFiles (Subdirs d)) ∧
  TotalDirs d = Z.of_nat (length (Subdirs d)) + sumZ (map TotalDirs (Subdirs d)).

(** The truncation invariant of one node under the display limit
    [maxFilesPerDir]. *)
Definition truncationHolds (maxFilesPerDir : Z) (d : Directory) : Prop :=
  (0 < maxFilesPerDir →
     HiddenFiles d = Z.max 0 (ImmediateFileCount d - maxFilesPerDir)) ∧
  (maxFilesPerDir = 0 → HiddenFiles d = 0).

(** Every listing of the tree fits a Go slice: its length is at most
    [math.MaxInt]. *)
Inductive ListingsFit : ReadDir → Prop :=
| fit_err err : ListingsFit (ReadDirErr err)
| fit_ok entries sub :
    Z.of_nat (length entries) ≤ math_MaxInt →
    (∀ name, name ∈ dirNames entries → ListingsFit (sub name)) →
    ListingsFit (ReadDirOk entries sub).

(** What identifies a node and its fingerprint. *)
Definition sigView (d : Directory) : string * string := (Path d, Signature d).

(** A leaf-of-unknown-contents marker: a node that has a name, a path and
    a level, the signature of its path, and nothing else. *)
Definition isLeafMarker (d : Directory) : Prop :=
  d = leafNode (Path d) (Name d) (Level d - 1).

(** The depth-limit rule in the words of the specification: the nodes at
    depth exactly [N] are markers and are never read. *)
Definition markersAtDepth (N : Z) (root : Directory) (log : list string) : Prop :=
  ∀ d, d ∈ allNodes root → Level d = N → isLeafMarker d ∧ Path d ∉ log.

(** A directory with no entries below which nothing is ever read. *)
Definition noSub : string → ReadDir :=
  λ _, ReadDirErr (mkGoError "*fs.PathError" "no such file or directory" KindNotExist).

(** The snapshot [root/{a/{x.txt}, b/{y.txt}}]. *)
Definition scenarioAB : ReadDir :=
  ReadDirOk [mkDirEntry "a" true; mkDirEntry "b" true]
    (λ name,
       if bool_decide (name = "a") then ReadDirOk [mkDirEntry "x.txt" false] noSub
       else if bool_decide (name = "b") then ReadDirOk [mkDirEntry "y.txt" false] noSub
       else noSub name).

(** The node of a directory with one file and nothing else. *)
Definition oneFileNode (path name file sig : string) : Directory :=
  {| Name := name; Path := path; Level := 1;
     Subdirs := []; Files := [mkFileEntry file]; HiddenFiles := 0;
     ImmediateDirCount := 0; ImmediateFileCount := 1;
     TotalDirs := 0; TotalFiles := 1;
     Signature := sig; Err := None |}.

(** The non-nil pointers of a slice, in order. *)
Definition nonNil (dirs : list (option Directory)) : list Directory :=
  omap id dirs.

(** The distinct keys of a list in order of first occurrence. *)
Fixpoint firstSeen (keys : list string) : list string :=
  match keys with
  | [] => []
  | k :: keys' => k :: filter (λ k', k' ≠ k) (firstSeen keys')
  end.

(** Grouping by a key, as the specification describes it: one group per
    distinct key, groups in order of first occurrence, members in their
    original order. *)
Definition groupsBy (key : Directory → string) (dirs : list Directory)
    : list DirGroup :=
  map (λ k, {| DirGroup_Signature := k;
               Members := map Some (filter (λ d, key d = k) dirs) |})
    (firstSeen (map key dirs)).

(** The members of all groups, group after group. *)
Definition allMembers (groups : list DirGroup) : list (option Directory) :=
  concat (map Members groups).

(** The last sentence of the claim on nil entries, read literally. *)
Definition membersInInputOrder (dirs : list (option Directory)) : Prop :=
  allMembers (GroupIdentical dirs) = filter (λ d, is_Some d) dirs.

(** A node that carries a name and a signature and nothing else. *)
Definition bareNode (name sig : string) : Directory :=
  {| Name := name; Path := name; Level := 1;
     Subdirs := []; Files := []; HiddenFiles := 0;
     ImmediateDirCount := 0; ImmediateFileCount := 0;
     TotalDirs := 0; TotalFiles := 0;
     Signature := sig; Err := None |}.

(** Two snapshots that list the same entries, possibly in another order,
    at every directory. *)
Inductive SameUpToOrder : ReadDir → ReadDir → Prop :=
| same_err err : SameUpToOrder (ReadDirErr err) (ReadDirErr err)
| same_ok entries1 entries2 sub1 sub2 :
    entries1 ≡ₚ entries2 →
    (∀ name, name ∈ dirNames entries1 → SameUpToOrder (sub1 name) (sub2 name)) →
    SameUpToOrder (ReadDirOk entries1 sub1) (ReadDirOk entries2 sub2).

(** The entries of every directory have distinct names. *)
Inductive DistinctNames : ReadDir → Prop :=
| distinct_err err : DistinctNames (ReadDirErr err)
| distinct_ok entries sub :
    NoDup (map DirEntry_Name entries) →
    (∀ name, name ∈ dirNames entries → DistinctNames (sub name)) →
    DistinctNames (ReadDirOk entries sub).

(** The snapshot [root/{a/{x.txt}, b/{y.txt}}], listed in another order. *)
Definition scenarioBA : ReadDir :=
  match scenarioAB with
  | ReadDirOk entries sub => ReadDirOk (reverse entries) sub
  | ReadDirErr err => ReadDirErr err
  end.

(** ** The byte stream behind a directory signature *)

(** A string without the byte [0]. *)
Definition nulFree (s : string) : Prop := 0 ∉ bytesOf s.

#[global] Instance nulFree_dec s : Decision (nulFree s).
Proof. unfold nulFree. apply _. Defined.

(** The bytes written for one extension, for one child signature, and for
    a whole directory. *)
Definition encodeExt (fileExtCounts : gmap string Z) (ext : string) : list Z :=
  bytesOf ext ++ [0] ++ intToBytes (default 0 (fileExtCounts !! ext)).

Definition encodeSig (sig : string) : list Z := bytesOf sig ++ [0].

Definition encodeDirectory (fileExtCounts : gmap string Z) (sigs : list string)
    : list Z :=
  bytesOf "files:" ++
  flat_map (encodeExt fileExtCounts)
    (sort_Strings (map fst (map_to_list fileExtCounts))) ++
  bytesOf "dirs:" ++
  flat_map encodeSig (sort_Strings sigs).

(** The FNV-1a digest of a byte stream. *)
Definition digest (bytes : list Z) : Z :=
  hasher_Sum64 (hasher_Write fnv_New64a bytes).

(** Reading a lower-case hexadecimal numeral back. *)
Definition hexValue (c : ascii) : Z :=
  let n := byteOf c in if n <? 58 then n - 48 else n - 87.

Fixpoint parseHex (s : string) (acc : Z) : Z :=
  match s with
  | EmptyString => acc
  | String c s' => parseHex s' (16 * acc + hexValue c)
  end.

(** Reading eight little-endian bytes back. *)
Definition fromBytes (bytes : list Z) : Z := foldr (λ b acc, b + 256 * acc) 0 bytes.

(** The number of files counted under an extension. *)
Definition countExt (names : list string) (ext : string) : Z :=
  Z.of_nat (length (filter (λ name, extOf name = ext) names)).

(** An extension token as the walker produces them: no byte [0], not
    empty, and not starting with the first byte of ["dirs:"]. *)
Definition extToken (ext : string) : Prop :=
  nulFree ext ∧ ∃ c rest, bytesOf ext = c :: rest ∧ c ≠ 100.

(** Two directories with one file each, whose extensions differ. *)
Definition collideA : ReadDir :=
  ReadDirOk [mkDirEntry "x.5sx4gh04an0da" false] noSub.

Definition collideB : ReadDir :=
  ReadDirOk [mkDirEntry "x.ijvpkfu14s2vn" false] noSub.

(** Signature equality as the specification words it, for two listings
    that were read: the signatures agree exactly when the extension
    histograms agree and the child signatures form the same multiset. *)
Definition signatureEqualityExact (entries1 entries2 : list DirEntry)
    (node1 node2 : Directory) : Prop :=
  Signature node1 = Signature node2 ↔
  histogram (fileNames entries1) = histogram (fileNames entries2) ∧
  map Signature (Subdirs node1) ≡ₚ map Signature (Subdirs node2).

(** A snapshot as an operating system can return it, as far as the
    encoding cares: no entry name and no error type holds a [0] byte, and
    every listing fits a Go slice. *)
Inductive NulFreeSnapshot : ReadDir → Prop :=
| nulfree_err err : nulFree (errType err) → NulFreeSnapshot (ReadDirErr err)
| nulfree_ok entries sub :
    Forall (λ e, nulFree (DirEntry_Name e)) entries →
    Z.of_nat (length entries) ≤ math_MaxInt →
    (∀ name, name ∈ dirNames entries → NulFreeSnapshot (sub name)) →
    NulFreeSnapshot (ReadDirOk entries sub).

(** Characters other than the byte [0]. *)
Definition okChars (l : list ascii) : Prop := Forall (λ c, byteOf c ≠ 0) l.

(** The snapshot
    [root/{pkg/{a/{f.go}, b/{f.go}}, scripts/{x.sh, y.sh, z.sh}}]. *)
Definition scenarioPkg : ReadDir :=
  ReadDirOk [mkDirEntry "scripts" true; mkDirEntry "pkg" true]
    (λ name,
       if bool_decide (name = "pkg") then
         ReadDirOk [mkDirEntry "b" true; mkDirEntry "a" true]
           (λ _, ReadDirOk [mkDirEntry "f.go" false] noSub)
       else
         ReadDirOk [mkDirEntry "y.sh" false; mkDirEntry "z.sh" false;
                    mkDirEntry "x.sh" false] noSub).

(** ** Further descriptions of trees *)

(** Each child sits one level below its parent, at the parent's path
    joined with the child's name. *)
Definition childrenLinked (d : Directory) : Prop :=
  Forall (λ c, Level c = Level d + 1 ∧ Path c = filepath_Join (Path d) (Name c))
    (Subdirs d).

(** Children and retained files are in ascending byte-wise name order. *)
Definition namesAscending (d : Directory) : Prop :=
  StronglySorted String.le (map Name (Subdirs d)) ∧
  StronglySorted String.le (map FileEntry_Name (Files d)).

(** A node without children, files or counts. *)
Definition isBare (d : Directory) : Prop :=
  Subdirs d = [] ∧ Files d = [] ∧ HiddenFiles d = 0 ∧
  ImmediateDirCount d = 0 ∧ ImmediateFileCount d = 0 ∧
  TotalDirs d = 0 ∧ TotalFiles d = 0.

(** The totals of a node count its subtree: [TotalDirs] the nodes below
    it, [TotalFiles] the files of every node in it. *)
Definition totalsCountSubtree (d : Directory) : Prop :=
  TotalDirs d = Z.of_nat (length (allNodes d)) - 1 ∧
  TotalFiles d = sumZ (map ImmediateFileCount (allNodes d)).

(** ** Rendering ([internal/printer.go]) *)

(** [PrinterOptions], without the writer: the lines written are returned
    in the order of the writes, each without its final newline. *)
Record PrinterOptions := mkPrinterOptions {
  MaxDirs : Z;
  UseColor : bool
}.

(** The [palette]: each colour is what its [Sprintf] makes of a formatted
    text.  The colour library decides what that is. *)
Record palette := mkPalette {
  palette_dir : string → string;
  palette_file : string → string;
  palette_summary : string → string;
  palette_stats : string → string;
  palette_err : string → string
}.

Inductive itemKind := itemDir | itemCollapse | itemFile | itemFileSummary.

Record treeItem := mkTreeItem {
  treeItem_kind : itemKind;
  treeItem_dir : option Directory;
  treeItem_file : FileEntry;
  treeItem_collapseCount : Z
}.

#[global] Instance itemKind_eq_dec : EqDecision itemKind.
Proof. solve_decision. Defined.

(** The outcome of printing: a run-time panic (a nil dereference, or the
    model running out of fuel), an error value, or the lines written. *)
Inductive PrintResult :=
| printPanic
| printError (err : GoError)
| printOk (written : list string).

Definition dirItem (d : option Directory) : treeItem :=
  {| treeItem_kind := itemDir; treeItem_dir := d;
     treeItem_file := mkFileEntry ""; treeItem_collapseCount := 0 |}.

Definition collapseItem (n : Z) : treeItem :=
  {| treeItem_kind := itemCollapse; treeItem_dir := None;
     treeItem_file := mkFileEntry ""; treeItem_collapseCount := n |}.

Definition fileItem (f : FileEntry) : treeItem :=
  {| treeItem_kind := itemFile; treeItem_dir := None;
     treeItem_file := f; treeItem_collapseCount := 0 |}.

Definition fileSummaryItem (n : Z) : treeItem :=
  {| treeItem_kind := itemFileSummary; treeItem_dir := None;
     treeItem_file := mkFileEntry ""; treeItem_collapseCount := n |}.

(** [limit := len(group.Members); if limit > maxDirs { limit = maxDirs }] *)
Definition groupLimit (maxDirs : Z) (group : DirGroup) : Z :=
  let limit := Z.of_nat (length (Members group)) in
  if limit >? maxDirs then maxDirs else limit.

(** The items of one group: [Members[0]] to [Members[limit-1]], then a
    collapse item when members are left over. *)
Definition groupItems (maxDirs : Z) (group : DirGroup) : list treeItem :=
  let limit := groupLimit maxDirs group in
  let items := map dirItem (take (Z.to_nat limit) (Members group)) in
  if Z.of_nat (length (Members group)) >? limit then
    items ++ [collapseItem (Z.of_nat (length (Members group)) - limit)]
  else items.

(** [maxDirs := opts.MaxDirs; if maxDirs <= 0 { maxDirs = math.MaxInt }] *)
Definition dirCap (opts : PrinterOptions) : Z :=
  if MaxDirs opts <=? 0 then math_MaxInt else MaxDirs opts.

Definition buildItems (dir : Directory) (opts : PrinterOptions) : list treeItem :=
  let maxDirs := dirCap opts in
  let groups := GroupIdentical (map Some (Subdirs dir)) in
  let items := flat_map (groupItems maxDirs) groups in
  let items := items ++ map fileItem (Files dir) in
  if HiddenFiles dir >? 0 then items ++ [fileSummaryItem (HiddenFiles dir)]
  else items.

Definition extendPrefix (prefix : string) (isLast : bool) : string :=
  if isLast then prefix +:+ "    " else prefix +:+ "│   ".

(** [errorMessage].  Calling [Error()] on a nil error panics: [None]. *)
Definition errorMessage (dir : Directory) (pal : palette) : option string :=
  if IsPermissionError (Some dir) then
    Some (palette_summary pal "[Permission denied]")
  else
    match Err dir with
    | None => None
    | Some err =>
        let trimmed := strings_TrimSpace (errText err) in
        let trimmed := if bool_decide (trimmed = "") then "error" else trimmed in
        Some (palette_err pal ("[" +:+ trimmed +:+ "]"))
    end.

(** The line of the file summary. *)
Definition fileSummaryText (dir : Directory) (item : treeItem) : string :=
  "... [" +:+ fmt_d (ImmediateDirCount dir) +:+ " directories, " +:+
  fmt_d (ImmediateFileCount dir) +:+ " files, showing first " +:+
  fmt_d (wrapInt (ImmediateFileCount dir - treeItem_collapseCount item)) +:+ "]".

(** The loop of [printChildren] over the items; [recur child prefix]
    stands for the recursive call.  A nil [item.dir] panics. *)
Fixpoint printItems (recur : Directory → string → option (list string))
    (dir : Directory) (prefix : string) (pal : palette)
    (items : list treeItem) : option (list string) :=
  match items with
  | [] => Some []
  | item :: rest =>
      let isLast := match rest with [] => true | _ => false end in
      let connector := if isLast then "└── " else "├── " in
      lines ←
        match treeItem_kind item with
        | itemDir =>
            child ← treeItem_dir item;
            let label := Name child in
            match Err child with
            | Some _ =>
                msg ← errorMessage child pal;
                Some [prefix +:+ connector +:+ palette_dir pal label +:+ " " +:+ msg]
            | None =>
                below ← recur child (extendPrefix prefix isLast);
                Some ((prefix +:+ connector +:+ palette_dir pal label +:+ "/") :: below)
            end
        | itemCollapse =>
            Some [prefix +:+ connector +:+
                  palette_summary pal
                    ("... (" +:+ fmt_d (treeItem_collapseCount item) +:+
                     " identical dirs)")]
        | itemFile =>
            Some [prefix +:+ connector +:+
                  palette_file pal (FileEntry_Name (treeItem_file item))]
        | itemFileSummary =>
            Some [prefix +:+ connector +:+
                  palette_summary pal (fileSummaryText dir item)]
        end;
      more ← printItems recur dir prefix pal rest;
      Some (lines ++ more)
  end.

(** [printChildren].  The recursion of the code follows the tree; [fuel]
    bounds its depth here, and [None] stands for a panic or for fuel
    that ran out. *)
Fixpoint printChildren (fuel : nat) (dir : Directory) (prefix : string)
    (opts : PrinterOptions) (pal : palette) : option (list string) :=
  match fuel with
  | O => None
  | S fuel' =>
      printItems (λ child prefix', printChildren fuel' child prefix' opts pal)
        dir prefix pal (buildItems dir opts)
  end.

(** The number of levels of a tree. *)
Fixpoint dirHeight (d : Directory) : nat :=
  S (max_list (map dirHeight (Subdirs d))).

(** [PrintTree].  [newPalette useColor] stands for [newPalette()] under
    [color.NoColor = !opts.UseColor]. *)
Definition PrintTree (newPalette : bool → palette) (rootLabel : string)
    (dir : option Directory) (opts : PrinterOptions) : PrintResult :=
  match dir with
  | None => printError (fmt_Errorf "nil directory")
  | Some d =>
      let pal := newPalette (UseColor opts) in
      match printChildren (dirHeight d) d "" opts pal with
      | None => printPanic
      | Some children =>
          printOk
            ([palette_dir pal rootLabel] ++ children ++
             [palette_stats pal
                ("[" +:+ fmt_d (wrapInt (TotalDirs d + 1)) +:+ " directories, " +:+
                 fmt_d (TotalFiles d) +:+ " files]")])
      end
  end.

(** A palette that leaves the text as it is, as with colours off. *)
Definition plainPalette : palette :=
  {| palette_dir := id; palette_file := id; palette_summary := id;
     palette_stats := id; palette_err := id |}.

(** The directories shown by a list of items, and the number of
    directories its collapse items stand for. *)
Definition shownDirs (items : list treeItem) : list (option Directory) :=
  map treeItem_dir (filter (λ it, treeItem_kind it = itemDir) items).

Definition collapsedDirs (items : list treeItem) : Z :=
  sumZ (map treeItem_collapseCount
          (filter (λ it, treeItem_kind it = itemCollapse) items)).

Definition shownFiles (items : list treeItem) : list FileEntry :=
  map treeItem_file (filter (λ it, treeItem_kind it = itemFile) items).

Definition fileSummaries (items : list treeItem) : list Z :=
  map treeItem_collapseCount
    (filter (λ it, treeItem_kind it = itemFileSummary) items).

(** The snapshot behind the sample of the README:
    [pkg/service{A,B,C}/{cmd/main.go, internal/app.go, config.yaml}] and
    [scripts/{build.sh, deploy.sh, test.sh}]. *)
Definition sampleService : ReadDir :=
  ReadDirOk [mkDirEntry "config.yaml" false; mkDirEntry "internal" true;
             mkDirEntry "cmd" true]
    (λ name,
       if bool_decide (name = "cmd") then ReadDirOk [mkDirEntry "main.go" false] noSub
       else ReadDirOk [mkDirEntry "app.go" false] noSub).

Definition sampleTree : ReadDir :=
  ReadDirOk [mkDirEntry "scripts" true; mkDirEntry "pkg" true]
    (λ name,
       if bool_decide (name = "pkg") then
         ReadDirOk [mkDirEntry "serviceB" true; mkDirEntry "serviceA" true;
                    mkDirEntry "serviceC" true] (λ _, sampleService)
       else
         ReadDirOk [mkDirEntry "deploy.sh" false; mkDirEntry "test.sh" false;
                    mkDirEntry "build.sh" false] noSub).







(** The footer of [PrintTree]. *)
Definition statsLine (pal : palette) (d : Directory) : string :=
  palette_stats pal
    ("[" +:+ fmt_d (wrapInt (TotalDirs d + 1)) +:+ " directories, " +:+
     fmt_d (TotalFiles d) +:+ " files]").

(** The numbers of the summary line of a node against the items listed
    for it: the directories are the ones shown and the ones collapsed,
    the file items are [Files], and what a summary item gives as
    [showing first] is the number of file items. *)
Definition summaryAgrees (opts : PrinterOptions) (n : Directory) : Prop :=
  let items := buildItems n opts in
  ImmediateDirCount n =
    Z.of_nat (length (shownDirs items)) + collapsedDirs items ∧
  shownFiles items = Files n ∧
  Forall (λ it, treeItem_kind it = itemFileSummary →
                0 < treeItem_collapseCount it ∧
                ImmediateFileCount n - treeItem_collapseCount it =
                  Z.of_nat (length (shownFiles items)))
    items.

(** ** The command ([cmd/root.go]) *)

(** [strings.HasSuffix]. *)
Definition strings_HasSuffix (s suffix : string) : bool :=
  let cs := String.list_ascii_of_string s in
  let suf := String.list_ascii_of_string suffix in
  (length suf <=? length cs)%nat &&
  bool_decide (drop (length cs - length suf) cs = suf).

(** [string(os.PathSeparator)]. *)
Definition sep : string := "/".

Definition formatRootLabel (input : string) : string :=
  let input := if bool_decide (input = "") then "." else input in
  let cleaned := filepath_Clean input in
  if bool_decide (cleaned = ".") then cleaned
  else if strings_HasSuffix input sep then input
  else cleaned +:+ sep.

(** [rootCmd.RunE], on the values of the flags [--files], [--dirs] and
    [--level] and the positional arguments.  [fs path] is what [os.Stat]
    and [os.ReadDir] answer at [path]; the result is the error returned
    or the lines written to the output of the command. *)
Definition RunE (newPalette : bool → palette) (fs : string → FileSystem)
    (maxFiles maxDirs maxLevel : Z) (args : list string) : PrintResult :=
  if maxFiles <? 0 then printError (fmt_Errorf "--files must be >= 0")
  else if maxDirs <? 0 then printError (fmt_Errorf "--dirs must be >= 0")
  else if maxLevel <? 0 then printError (fmt_Errorf "--level must be >= 0")
  else
    let target := match args with arg :: _ => arg | [] => "." end in
    let cleaned := filepath_Clean target in
    let walkerOpts := {| MaxFiles := maxFiles; MaxLevel := maxLevel |} in
    match Walk (fs cleaned) cleaned walkerOpts with
    | inl err => printError err
    | inr dir =>
        let label := formatRootLabel target in
        let printerOpts := {| MaxDirs := maxDirs; UseColor := true |} in
        PrintTree newPalette label (Some dir) printerOpts
    end.

(** Two snapshots of the same structure: the files of the two listings
    have the same extensions (lower-cased, with multiplicity) whatever
    their names, and the subdirectories pair off, whatever their names,
    so that paired subdirectories have the same structure again. *)
Inductive SameStructure : ReadDir → ReadDir → Prop :=
| same_structure entries1 entries2 sub1 sub2 (pairs : list (string * string)) :
    map extOf (fileNames entries1) ≡ₚ map extOf (fileNames entries2) →
    dirNames entries1 ≡ₚ map fst pairs →
    dirNames entries2 ≡ₚ map snd pairs →
    (∀ n1 n2, (n1, n2) ∈ pairs → SameStructure (sub1 n1) (sub2 n2)) →
    SameStructure (ReadDirOk entries1 sub1) (ReadDirOk entries2 sub2).

(** [svc/{main.GO, lib/{a.txt}}] and [other/{pkg/{b.TXT}, x.go}]. *)
Definition structureA : ReadDir :=
  ReadDirOk [mkDirEntry "main.GO" false; mkDirEntry "lib" true]
    (λ _, ReadDirOk [mkDirEntry "a.txt" false] noSub).

Definition structureB : ReadDir :=
  ReadDirOk [mkDirEntry "pkg" true; mkDirEntry "x.go" false]
    (λ _, ReadDirOk [mkDirEntry "b.TXT" false] noSub).

(** A snapshot whose files all have extensions of ASCII bytes. *)
Inductive AsciiExtensions : ReadDir → Prop :=
| ascii_err err : AsciiExtensions (ReadDirErr err)
| ascii_ok entries sub :
    Forall (λ name, isASCII (filepath_Ext name) = true) (fileNames entries) →
    (∀ name, name ∈ dirNames entries → AsciiExtensions (sub name)) →
    AsciiExtensions (ReadDirOk entries sub).

End model.

(** ** The loop of [walkDir] in closed form *)

(** Hashes and the recursive walk are not unfolded by [simpl]. *)
Arguments signatureForDirectoryRange : simpl never.
Arguments signatureForDirectory : simpl never.
Arguments signatureForLeaf : simpl never.
Arguments signatureForError : simpl never.
Arguments filepath_Join : simpl never.
Arguments filepath_Clean : simpl never.
Arguments walkDir : simpl never.

(** The lemmas and theorems of this section hold for every instance of
    [Strings]. *)
Section properties.
Context {pkg : Strings}.

Lemma fileNames_cons e entries :
  fileNames (e :: entries) =
  if DirEntry_IsDir e then fileNames entries
  else DirEntry_Name e :: fileNames entries.
Proof.
  unfold fileNames. rewrite filter_cons.
  by destruct (DirEntry_IsDir e).
Qed.

Lemma dirNames_cons e entries :
  dirNames (e :: entries) =
  if DirEntry_IsDir e then DirEntry_Name e :: dirNames entries
  else dirNames entries.
Proof.
  unfold dirNames. rewrite filter_cons.
  by destruct (DirEntry_IsDir e).
Qed.

Section loop.
Context (descend : string → string → Directory * list string).
Context (path : string) (level : Z) (opts : Options) (maxFiles : Z).

Let step := walkEntry descend path level opts maxFiles.

Lemma loop_subdirs entries st :
  subdirs (fold_left step entries st) =
  subdirs st ++ map (childNode descend path level opts) (dirNames entries).
Proof.
  revert st. induction entries as [|e entries IH]; intros st; simpl.
  { by rewrite app_nil_r. }
  rewrite IH, dirNames_cons. subst step. unfold walkEntry, childNode.
  destruct (DirEntry_IsDir e); simpl.
  - destruct (atLimit opts level); simpl.
    + by rewrite <- app_assoc.
    + destruct (descend _ _) as [child r]. simpl. by rewrite <- app_assoc.
  - by destruct (_ <? _).
Qed.

Lemma loop_reads entries st :
  reads (fold_left step entries st) =
  reads st ++ concat (map (childReads descend path level opts) (dirNames entries)).
Proof.
  revert st. induction entries as [|e entries IH]; intros st; simpl.
  { by rewrite app_nil_r. }
  rewrite IH, dirNames_cons. subst step. unfold walkEntry, childReads.
  destruct (DirEntry_IsDir e); simpl.
  - destruct (atLimit opts level); simpl; [done|].
    destruct (descend _ _) as [child r]. simpl. by rewrite <- app_assoc.
  - by destruct (_ <? _).
Qed.

Lemma loop_counts entries st :
  fileExtCounts (fold_left step entries st) =
  fold_left bumpExt (map extOf (fileNames entries)) (fileExtCounts st).
Proof.
  revert st. induction entries as [|e entries IH]; intros st; simpl; [done|].
  rewrite IH, fileNames_cons. subst step. unfold walkEntry.
  destruct (DirEntry_IsDir e); simpl.
  - destruct (atLimit opts level); simpl; [done|].
    by destruct (descend _ _).
  - by destruct (_ <? _).
Qed.

(** The retained files are a prefix of the file names, in order; the
    other files are only counted. *)
Lemma loop_files entries st :
  let room := Z.to_nat (maxFiles - Z.of_nat (length (files st))) in
  files (fold_left step entries st) =
    files st ++ map mkFileEntry (take room (fileNames entries)) ∧
  hiddenFiles (fold_left step entries st) =
    hiddenFiles st + Z.of_nat (length (drop room (fileNames entries))).
Proof.
  revert st. induction entries as [|e entries IH]; intros st; simpl.
  { unfold fileNames. rewrite filter_nil. simpl.
    rewrite take_nil, drop_nil. simpl. rewrite app_nil_r. split; [done|lia]. }
  destruct (IH (step st e)) as [IHf IHh]. rewrite IHf, IHh. clear IH IHf IHh.
  rewrite fileNames_cons. subst step. unfold walkEntry.
  destruct (DirEntry_IsDir e); simpl.
  - destruct (atLimit opts level); simpl; [done|].
    by destruct (descend _ _).
  - destruct (Z.ltb_spec (Z.of_nat (length (files st))) maxFiles) as [Hlt|Hge]; simpl.
    + rewrite length_app. simpl.
      replace (Z.to_nat (maxFiles - Z.of_nat (length (files st))))
        with (S (Z.to_nat (maxFiles - Z.of_nat (length (files st) + 1)%nat))) by lia.
      simpl. by rewrite <- app_assoc.
    + replace (Z.to_nat (maxFiles - Z.of_nat (length (files st)))) with 0%nat by lia.
      simpl. rewrite !drop_0. split; [done|]. lia.
Qed.
End loop.

(** ** [walkDir], unfolded *)

Lemma walkDir_err err path name level opts :
  walkDir (ReadDirErr err) path name level opts =
  (errorNode path name level err, [path]).
Proof. done. Qed.

Lemma walkDir_ok entries sub path name level opts :
  walkDir (ReadDirOk entries sub) path name level opts =
  let st :=
    fold_left (walkEntry (descendInto sub level opts) path level opts (fileCap opts))
      (sortEntries entries) (emptyLoop path) in
  (finishNode path name level st, reads st).
Proof. done. Qed.

Lemma walkDir_Path fs path name level opts :
  Path (walkDir fs path name level opts).1 = path.
Proof. by destruct fs. Qed.

Lemma walkDir_Name fs path name level opts :
  Name (walkDir fs path name level opts).1 = name.
Proof. by destruct fs. Qed.

Lemma walkDir_Level fs path name level opts :
  Level (walkDir fs path name level opts).1 = level.
Proof. by destruct fs. Qed.

Lemma sortEntries_perm entries : sortEntries entries ≡ₚ entries.
Proof. apply merge_sort_Permutation. Qed.

Lemma dirNames_perm l1 l2 : l1 ≡ₚ l2 → dirNames l1 ≡ₚ dirNames l2.
Proof. intros H. unfold dirNames. by rewrite H. Qed.

Lemma fileNames_perm l1 l2 : l1 ≡ₚ l2 → fileNames l1 ≡ₚ fileNames l2.
Proof. intros H. unfold fileNames. by rewrite H. Qed.

Lemma fileNames_length entries :
  (length (fileNames entries) ≤ length entries)%nat.
Proof.
  unfold fileNames. rewrite length_map. apply length_filter.
Qed.

Lemma fold_left_totals {A} (f : A → Z) (l : list A) (a : Z) :
  fold_left (λ acc child, acc + f child) l a = a + sumZ (map f l).
Proof.
  revert a. induction l as [|x l IH]; intros a; simpl; [lia|].
  rewrite IH. unfold sumZ. simpl. lia.
Qed.

Section walkDir_ok.
Context (entries : list DirEntry) (sub : string → ReadDir).
Context (path name : string) (level : Z) (opts : Options).

Let node := (walkDir (ReadDirOk entries sub) path name level opts).1.
Let sorted := sortEntries entries.

Lemma walkDir_Subdirs :
  Subdirs node =
  map (childNode (descendInto sub level opts) path level opts) (dirNames sorted).
Proof. subst node sorted. rewrite walkDir_ok. simpl. by rewrite loop_subdirs. Qed.

Lemma walkDir_reads :
  (walkDir (ReadDirOk entries sub) path name level opts).2 =
  path :: concat (map (childReads (descendInto sub level opts) path level opts)
                    (dirNames sorted)).
Proof. subst sorted. rewrite walkDir_ok. simpl. by rewrite loop_reads. Qed.

Lemma walkDir_Files :
  Files node =
  map mkFileEntry (take (Z.to_nat (fileCap opts)) (fileNames sorted)).
Proof.
  subst node sorted. rewrite walkDir_ok. simpl.
  destruct (loop_files (descendInto sub level opts) path level opts (fileCap opts)
              (sortEntries entries) (emptyLoop path)) as [-> _].
  simpl. by rewrite Z.sub_0_r.
Qed.

Lemma walkDir_HiddenFiles :
  HiddenFiles node =
  Z.of_nat (length (drop (Z.to_nat (fileCap opts)) (fileNames sorted))).
Proof.
  subst node sorted. rewrite walkDir_ok. simpl.
  destruct (loop_files (descendInto sub level opts) path level opts (fileCap opts)
              (sortEntries entries) (emptyLoop path)) as [_ ->].
  simpl. by rewrite Z.sub_0_r.
Qed.

Lemma walkDir_ImmediateFileCount :
  ImmediateFileCount node = Z.of_nat (length (fileNames sorted)).
Proof.
  change (ImmediateFileCount node)
    with (Z.of_nat (length (Files node)) + HiddenFiles node).
  rewrite walkDir_Files, walkDir_HiddenFiles.
  rewrite length_map, length_take, length_drop. lia.
Qed.

Lemma walkDir_Signature :
  Signature node =
  signatureForDirectory (histogram (fileNames sorted)) (Subdirs node).
Proof.
  subst node sorted. rewrite walkDir_ok. simpl. by rewrite loop_counts.
Qed.

Lemma walkDir_Err : Err node = None.
Proof. done. Qed.

Lemma walkDir_countsAddUp : countsAddUp node.
Proof.
  subst node. rewrite walkDir_ok. unfold countsAddUp. simpl.
  rewrite !fold_left_totals. done.
Qed.
End walkDir_ok.

Lemma allNodes_unfold d : allNodes d = d :: flat_map allNodes (Subdirs d).
Proof. by destruct d. Qed.

(** A property of nodes that holds of error nodes, of leaf markers and of
    every node built from a listing holds of every node of every tree
    [walkDir] returns. *)
Lemma walkDir_nodes_ind (W : ReadDir → Prop) (Q : Directory → Prop) opts :
  (∀ entries sub n,
     W (ReadDirOk entries sub) → n ∈ dirNames entries → W (sub n)) →
  (∀ path name level err, Q (errorNode path name level err)) →
  (∀ joined name level, Q (leafNode joined name level)) →
  (∀ entries sub path name level,
     W (ReadDirOk entries sub) →
     Q (walkDir (ReadDirOk entries sub) path name level opts).1) →
  ∀ fs path name level,
    W fs → Forall Q (allNodes (walkDir fs path name level opts).1).
Proof.
  intros Hsub Herr Hleaf Hok fs.
  induction fs as [err|entries sub IH]; intros path name level HW.
  - rewrite walkDir_err. simpl. repeat constructor. apply Herr.
  - rewrite allNodes_unfold. constructor; [by apply Hok|].
    rewrite walkDir_Subdirs.
    assert (Hin : ∀ n, n ∈ dirNames (sortEntries entries) → n ∈ dirNames entries).
    { intros n. by rewrite (dirNames_perm _ _ (sortEntries_perm entries)). }
    revert Hin. generalize (dirNames (sortEntries entries)) as names.
    induction names as [|n names IHn]; intros Hin; simpl; [constructor|].
    apply Forall_app. split.
    + unfold childNode. destruct (atLimit opts level).
      * simpl. repeat constructor. apply Hleaf.
      * unfold descendInto. apply IH. eapply Hsub; [done|]. apply Hin. left.
    + apply IHn. intros n' Hn'. apply Hin. by right.
Qed.

(** ** Counts and truncation *)

Lemma ListingsFit_sub entries sub n :
  ListingsFit (ReadDirOk entries sub) → n ∈ dirNames entries → ListingsFit (sub n).
Proof. inversion 1; auto. Qed.

Lemma truncationHolds_ok entries sub path name level opts :
  Z.of_nat (length entries) ≤ math_MaxInt →
  truncationHolds (MaxFiles opts)
    (walkDir (ReadDirOk entries sub) path name level opts).1.
Proof.
  intros Hfit. unfold truncationHolds.
  rewrite walkDir_HiddenFiles, walkDir_ImmediateFileCount, length_drop.
  pose proof (fileNames_length (sortEntries entries)) as Hlen.
  rewrite (Permutation_length (sortEntries_perm entries)) in Hlen.
  unfold fileCap. split.
  - intros Hpos. destruct (Z.leb_spec (MaxFiles opts) 0); lia.
  - intros ->. simpl. unfold math_MaxInt in *. lia.
Qed.

(** C4. Every node of the tree built by a walk satisfies the count
    invariant, whatever the options: [TotalFiles] is the node's own file
    count (retained plus hidden) plus the children's [TotalFiles], and
    [TotalDirs] is the number of immediate subdirectories plus the
    children's [TotalDirs]. *)
Theorem C4_counts_add_up (fs : ReadDir) (path name : string) (level : Z)
    (opts : Options) :
  Forall countsAddUp (allNodes (walkDir fs path name level opts).1) ∧
  ∀ stat,
    match Walk (mkFileSystem stat fs) path opts with
    | inr root => Forall countsAddUp (allNodes root)
    | inl _ => True
    end.
Proof.
  assert (Hall : ∀ p n l, Forall countsAddUp (allNodes (walkDir fs p n l opts).1)).
  { intros p n l.
    apply (walkDir_nodes_ind (λ _, True) countsAddUp opts); try done.
    intros. apply walkDir_countsAddUp. }
  split; [apply Hall|].
  intros stat. unfold Walk. simpl.
  destruct stat as [err|n isDir]; [done|].
  destruct isDir; simpl; [|done].
  destruct (Err _); [done|]. apply Hall.
Qed.

(** C5. Under a display limit [maxFilesPerDir > 0] every node hides
    [max(0, immediateFileCount - maxFilesPerDir)] files, and none when the
    limit is [0]; the retained files are the first files in name order,
    while the immediate file count and the histogram behind the signature
    cover every file of the listing, each under its extension as
    [strings.ToLower] lower-cases it (for every instance of [Strings]). *)
Theorem C5_truncation (fs : ReadDir) (path name : string) (level : Z)
    (opts : Options) (Hfit : ListingsFit fs) :
  Forall (truncationHolds (MaxFiles opts))
    (allNodes (walkDir fs path name level opts).1) ∧
  match fs with
  | ReadDirErr _ => True
  | ReadDirOk entries sub =>
      let node := (walkDir fs path name level opts).1 in
      let seen := fileNames (sortEntries entries) in
      Files node = map mkFileEntry (take (Z.to_nat (fileCap opts)) seen) ∧
      HiddenFiles node =
        Z.of_nat (length (drop (Z.to_nat (fileCap opts)) seen)) ∧
      ImmediateFileCount node = Z.of_nat (length seen) ∧
      Signature node = signatureForDirectory (histogram seen) (Subdirs node)
  end.
Proof.
  split.
  - apply (walkDir_nodes_ind ListingsFit); try done.
    + apply ListingsFit_sub.
    + intros. split; simpl; lia.
    + intros. split; simpl; lia.
    + intros entries sub p n l Hf. apply truncationHolds_ok. by inversion Hf.
  - destruct fs as [err|entries sub]; [done|]. cbv zeta.
    split; [apply walkDir_Files|].
    split; [apply walkDir_HiddenFiles|].
    split; [apply walkDir_ImmediateFileCount|apply walkDir_Signature].
Qed.

(** ** The signature does not see the display limit *)

Lemma signatureForDirectory_ext m s1 s2 :
  map Signature s1 = map Signature s2 →
  signatureForDirectory m s1 = signatureForDirectory m s2.
Proof.
  intros H. unfold signatureForDirectory, signatureForDirectoryRange. by rewrite H.
Qed.

Lemma sigView_head d1 d2 :
  map sigView (allNodes d1) = map sigView (allNodes d2) →
  Signature d1 = Signature d2.
Proof. rewrite !allNodes_unfold. simpl. unfold sigView. congruence. Qed.

Lemma sigView_children (c1 c2 : string → Directory) names :
  (∀ n, map sigView (allNodes (c1 n)) = map sigView (allNodes (c2 n))) →
  map Signature (map c1 names) = map Signature (map c2 names) ∧
  map sigView (flat_map allNodes (map c1 names)) =
  map sigView (flat_map allNodes (map c2 names)).
Proof.
  intros H. induction names as [|n names [IH1 IH2]]; simpl; [done|].
  split.
  - f_equal; [by apply sigView_head|done].
  - rewrite !map_app. by f_equal.
Qed.

Lemma sigView_maxFiles fs path name level maxFiles1 maxFiles2 maxLevel :
  map sigView (allNodes (walkDir fs path name level (mkOptions maxFiles1 maxLevel)).1) =
  map sigView (allNodes (walkDir fs path name level (mkOptions maxFiles2 maxLevel)).1).
Proof.
  revert path name level.
  induction fs as [err|entries sub IH]; intros path name level; [done|].
  set (o1 := mkOptions maxFiles1 maxLevel). set (o2 := mkOptions maxFiles2 maxLevel).
  destruct (sigView_children
              (childNode (descendInto sub level o1) path level o1)
              (childNode (descendInto sub level o2) path level o2)
              (dirNames (sortEntries entries))) as [Hs Hv].
  { intros n. unfold childNode, atLimit. simpl.
    destruct (_ && _); [done|]. apply IH. }
  rewrite !(allNodes_unfold (walkDir _ _ _ _ _).1), !map_cons.
  unfold sigView at 1 3.
  rewrite (walkDir_Signature entries sub path name level o1).
  rewrite (walkDir_Signature entries sub path name level o2).
  rewrite (walkDir_Subdirs entries sub path name level o1).
  rewrite (walkDir_Subdirs entries sub path name level o2).
  rewrite Hv, (signatureForDirectory_ext _ _ _ Hs).
  by rewrite !walkDir_Path.
Qed.

(** C3. Two walks of the same snapshot that differ only in [MaxFiles]
    give every corresponding directory the same signature: the histogram
    hashed for a directory is the one of every file of its listing, not of
    the files retained for display.  The extensions are the keys
    [strings.ToLower] returns: the statement holds for every instance of
    [Strings]. *)
Theorem C3_signature_ignores_file_limit (fs : ReadDir) (path name : string)
    (level maxFiles1 maxFiles2 maxLevel : Z) :
  let walk1 := (walkDir fs path name level (mkOptions maxFiles1 maxLevel)).1 in
  let walk2 := (walkDir fs path name level (mkOptions maxFiles2 maxLevel)).1 in
  map sigView (allNodes walk1) = map sigView (allNodes walk2) ∧
  Signature walk1 = Signature walk2 ∧
  match fs with
  | ReadDirErr _ => True
  | ReadDirOk entries sub =>
      Signature walk1 =
      signatureForDirectory (histogram (fileNames (sortEntries entries)))
        (Subdirs walk1)
  end.
Proof.
  simpl. split; [apply sigView_maxFiles|].
  split; [apply sigView_head, sigView_maxFiles|].
  destruct fs as [err|entries sub]; [done|]. apply walkDir_Signature.
Qed.

(** ** The depth limit *)

Lemma atLimit_iff opts level :
  atLimit opts level = true ↔ MaxLevel opts ≠ 0 ∧ MaxLevel opts ≤ level.
Proof.
  unfold atLimit. rewrite andb_true_iff, negb_true_iff, Z.eqb_neq, Z.geb_le. done.
Qed.

Lemma atLimit_false opts level :
  atLimit opts level = false ↔ MaxLevel opts = 0 ∨ level < MaxLevel opts.
Proof.
  destruct (atLimit opts level) eqn:E.
  - apply atLimit_iff in E. split; [done|]. lia.
  - split; [intros _|done].
    destruct (decide (MaxLevel opts = 0)); [by left|right].
    destruct (Z.lt_ge_cases level (MaxLevel opts)); [done|].
    assert (atLimit opts level = true) by (apply atLimit_iff; lia). congruence.
Qed.

Lemma leafNode_isLeafMarker joined name level :
  isLeafMarker (leafNode joined name level).
Proof.
  unfold isLeafMarker, leafNode. simpl. by replace (level + 1 - 1) with level by lia.
Qed.

(** With a limit [N > 0], a walk started at a level [<= N] reads exactly
    the nodes of level [<= N], once each and parents first; the other
    nodes are markers. *)
Lemma walkDir_reads_limited fs path name level opts :
  MaxLevel opts ≠ 0 → level ≤ MaxLevel opts →
  let '(root, log) := walkDir fs path name level opts in
  log = map Path (filter (λ d, Level d ≤ MaxLevel opts) (allNodes root)) ∧
  Forall (λ d, Level d ≤ MaxLevel opts ∨
               (Level d = MaxLevel opts + 1 ∧ isLeafMarker d)) (allNodes root).
Proof.
  intros HN. revert path name level.
  induction fs as [err|entries sub IH]; intros path name level Hlevel.
  { rewrite walkDir_err. simpl. rewrite filter_cons. simpl.
    rewrite decide_True by done. split; [done|].
    constructor; [by left|constructor]. }
  destruct (walkDir _ _ _ _ _) as [root log] eqn:Hwalk.
  assert (Hroot : root = (walkDir (ReadDirOk entries sub) path name level opts).1)
    by (by rewrite Hwalk).
  assert (Hlog : log = (walkDir (ReadDirOk entries sub) path name level opts).2)
    by (by rewrite Hwalk).
  clear Hwalk. rewrite walkDir_reads in Hlog.
  rewrite allNodes_unfold, filter_cons.
  assert (HL : Level root = level) by (subst root; apply walkDir_Level).
  assert (HP : Path root = path) by (subst root; apply walkDir_Path).
  rewrite decide_True by lia. rewrite map_cons, HP.
  assert (HS : Subdirs root =
    map (childNode (descendInto sub level opts) path level opts)
      (dirNames (sortEntries entries))) by (subst root; apply walkDir_Subdirs).
  rewrite HS, Hlog. clear Hroot Hlog HS.
  generalize (dirNames (sortEntries entries)) as names.
  induction names as [|n names [IHl IHf]]; simpl.
  { split; [done|]. constructor; [left; lia|constructor]. }
  injection IHl as IHl. inversion_clear IHf as [|? ? Hhd Htl].
  unfold childNode at 1 3, childReads at 1.
  destruct (atLimit opts level) eqn:Hat.
  - apply atLimit_iff in Hat as [_ Hat]. assert (level = MaxLevel opts) as -> by lia.
    simpl. rewrite filter_cons. simpl.
    rewrite decide_False by lia. split; [by rewrite IHl|].
    constructor; [done|]. constructor; [|done].
    right. split; [done|]. apply leafNode_isLeafMarker.
  - apply atLimit_false in Hat as [Hat|Hat]; [done|].
    specialize (IH n (filepath_Join path n) n (level + 1) ltac:(lia)).
    change (walkDir (sub n) (filepath_Join path n) n (level + 1) opts)
      with (descendInto sub level opts (filepath_Join path n) n) in IH.
    destruct (descendInto sub level opts _ n) as [child r].
    destruct IH as [-> IHc]. simpl.
    rewrite filter_app, map_app, IHl. split; [done|].
    constructor; [done|]. by apply Forall_app.
Qed.

(** Without a limit every node is read, parents first. *)
Lemma walkDir_reads_unlimited fs path name level opts :
  MaxLevel opts = 0 →
  let '(root, log) := walkDir fs path name level opts in
  log = map Path (allNodes root).
Proof.
  intros HN. revert path name level.
  induction fs as [err|entries sub IH]; intros path name level; [done|].
  destruct (walkDir _ _ _ _ _) as [root log] eqn:Hwalk.
  assert (Hroot : root = (walkDir (ReadDirOk entries sub) path name level opts).1)
    by (by rewrite Hwalk).
  assert (Hlog : log = (walkDir (ReadDirOk entries sub) path name level opts).2)
    by (by rewrite Hwalk).
  clear Hwalk. rewrite walkDir_reads in Hlog.
  rewrite allNodes_unfold, map_cons.
  assert (HP : Path root = path) by (subst root; apply walkDir_Path).
  assert (HS : Subdirs root =
    map (childNode (descendInto sub level opts) path level opts)
      (dirNames (sortEntries entries))) by (subst root; apply walkDir_Subdirs).
  rewrite HS, Hlog, HP. clear Hroot Hlog HS. f_equal.
  generalize (dirNames (sortEntries entries)) as names.
  induction names as [|n names IHn]; simpl; [done|].
  unfold childNode at 1, childReads at 1.
  assert (atLimit opts level = false) as -> by (apply atLimit_false; by left).
  specialize (IH n (filepath_Join path n) n (level + 1)).
  change (walkDir (sub n) (filepath_Join path n) n (level + 1) opts)
    with (descendInto sub level opts (filepath_Join path n) n) in IH.
  destruct (descendInto sub level opts _ n) as [child r].
  simpl. by rewrite map_app, IHn, IH.
Qed.

Lemma walkDir_children entries sub path name level opts :
  Subdirs (walkDir (ReadDirOk entries sub) path name level opts).1 =
  map (λ child,
         if atLimit opts level then leafNode (filepath_Join path child) child level
         else (walkDir (sub child) (filepath_Join path child) child (level + 1) opts).1)
    (dirNames (sortEntries entries)).
Proof. by rewrite walkDir_Subdirs. Qed.

(** ** Snapshots with ASCII extensions

    On a snapshot whose files have extensions of ASCII bytes the walk is
    the walk computed with the ASCII branch of [strings.ToLower]. *)

Lemma extOf_ascii name :
  isASCII (filepath_Ext name) = true → extOf name = @extOf asciiStrings name.
Proof. intros H. unfold extOf. by rewrite (ToLower_ascii _ H). Qed.

Lemma walkEntry_fold_ascii d1 d2 path level opts maxFiles entries st :
  Forall (λ name, isASCII (filepath_Ext name) = true) (fileNames entries) →
  (∀ name, name ∈ dirNames entries →
           d1 (filepath_Join path name) name = d2 (filepath_Join path name) name) →
  fold_left (walkEntry d1 path level opts maxFiles) entries st =
  fold_left (@walkEntry asciiStrings d2 path level opts maxFiles) entries st.
Proof.
  revert st. induction entries as [|e entries IH]; intros st Hf Hd; [done|].
  rewrite fileNames_cons in Hf. rewrite dirNames_cons in Hd.
  cbn [fold_left].
  assert (Hstep : walkEntry d1 path level opts maxFiles st e =
                  @walkEntry asciiStrings d2 path level opts maxFiles st e).
  { unfold walkEntry. destruct (DirEntry_IsDir e).
    - rewrite (Hd (DirEntry_Name e)); [done|left].
    - apply Forall_cons in Hf as [Hf _]. by rewrite (extOf_ascii _ Hf). }
  rewrite Hstep. apply IH.
  - destruct (DirEntry_IsDir e); [done|]. by apply Forall_cons in Hf as [_ Hf].
  - intros name Hname. apply Hd. destruct (DirEntry_IsDir e); [by right|done].
Qed.

Lemma walkDir_ascii fs :
  AsciiExtensions fs →
  ∀ path name level opts,
    walkDir fs path name level opts = @walkDir asciiStrings fs path name level opts.
Proof.
  induction 1 as [err|entries sub Hf _ IH]; intros path name level opts; [done|].
  rewrite walkDir_ok.
  change (@walkDir asciiStrings (ReadDirOk entries sub) path name level opts)
    with (let st :=
            fold_left
              (@walkEntry asciiStrings
                 (λ joined child,
                    @walkDir asciiStrings (sub child) joined child (level + 1) opts)
                 path level opts (fileCap opts))
              (sortEntries entries) (emptyLoop path) in
          (finishNode path name level st, reads st)).
  cbv zeta. rewrite (walkEntry_fold_ascii (descendInto sub level opts)
    (λ joined child, @walkDir asciiStrings (sub child) joined child (level + 1) opts)).
  - done.
  - rewrite (fileNames_perm _ _ (sortEntries_perm entries)). done.
  - intros child Hchild. unfold descendInto. apply IH.
    by rewrite <- (dirNames_perm _ _ (sortEntries_perm entries)).
Qed.

Lemma scenarioAB_ascii : AsciiExtensions scenarioAB.
Proof.
  constructor; [by vm_compute|].
  intros name Hin. simpl.
  repeat case_bool_decide;
    try (constructor; [by repeat constructor|]; intros ? []%not_elem_of_nil).
  constructor.
Qed.

(** C1, as the code has it.  With [MaxLevel = N > 0] the directories of
    depth [<= N] are read and expanded, and the subdirectories of depth
    [N + 1] are the markers, which are never read: the reads of a walk are
    exactly the nodes of depth [<= N].  A directory of depth [< N] walks
    each of its subdirectories, a directory of depth [N] records each as a
    marker.  On [root/{a/{x.txt}, b/{y.txt}}] with [MaxLevel = 1] both [a]
    and [b] are read and keep their file; [TotalDirs] of the root is [2].
    [MaxLevel = 0] reads every node. *)
Theorem C1_depth_limit (fs : ReadDir) (path name : string) (maxFiles N : Z)
    (HN : 0 < N) :
  let opts := mkOptions maxFiles N in
  (let '(root, log) := walkDir fs path name 0 opts in
   log = map Path (filter (λ d, Level d ≤ N) (allNodes root)) ∧
   Forall (λ d, Level d ≤ N ∨ (Level d = N + 1 ∧ isLeafMarker d))
     (allNodes root)) ∧
  (∀ entries sub path name level,
     Subdirs (walkDir (ReadDirOk entries sub) path name level opts).1 =
     map (λ child,
            if bool_decide (level < N)
            then (walkDir (sub child) (filepath_Join path child) child
                    (level + 1) opts).1
            else leafNode (filepath_Join path child) child level)
       (dirNames (sortEntries entries))) ∧
  (let '(root, log) := walkDir scenarioAB "root" "root" 0 (mkOptions 0 1) in
   Subdirs root =
     [oneFileNode "root/a" "a" "x.txt" "d:e64394207b378751";
      oneFileNode "root/b" "b" "y.txt" "d:e64394207b378751"] ∧
   TotalDirs root = 2 ∧ TotalFiles root = 2 ∧
   log = ["root"; "root/a"; "root/b"]) ∧
  (let '(root, log) := walkDir fs path name 0 (mkOptions maxFiles 0) in
   log = map Path (allNodes root)) ∧
  (∀ entries sub path name level,
     Subdirs (walkDir (ReadDirOk entries sub) path name level
                (mkOptions maxFiles 0)).1 =
     map (λ child,
            (walkDir (sub child) (filepath_Join path child) child (level + 1)
               (mkOptions maxFiles 0)).1)
       (dirNames (sortEntries entries))).
Proof.
  intros opts. split; [|split; [|split; [|split]]].
  - apply (walkDir_reads_limited fs path name 0 opts); simpl; lia.
  - intros entries sub p n level. rewrite walkDir_children.
    apply map_ext. intros child.
    destruct (atLimit opts level) eqn:Hat.
    + apply atLimit_iff in Hat. simpl in Hat.
      rewrite bool_decide_eq_false_2 by lia. done.
    + apply atLimit_false in Hat. simpl in Hat.
      rewrite bool_decide_eq_true_2 by lia. done.
  - rewrite (walkDir_ascii scenarioAB scenarioAB_ascii). by vm_compute.
  - by apply (walkDir_reads_unlimited fs path name 0 (mkOptions maxFiles 0)).
  - intros entries sub p n level. rewrite walkDir_children.
    apply map_ext. intros child.
    assert (atLimit (mkOptions maxFiles 0) level = false) as ->; [|done].
    apply atLimit_false. by left.
Qed.

(** ** Grouping *)

Lemma firstSeen_snoc keys k :
  firstSeen (keys ++ [k]) =
  if decide (k ∈ keys) then firstSeen keys else firstSeen keys ++ [k].
Proof.
  induction keys as [|a keys IH]; [simpl; by rewrite filter_nil|].
  change (firstSeen ((a :: keys) ++ [k]))
    with (a :: filter (λ k', k' ≠ a) (firstSeen (keys ++ [k]))).
  change (firstSeen (a :: keys))
    with (a :: filter (λ k', k' ≠ a) (firstSeen keys)).
  rewrite IH. destruct (decide (k = a)) as [->|Hne].
  - rewrite (decide_True (P := a ∈ a :: keys)) by left.
    destruct (decide (a ∈ keys)); [done|].
    rewrite filter_app, filter_cons, decide_False by (intros H; by apply H).
    rewrite filter_nil. by rewrite app_nil_r.
  - destruct (decide (k ∈ keys)) as [Hin|Hnin].
    + by rewrite decide_True by (by right).
    + rewrite decide_False by (rewrite elem_of_cons; naive_solver).
      rewrite filter_app, filter_cons, decide_True by done.
      by rewrite filter_nil.
Qed.

Lemma elem_of_firstSeen keys k : k ∈ firstSeen keys ↔ k ∈ keys.
Proof.
  induction keys as [|a keys IH]; simpl; [done|].
  rewrite !elem_of_cons, list_elem_of_filter, IH.
  destruct (decide (k = a)); naive_solver.
Qed.

Lemma NoDup_firstSeen keys : NoDup (firstSeen keys).
Proof.
  induction keys as [|a keys IH]; simpl; [constructor|].
  constructor; [|by apply NoDup_filter].
  rewrite list_elem_of_filter. naive_solver.
Qed.

Lemma nonNil_snoc dirs d :
  nonNil (dirs ++ [d]) = nonNil dirs ++ match d with Some x => [x] | None => [] end.
Proof. unfold nonNil. rewrite omap_app. by destruct d. Qed.

Lemma nonNil_Some dirs : nonNil (map Some dirs) = dirs.
Proof. induction dirs as [|d dirs IH]; simpl; [done|]. unfold nonNil in *. simpl. by rewrite IH. Qed.

(** What the first loop of [GroupIdentical] has built after the slice
    [dirs]. *)
Lemma groupStep_fold dirs :
  let st := fold_left groupStep dirs (∅, []) in
  let seen := nonNil dirs in
  st.2 = firstSeen (map groupKey seen) ∧
  ∀ k, (st.1 !! k = None ↔ k ∉ map groupKey seen) ∧
       default [] (st.1 !! k) = map Some (filter (λ d, groupKey d = k) seen).
Proof.
  induction dirs as [|d dirs IH] using rev_ind; simpl.
  { split; [done|]. intros k. rewrite lookup_empty. split; [|done].
    split; [intros _; apply not_elem_of_nil|done]. }
  rewrite fold_left_app. simpl.
  destruct (fold_left groupStep dirs (∅, [])) as [grouped order].
  simpl in IH. destruct IH as [IHo IHg].
  rewrite nonNil_snoc. destruct d as [d|]; simpl; [|by rewrite app_nil_r].
  rewrite map_app. simpl. split.
  - rewrite firstSeen_snoc. destruct (IHg (groupKey d)) as [Hnone _].
    destruct (grouped !! groupKey d) eqn:Hlk.
    + rewrite decide_True; [done|].
      destruct (decide (groupKey d ∈ map groupKey (nonNil dirs))); [done|].
      by apply Hnone in n.
    + rewrite decide_False; [by rewrite IHo|]. by apply Hnone.
  - intros k. destruct (IHg k) as [Hnone Hmem].
    destruct (decide (k = groupKey d)) as [->|Hne].
    + rewrite lookup_insert_eq. simpl. split.
      * split; [done|]. intros Hnin. exfalso. apply Hnin.
        apply elem_of_app. right. left.
      * rewrite Hmem, filter_app, filter_cons, decide_True by done.
        by rewrite map_app.
    + rewrite lookup_insert_ne by done. split.
      * rewrite Hnone, elem_of_app, list_elem_of_singleton. naive_solver.
      * rewrite Hmem, filter_app, filter_cons, decide_False by done.
        by rewrite filter_nil, app_nil_r.
Qed.

Lemma GroupIdentical_spec dirs :
  GroupIdentical dirs = groupsBy groupKey (nonNil dirs).
Proof.
  unfold GroupIdentical, groupsBy.
  pose proof (groupStep_fold dirs) as H. simpl in H.
  destruct (fold_left groupStep dirs (∅, [])) as [grouped order].
  simpl in H. destruct H as [-> Hg].
  apply map_ext. intros k. f_equal. apply Hg.
Qed.

(** Splitting a list by the values of a key and gluing the parts back
    together rearranges the list. *)
Lemma split_by_key_cons (key : Directory → string) d l ks :
  NoDup ks →
  concat (map (λ k, filter (λ x, key x = k) (d :: l)) ks) ≡ₚ
  (if decide (key d ∈ ks) then [d] else []) ++
  concat (map (λ k, filter (λ x, key x = k) l) ks).
Proof.
  induction ks as [|k ks IH]; intros Hnd; simpl; [done|].
  inversion_clear Hnd as [|? ? Hk Hnd'].
  rewrite filter_cons, (IH Hnd'). clear IH.
  destruct (decide (key d = k)) as [<-|Hne].
  - rewrite (decide_True (P := key d ∈ key d :: ks)) by left.
    by rewrite (decide_False (P := key d ∈ ks)) by done.
  - destruct (decide (key d ∈ ks)) as [Hin|Hnin].
    + rewrite (decide_True (P := key d ∈ k :: ks)) by (by right).
      simpl. by rewrite <- Permutation_middle.
    + rewrite (decide_False (P := key d ∈ k :: ks)); [done|].
      rewrite elem_of_cons. naive_solver.
Qed.

Lemma split_by_key_perm (key : Directory → string) l ks :
  NoDup ks → (∀ d, d ∈ l → key d ∈ ks) →
  concat (map (λ k, filter (λ x, key x = k) l) ks) ≡ₚ l.
Proof.
  intros Hnd. induction l as [|d l IH]; intros Hin.
  - clear. by induction ks as [|k ks IH].
  - rewrite split_by_key_cons by done.
    rewrite decide_True by (apply Hin; left). simpl.
    rewrite IH; [done|]. intros x Hx. apply Hin. by right.
Qed.

Lemma allMembers_groupsBy key dirs :
  allMembers (groupsBy key dirs) ≡ₚ map Some dirs.
Proof.
  unfold allMembers, groupsBy. rewrite map_map. simpl.
  rewrite <- (split_by_key_perm key dirs (firstSeen (map key dirs))) at 2.
  - generalize (firstSeen (map key dirs)) as ks.
    induction ks as [|k ks IH]; simpl; [done|].
    by rewrite map_app, IH.
  - apply NoDup_firstSeen.
  - intros d Hd. apply elem_of_firstSeen.
    apply list_elem_of_fmap. by exists d.
Qed.

Lemma filter_is_Some_nonNil dirs :
  filter (λ d : option Directory, is_Some d) dirs = map Some (nonNil dirs).
Proof.
  induction dirs as [|[d|] dirs IH]; simpl; [done| |].
  - rewrite filter_cons, decide_True by (by eexists).
    unfold nonNil in *. simpl. by rewrite IH.
  - rewrite filter_cons, decide_False by (by intros [? ?]).
    unfold nonNil in *. simpl. done.
Qed.

Lemma groupsBy_ext key1 key2 dirs :
  Forall (λ d, key1 d = key2 d) dirs → groupsBy key1 dirs = groupsBy key2 dirs.
Proof.
  intros H. unfold groupsBy.
  assert (map key1 dirs = map key2 dirs) as ->.
  { induction H as [|d l Hd _ IH]; simpl; [done|]. by rewrite Hd, IH. }
  apply map_ext. intros k. do 2 f_equal.
  induction H as [|d l Hd _ IH]; [done|].
  by rewrite !filter_cons, Hd, IH.
Qed.

(** Every signature the walker assigns starts with its kind: ["d:"] for a
    directory that was read, ["l:"] for a marker, ["err:"] for a failed
    read. *)
Lemma signatureForDirectory_kind m s :
  ∃ digest, signatureForDirectory m s = "d:" +:+ digest.
Proof. unfold signatureForDirectory, signatureForDirectoryRange. eauto. Qed.

Lemma signatureForLeaf_kind path :
  ∃ digest, signatureForLeaf path = "l:" +:+ digest.
Proof. unfold signatureForLeaf. eauto. Qed.

Lemma signatureForError_kind path err :
  ∃ rest, signatureForError path err = "err:" +:+ rest.
Proof. unfold signatureForError. eauto. Qed.

Lemma walkDir_Signature_set fs path name level opts :
  Forall (λ d, Signature d ≠ "") (allNodes (walkDir fs path name level opts).1).
Proof.
  by apply (walkDir_nodes_ind (λ _, True)).
Qed.

Lemma groupKey_set d : Signature d ≠ "" → groupKey d = Signature d.
Proof. intros H. unfold groupKey. by rewrite bool_decide_eq_false_2. Qed.

Lemma Subdirs_allNodes d : Subdirs d ⊆ allNodes d.
Proof.
  rewrite allNodes_unfold. intros c Hc. apply elem_of_cons. right.
  apply list_elem_of_In, in_flat_map. exists c.
  split; [by apply list_elem_of_In|].
  rewrite allNodes_unfold. by left.
Qed.

(** C6. [GroupIdentical] files each sibling under its key (its signature;
    the fallback only for an unset signature), emits one group per
    distinct key in order of first occurrence, and keeps the siblings of a
    group in their original order.  For the children of any node built by
    the walker the key is the signature.  Siblings [A, B, C, D] with
    signatures [s1, s2, s1, s1] give [{s1: [A, C, D]}, {s2: [B]}]. *)
Theorem C6_grouping_first_seen (dirs : list (option Directory)) :
  GroupIdentical dirs = groupsBy groupKey (nonNil dirs) ∧
  (∀ fs path name level opts,
     let siblings := Subdirs (walkDir fs path name level opts).1 in
     GroupIdentical (map Some siblings) = groupsBy Signature siblings) ∧
  (∀ nameA nameB nameC nameD,
     let A := bareNode nameA "s1" in
     let B := bareNode nameB "s2" in
     let C := bareNode nameC "s1" in
     let D := bareNode nameD "s1" in
     GroupIdentical [Some A; Some B; Some C; Some D] =
     [ {| DirGroup_Signature := "s1"; Members := [Some A; Some C; Some D] |};
       {| DirGroup_Signature := "s2"; Members := [Some B] |} ]).
Proof.
  split; [apply GroupIdentical_spec|]. split.
  - intros fs path name level opts siblings.
    rewrite GroupIdentical_spec, nonNil_Some. apply groupsBy_ext.
    apply Forall_forall. intros d Hd. apply groupKey_set.
    pose proof (walkDir_Signature_set fs path name level opts) as Hall.
    rewrite Forall_forall in Hall. apply Hall. by apply Subdirs_allNodes.
  - intros. by vm_compute.
Qed.

(** C10, as the code has it.  [GroupIdentical] skips nil entries: no group
    holds nil, the members of all groups together are a rearrangement of
    the non-nil entries (each exactly once), and each group lists the
    non-nil entries of its key in input order. *)
Theorem C10_nil_entries_skipped (dirs : list (option Directory)) :
  (allMembers (GroupIdentical dirs) ≡ₚ filter (λ d, is_Some d) dirs) ∧
  (None ∉ allMembers (GroupIdentical dirs)) ∧
  GroupIdentical dirs = GroupIdentical (filter (λ d, is_Some d) dirs) ∧
  Forall (λ g, Members g =
               filter (λ d, groupKey <$> d = Some (DirGroup_Signature g))
                 dirs)
    (GroupIdentical dirs).
Proof.
  assert (Hperm : allMembers (GroupIdentical dirs) ≡ₚ filter (λ d, is_Some d) dirs).
  { rewrite GroupIdentical_spec, filter_is_Some_nonNil. apply allMembers_groupsBy. }
  split; [done|]. split; [|split].
  - rewrite Hperm, list_elem_of_filter. by intros [[? ?] _].
  - rewrite !GroupIdentical_spec, filter_is_Some_nonNil. by rewrite nonNil_Some.
  - rewrite GroupIdentical_spec. unfold groupsBy.
    apply Forall_forall. intros g Hg.
    apply list_elem_of_fmap in Hg as [k [-> _]]. simpl.
    clear. induction dirs as [|[d|] dirs IH]; [done| |].
    + unfold nonNil in *. simpl. rewrite !filter_cons. simpl.
      destruct (decide (groupKey d = k)) as [->|Hne].
      * rewrite decide_True by done. simpl. f_equal. apply IH.
      * rewrite decide_False by congruence. apply IH.
    + unfold nonNil in *. simpl. rewrite filter_cons. simpl. apply IH.
Qed.

(** ** Errors *)

Lemma kinds_differ_d_err x y : "d:" +:+ x ≠ "err:" +:+ y.
Proof. discriminate. Qed.

Lemma signature_ok_not_error entries sub path name level opts path' err :
  Signature (walkDir (ReadDirOk entries sub) path name level opts).1 ≠
  signatureForError path' err.
Proof.
  rewrite walkDir_Signature.
  destruct (signatureForDirectory_kind
              (histogram (fileNames (sortEntries entries)))
              (Subdirs (walkDir (ReadDirOk entries sub) path name level opts).1))
    as [x ->].
  destruct (signatureForError_kind path' err) as [y ->].
  apply kinds_differ_d_err.
Qed.

(** Members of one group share the key of the group. *)
Lemma GroupIdentical_same_key dirs g d :
  g ∈ GroupIdentical dirs → Some d ∈ Members g → groupKey d = DirGroup_Signature g.
Proof.
  rewrite GroupIdentical_spec. unfold groupsBy.
  intros [k [-> _]]%list_elem_of_fmap. simpl.
  intros [x [[= <-] Hx]]%list_elem_of_fmap.
  by apply list_elem_of_filter in Hx as [? _].
Qed.

(** C7. [Walk] returns an error, and no tree, exactly when [os.Stat]
    fails on the root, the root is not a directory, or the root cannot be
    read.  A failed read below the root yields a node that carries the
    error, the signature ["err:<path>:<type of the error>"] derived from
    it (which no directory that was read has), no children, no files and
    zero counts; the parent has no error and holds a node for every
    subdirectory entry: making one subdirectory unreadable replaces its
    node by the error node and leaves the nodes of its siblings as they
    are. *)
Theorem C7_root_fatal_subdir_local (fs : FileSystem) (path : string)
    (opts : Options) :
  ((∃ err, Walk fs path opts = inl err) ↔
     (∃ err, os_Stat fs = StatErr err) ∨
     (∃ name, os_Stat fs = StatInfo name false) ∨
     (∃ name err, os_Stat fs = StatInfo name true ∧
                  os_ReadDir fs = ReadDirErr err)) ∧
  (∀ name entries sub,
     Walk (mkFileSystem (StatInfo name true) (ReadDirOk entries sub)) path opts =
     inr (walkDir (ReadDirOk entries sub) (filepath_Clean path) name 0 opts).1) ∧
  (∀ err dir name level,
     let node := (walkDir (ReadDirErr err) dir name level opts).1 in
     Err node = Some err ∧
     Signature node = "err:" +:+ dir +:+ ":" +:+ errType err ∧
     (∀ entries sub dir' name' level' opts',
        Signature (walkDir (ReadDirOk entries sub) dir' name' level' opts').1 ≠
        Signature node) ∧
     Subdirs node = [] ∧ Files node = [] ∧ HiddenFiles node = 0 ∧
     ImmediateDirCount node = 0 ∧ ImmediateFileCount node = 0 ∧
     TotalDirs node = 0 ∧ TotalFiles node = 0) ∧
  (∀ entries sub dir name level failing err,
     let sub' := λ child, if bool_decide (child = failing) then ReadDirErr err
                          else sub child in
     let node := (walkDir (ReadDirOk entries sub') dir name level opts).1 in
     Err node = None ∧
     Subdirs node =
       map (λ child,
              if atLimit opts level
              then leafNode (filepath_Join dir child) child level
              else if bool_decide (child = failing)
              then errorNode (filepath_Join dir child) child (level + 1) err
              else (walkDir (sub child) (filepath_Join dir child) child
                      (level + 1) opts).1)
         (dirNames (sortEntries entries))).
Proof.
  split; [|split; [|split]].
  - unfold Walk. destruct fs as [[err|name isDir] rd]; cbn [os_Stat os_ReadDir].
    + split; [intros _; left; eauto|eauto].
    + destruct isDir; cbn [negb].
      * destruct rd as [err|entries sub].
        -- rewrite walkDir_err. simpl. split; [intros _|eauto].
           right. right. eauto.
        -- rewrite walkDir_Err. split; [by intros [? ?]|].
           intros [[? ?]|[[? ?]|[? [? [_ ?]]]]]; done.
      * split; [intros _|eauto]. right. left. eauto.
  - intros name entries sub. unfold Walk. cbn [os_Stat os_ReadDir negb].
    by rewrite walkDir_Err.
  - intros err dir name level node. subst node. rewrite walkDir_err. cbn [fst].
    split; [done|]. split; [done|].
    split; [intros; apply signature_ok_not_error|done].
  - intros entries sub dir name level failing err sub' node.
    split; [apply walkDir_Err|].
    subst node. rewrite walkDir_children. apply map_ext. intros child.
    destruct (atLimit opts level); [done|].
    subst sub'. simpl. by destruct (bool_decide (child = failing)).
Qed.

(** C8. A subdirectory whose read fails with a permission error yields a
    node recognised by [IsPermissionError], with zero counts and the
    signature ["err:<path>:<type of the error>"].  No directory that was
    read, empty or not, has that signature, and [GroupIdentical] never
    puts the two into one group. *)
Theorem C8_permission_error_node (err : GoError) (path name : string)
    (level : Z) (opts : Options) (Hperm : errKind err = KindPermission) :
  let node := (walkDir (ReadDirErr err) path name level opts).1 in
  IsPermissionError (Some node) = true ∧
  Err node = Some err ∧
  Subdirs node = [] ∧ Files node = [] ∧ HiddenFiles node = 0 ∧
  ImmediateDirCount node = 0 ∧ ImmediateFileCount node = 0 ∧
  TotalDirs node = 0 ∧ TotalFiles node = 0 ∧
  Signature node = "err:" +:+ path +:+ ":" +:+ errType err ∧
  (∀ entries sub path' name' level' opts',
     Signature (walkDir (ReadDirOk entries sub) path' name' level' opts').1 ≠
     Signature node) ∧
  (∀ path' name' level' opts',
     Signature (walkDir (ReadDirOk [] noSub) path' name' level' opts').1 ≠
     Signature node) ∧
  (∀ entries sub path' name' level' opts' dirs g,
     g ∈ GroupIdentical dirs → Some node ∈ Members g →
     Some (walkDir (ReadDirOk entries sub) path' name' level' opts').1 ∉ Members g).
Proof.
  intros node. subst node. rewrite walkDir_err. cbn [fst].
  split; [simpl; unfold errors_Is_ErrPermission; by rewrite Hperm|].
  do 9 (split; [done|]).
  split; [intros; apply signature_ok_not_error|].
  split; [intros; apply signature_ok_not_error|].
  intros entries sub path' name' level' opts' dirs g Hg Herr Hok.
  pose proof (GroupIdentical_same_key _ _ _ Hg Herr) as Hk1.
  pose proof (GroupIdentical_same_key _ _ _ Hg Hok) as Hk2.
  rewrite groupKey_set in Hk1 by done.
  rewrite groupKey_set in Hk2.
  - cbn [errorNode Signature] in Hk1. rewrite <- Hk1 in Hk2.
    by apply signature_ok_not_error in Hk2.
  - pose proof (walkDir_Signature_set (ReadDirOk entries sub) path' name' level' opts') as H.
    rewrite allNodes_unfold in H. by inversion H.
Qed.

Lemma scenarioAB_fits : ListingsFit scenarioAB.
Proof.
  constructor; [by vm_compute|].
  intros name Hin. simpl.
  repeat case_bool_decide; try (constructor; [by vm_compute|]; intros ? []%not_elem_of_nil).
  constructor.
Qed.

(** ** Order of the entries *)

Lemma sort_Strings_perm l1 l2 : l1 ≡ₚ l2 → sort_Strings l1 = sort_Strings l2.
Proof.
  intros H. unfold sort_Strings.
  apply (Sorted_unique String.le); [apply (Sorted_merge_sort String.le)..|].
  by rewrite !merge_sort_Permutation.
Qed.

#[local] Instance byName_trans : Transitive byName.
Proof. intros a b c. unfold byName. apply transitivity. Qed.

#[local] Instance byName_total : Total byName.
Proof. intros a b. unfold byName. apply total, _. Qed.

Lemma NoDup_names_inj (entries : list DirEntry) a b :
  NoDup (map DirEntry_Name entries) → a ∈ entries → b ∈ entries →
  DirEntry_Name a = DirEntry_Name b → a = b.
Proof.
  induction entries as [|e entries IH]; simpl; intros Hnd Ha Hb Hab.
  { by apply not_elem_of_nil in Ha. }
  inversion_clear Hnd as [|? ? Hnot Hnd'].
  apply elem_of_cons in Ha as [->|Ha]; apply elem_of_cons in Hb as [->|Hb];
    [done| | |by apply IH].
  - exfalso. apply Hnot. rewrite Hab. apply list_elem_of_fmap. by exists b.
  - exfalso. apply Hnot. rewrite <- Hab. apply list_elem_of_fmap. by exists a.
Qed.

Lemma sortEntries_unique entries1 entries2 :
  NoDup (map DirEntry_Name entries1) → entries1 ≡ₚ entries2 →
  sortEntries entries1 = sortEntries entries2.
Proof.
  intros Hnd Hperm. unfold sortEntries.
  apply (Sorted_unique_strong byName); [|apply (Sorted_merge_sort byName)..|].
  - intros a b Ha Hb Hab Hba.
    rewrite merge_sort_Permutation in Ha. rewrite merge_sort_Permutation, <- Hperm in Hb.
    apply (NoDup_names_inj entries1); [done..|].
    unfold byName in *. by apply (anti_symm String.le).
  - by rewrite !merge_sort_Permutation.
Qed.

Lemma walkEntry_fold_ext d1 d2 path level opts maxFiles entries st :
  (∀ name, name ∈ dirNames entries →
           d1 (filepath_Join path name) name = d2 (filepath_Join path name) name) →
  fold_left (walkEntry d1 path level opts maxFiles) entries st =
  fold_left (walkEntry d2 path level opts maxFiles) entries st.
Proof.
  revert st. induction entries as [|e entries IH]; intros st Hd; [done|].
  rewrite dirNames_cons in Hd. simpl. rewrite <- IH.
  - f_equal. unfold walkEntry. destruct (DirEntry_IsDir e); [|done].
    rewrite (Hd (DirEntry_Name e)); [done|left].
  - intros name Hname. apply Hd. destruct (DirEntry_IsDir e); [by right|done].
Qed.

Lemma SameUpToOrder_refl fs : SameUpToOrder fs fs.
Proof. induction fs; constructor; auto. Qed.

Lemma walkDir_same_up_to_order fs1 fs2 :
  DistinctNames fs1 → SameUpToOrder fs1 fs2 →
  ∀ path name level opts,
    walkDir fs1 path name level opts = walkDir fs2 path name level opts.
Proof.
  intros Hnd Hsame. induction Hsame as [err|entries1 entries2 sub1 sub2 Hperm _ IH];
    intros path name level opts; [done|].
  inversion_clear Hnd as [|? ? Hnames Hsub].
  rewrite !walkDir_ok. cbv zeta.
  rewrite <- (sortEntries_unique entries1 entries2) by done.
  rewrite (walkEntry_fold_ext (descendInto sub1 level opts) (descendInto sub2 level opts));
    [done|].
  intros child Hchild.
  rewrite (dirNames_perm _ _ (sortEntries_perm entries1)) in Hchild.
  unfold descendInto. apply IH; [done|]. by apply Hsub.
Qed.

(** C9. The signature of a directory does not depend on the order in
    which the keys of the histogram are visited nor on the order of the
    subdirectories: both are sorted before they are hashed.  Two snapshots
    that differ only in the order in which directories list their entries
    give the same tree, the same signatures and the same reads. *)
Theorem C9_entry_order_irrelevant (fs1 fs2 : ReadDir)
    (Hnames : DistinctNames fs1) (Hsame : SameUpToOrder fs1 fs2) :
  (∀ path name level opts,
     walkDir fs1 path name level opts = walkDir fs2 path name level opts) ∧
  (∀ fileExtCounts rangeOrder subdirs subdirs',
     rangeOrder ≡ₚ map fst (map_to_list fileExtCounts) →
     subdirs' ≡ₚ subdirs →
     signatureForDirectoryRange rangeOrder fileExtCounts subdirs' =
     signatureForDirectory fileExtCounts subdirs) ∧
  (∀ l1 l2, l1 ≡ₚ l2 → sort_Strings l1 = sort_Strings l2).
Proof.
  split; [by apply walkDir_same_up_to_order|]. split; [|apply sort_Strings_perm].
  intros m order subs subs' Horder Hsubs.
  unfold signatureForDirectory, signatureForDirectoryRange.
  rewrite (sort_Strings_perm _ _ Horder).
  by rewrite (sort_Strings_perm (map Signature subs') (map Signature subs))
    by (by rewrite Hsubs).
Qed.

Lemma scenarioAB_distinct : DistinctNames scenarioAB.
Proof.
  constructor; [refine (bool_decide_unpack _ _); by vm_compute|].
  intros name Hin. simpl.
  repeat case_bool_decide;
    try (constructor; [refine (bool_decide_unpack _ _); by vm_compute|];
         intros ? []%not_elem_of_nil).
  constructor.
Qed.

Lemma scenarioAB_BA : SameUpToOrder scenarioAB scenarioBA.
Proof.
  constructor; [apply perm_swap|]. intros. apply SameUpToOrder_refl.
Qed.

(** ** The digest behind a signature *)

Lemma hasher_Write_app h a b :
  hasher_Write h (a ++ b) = hasher_Write (hasher_Write h a) b.
Proof. apply fold_left_app. Qed.

Lemma fold_left_cons {A B} (f : A → B → A) x l a :
  fold_left f (x :: l) a = fold_left f l (f a x).
Proof. reflexivity. Qed.

Lemma flat_map_cons {A B} (f : A → list B) x l :
  flat_map f (x :: l) = f x ++ flat_map f l.
Proof. reflexivity. Qed.

Lemma writeExt_encode m h ext :
  writeExt m h ext = hasher_Write h (encodeExt m ext).
Proof.
  unfold writeExt, encodeExt.
  by rewrite (hasher_Write_app h), (hasher_Write_app _ [0]).
Qed.

Lemma writeSig_encode h sig : writeSig h sig = hasher_Write h (encodeSig sig).
Proof. unfold writeSig, encodeSig. by rewrite hasher_Write_app. Qed.

Lemma fold_writeExt m exts h :
  fold_left (writeExt m) exts h = hasher_Write h (flat_map (encodeExt m) exts).
Proof.
  revert h. induction exts as [|ext exts IH]; intros h; [reflexivity|].
  rewrite fold_left_cons, flat_map_cons, IH, hasher_Write_app.
  by rewrite writeExt_encode.
Qed.

Lemma fold_writeSig sigs h :
  fold_left writeSig sigs h = hasher_Write h (flat_map encodeSig sigs).
Proof.
  revert h. induction sigs as [|sig sigs IH]; intros h; [reflexivity|].
  rewrite fold_left_cons, flat_map_cons, IH, hasher_Write_app.
  by rewrite writeSig_encode.
Qed.

Lemma signatureForDirectory_digest m subs :
  signatureForDirectory m subs =
  "d:" +:+ fmt_x (digest (encodeDirectory m (map Signature subs))).
Proof.
  unfold signatureForDirectory, signatureForDirectoryRange, digest, encodeDirectory.
  rewrite fold_writeExt, fold_writeSig.
  by rewrite !hasher_Write_app.
Qed.

Lemma fnv_step_range h b : 0 ≤ fnv_step h b < 2 ^ 64.
Proof. unfold fnv_step. apply Z.mod_pos_bound. lia. Qed.

Lemma hasher_Write_range h bytes :
  0 ≤ h < 2 ^ 64 → 0 ≤ hasher_Write h bytes < 2 ^ 64.
Proof.
  revert h. induction bytes as [|b bytes IH]; intros h Hh; [done|].
  apply IH, fnv_step_range.
Qed.

Lemma digest_range bytes : 0 ≤ digest bytes < 2 ^ 64.
Proof.
  apply hasher_Write_range. unfold fnv_New64a, offset64. lia.
Qed.

(** [%x] can be read back, so it is injective on [uint64]. *)
Lemma hexDigit_value d : 0 ≤ d < 16 → hexValue (hexDigit d) = d.
Proof.
  intros Hd.
  assert (d = 0 ∨ d = 1 ∨ d = 2 ∨ d = 3 ∨ d = 4 ∨ d = 5 ∨ d = 6 ∨ d = 7 ∨
          d = 8 ∨ d = 9 ∨ d = 10 ∨ d = 11 ∨ d = 12 ∨ d = 13 ∨ d = 14 ∨ d = 15)
    as Hcases by lia.
  repeat destruct Hcases as [->|Hcases]; try subst d; by vm_compute.
Qed.

Lemma parseHex_hexDigits fuel v acc :
  0 ≤ v < 16 ^ Z.of_nat (S fuel) →
  parseHex (hexDigits (S fuel) v acc) 0 = parseHex acc v.
Proof.
  revert v acc. induction fuel as [|fuel IH]; intros v acc Hv.
  - cbn [hexDigits]. assert (v / 16 = 0) as Hq.
    { apply Z.div_small. change (16 ^ Z.of_nat 1) with 16 in Hv. lia. }
    rewrite Hq. cbn [Z.eqb parseHex].
    rewrite hexDigit_value by (apply Z.mod_pos_bound; lia).
    f_equal. rewrite (Z.div_mod v 16) at 2 by lia. lia.
  - change (hexDigits (S (S fuel)) v acc) with
      (let acc' := String (hexDigit (v mod 16)) acc in
       if v / 16 =? 0 then acc' else hexDigits (S fuel) (v / 16) acc').
    cbv zeta. destruct (Z.eqb_spec (v / 16) 0) as [Hq|Hq].
    + cbn [parseHex]. rewrite hexDigit_value by (apply Z.mod_pos_bound; lia).
      f_equal. rewrite (Z.div_mod v 16) at 2 by lia. lia.
    + rewrite IH.
      * cbn [parseHex]. rewrite hexDigit_value by (apply Z.mod_pos_bound; lia).
        f_equal. rewrite (Z.div_mod v 16) at 3 by lia. lia.
      * split; [apply Z.div_pos; lia|].
        apply Z.div_lt_upper_bound; [lia|].
        replace (16 ^ Z.of_nat (S (S fuel))) with (16 * 16 ^ Z.of_nat (S fuel)) in Hv; [lia|].
        rewrite (Nat2Z.inj_succ (S fuel)), Z.pow_succ_r by lia. done.
Qed.

Lemma parseHex_fmt_x v : 0 ≤ v < 2 ^ 64 → parseHex (fmt_x v) 0 = v.
Proof.
  intros Hv. unfold fmt_x. rewrite parseHex_hexDigits; [done|].
  change (16 ^ Z.of_nat 16) with (2 ^ 64). done.
Qed.

Lemma fmt_x_inj v1 v2 :
  0 ≤ v1 < 2 ^ 64 → 0 ≤ v2 < 2 ^ 64 → fmt_x v1 = fmt_x v2 → v1 = v2.
Proof.
  intros H1 H2 Heq.
  rewrite <- (parseHex_fmt_x v1), <- (parseHex_fmt_x v2) by done.
  by rewrite Heq.
Qed.

Lemma signature_eq_iff_digest m1 subs1 m2 subs2 :
  signatureForDirectory m1 subs1 = signatureForDirectory m2 subs2 ↔
  digest (encodeDirectory m1 (map Signature subs1)) =
  digest (encodeDirectory m2 (map Signature subs2)).
Proof.
  rewrite !signatureForDirectory_digest. split.
  - intros [= H]. by apply fmt_x_inj in H; [|apply digest_range..].
  - by intros ->.
Qed.

(** ** The byte stream determines the histogram and the child signatures *)

Lemma byteOf_inj c1 c2 : byteOf c1 = byteOf c2 → c1 = c2.
Proof.
  unfold byteOf. intros H%N2Z.inj.
  by rewrite <- (ascii_N_embedding c1), <- (ascii_N_embedding c2), H.
Qed.

Lemma bytesOf_inj s1 s2 : bytesOf s1 = bytesOf s2 → s1 = s2.
Proof.
  unfold bytesOf. intros H.
  rewrite <- (String.string_of_list_ascii_of_string s1).
  rewrite <- (String.string_of_list_ascii_of_string s2). f_equal.
  revert H. generalize (String.list_ascii_of_string s2) as l2.
  induction (String.list_ascii_of_string s1) as [|c1 l1 IH]; intros [|c2 l2];
    simpl; try done.
  intros [= Hc Hl]. f_equal; [by apply byteOf_inj|by apply IH].
Qed.

(** Fields that end in a [0] byte and contain none can be split off in
    one way only. *)
Lemma delimited_inj (a b r1 r2 : list Z) :
  0 ∉ a → 0 ∉ b → a ++ 0 :: r1 = b ++ 0 :: r2 → a = b ∧ r1 = r2.
Proof.
  revert b. induction a as [|x a IH]; intros [|y b] Ha Hb; simpl.
  - by intros [= ->].
  - intros [= <- _]. exfalso. apply Hb. left.
  - intros [= -> _]. exfalso. apply Ha. left.
  - intros [= -> H]. apply IH in H as [-> ->]; [done|..].
    + intros ?. apply Ha. by right.
    + intros ?. apply Hb. by right.
Qed.

Lemma intToBytes_length v : length (intToBytes v) = 8%nat.
Proof. unfold intToBytes. by rewrite length_map. Qed.

Lemma fromBytes_intToBytes v : fromBytes (intToBytes v) = v mod 2 ^ 64.
Proof.
  unfold intToBytes. generalize (Z.mod_pos_bound v (2 ^ 64) ltac:(lia)).
  generalize (v mod 2 ^ 64) as u. intros u Hu.
  assert (Hland : ∀ x, Z.land x 255 = x mod 256).
  { intros x. apply (Z.land_ones x 8). lia. }
  cbn [map fromBytes foldr]. rewrite !Hland, !Z.shiftr_div_pow2 by lia.
  change (8 * 0) with 0. change (8 * 1) with 8. change (8 * 2) with 16.
  change (8 * 3) with 24. change (8 * 4) with 32. change (8 * 5) with 40.
  change (8 * 6) with 48. change (8 * 7) with 56.
  change (2 ^ 0) with 1. change (2 ^ 8) with 256.
  change (2 ^ 16) with (256 * 256).
  change (2 ^ 24) with (256 * 256 * 256).
  change (2 ^ 32) with (256 * 256 * 256 * 256).
  change (2 ^ 40) with (256 * 256 * 256 * 256 * 256).
  change (2 ^ 48) with (256 * 256 * 256 * 256 * 256 * 256).
  change (2 ^ 56) with (256 * 256 * 256 * 256 * 256 * 256 * 256).
  change (2 ^ 64) with (256 * 256 * 256 * 256 * 256 * 256 * 256 * 256) in Hu.
  rewrite <- !Z.div_div by lia. rewrite Z.div_1_r.
  set (q1 := u / 256). set (q2 := q1 / 256). set (q3 := q2 / 256).
  set (q4 := q3 / 256). set (q5 := q4 / 256). set (q6 := q5 / 256).
  set (q7 := q6 / 256).
  pose proof (Z.div_mod u 256 ltac:(lia)) as E0.
  pose proof (Z.div_mod q1 256 ltac:(lia)) as E1.
  pose proof (Z.div_mod q2 256 ltac:(lia)) as E2.
  pose proof (Z.div_mod q3 256 ltac:(lia)) as E3.
  pose proof (Z.div_mod q4 256 ltac:(lia)) as E4.
  pose proof (Z.div_mod q5 256 ltac:(lia)) as E5.
  pose proof (Z.div_mod q6 256 ltac:(lia)) as E6.
  pose proof (Z.div_mod q7 256 ltac:(lia)) as E7.
  assert (q7 / 256 = 0) as E8.
  { subst q7 q6 q5 q4 q3 q2 q1. rewrite !Z.div_div by lia.
    apply Z.div_small. lia. }
  fold q1 in E0. fold q2 in E1. fold q3 in E2. fold q4 in E3.
  fold q5 in E4. fold q6 in E5. fold q7 in E6. rewrite E8 in E7.
  lia.
Qed.

Lemma intToBytes_inj c1 c2 r1 r2 :
  0 ≤ c1 < 2 ^ 64 → 0 ≤ c2 < 2 ^ 64 →
  intToBytes c1 ++ r1 = intToBytes c2 ++ r2 → c1 = c2 ∧ r1 = r2.
Proof.
  intros H1 H2 H.
  apply app_inj_1 in H as [H ->]; [|by rewrite !intToBytes_length].
  split; [|done].
  apply (f_equal fromBytes) in H. rewrite !fromBytes_intToBytes in H.
  by rewrite !Z.mod_small in H.
Qed.

Lemma encodeSigs_cons sig sigs :
  flat_map encodeSig (sig :: sigs) = bytesOf sig ++ 0 :: flat_map encodeSig sigs.
Proof. rewrite flat_map_cons. unfold encodeSig. by rewrite <- app_assoc. Qed.

Lemma encodeExts_cons m ext exts :
  flat_map (encodeExt m) (ext :: exts) =
  bytesOf ext ++ 0 :: (intToBytes (default 0 (m !! ext)) ++ flat_map (encodeExt m) exts).
Proof. rewrite flat_map_cons. unfold encodeExt. by rewrite <- !app_assoc. Qed.

Lemma encodeSigs_inj sigs1 sigs2 :
  Forall nulFree sigs1 → Forall nulFree sigs2 →
  flat_map encodeSig sigs1 = flat_map encodeSig sigs2 → sigs1 = sigs2.
Proof.
  intros H1. revert sigs2.
  induction H1 as [|s1 sigs1 Hs1 _ IH]; intros sigs2 H2; destruct H2 as [|s2 sigs2 Hs2 H2].
  - done.
  - rewrite encodeSigs_cons. change (flat_map encodeSig []) with (@nil Z).
    intros H. by apply app_cons_not_nil in H.
  - rewrite encodeSigs_cons. change (flat_map encodeSig []) with (@nil Z).
    intros H. symmetry in H. by apply app_cons_not_nil in H.
  - rewrite !encodeSigs_cons.
    intros [Hs Hrest]%delimited_inj; [|done..].
    apply bytesOf_inj in Hs as ->. f_equal. by apply IH.
Qed.

Lemma encodeExts_inj m1 m2 exts1 exts2 tail1 tail2 :
  Forall extToken exts1 → Forall extToken exts2 →
  (∀ ext, 0 ≤ default 0 (m1 !! ext) < 2 ^ 64) →
  (∀ ext, 0 ≤ default 0 (m2 !! ext) < 2 ^ 64) →
  flat_map (encodeExt m1) exts1 ++ bytesOf "dirs:" ++ tail1 =
  flat_map (encodeExt m2) exts2 ++ bytesOf "dirs:" ++ tail2 →
  exts1 = exts2 ∧
  Forall (λ ext, default 0 (m1 !! ext) = default 0 (m2 !! ext)) exts1 ∧
  tail1 = tail2.
Proof.
  intros H1 H2 Hm1 Hm2. revert exts2 H2.
  induction H1 as [|x exts1 Hx _ IH]; intros exts2 H2;
    destruct H2 as [|y exts2 Hy H2].
  - change (flat_map (encodeExt m1) []) with (@nil Z).
    change (flat_map (encodeExt m2) []) with (@nil Z).
    rewrite !app_nil_l. by intros H%app_inv_head.
  - rewrite encodeExts_cons. change (flat_map (encodeExt m1) []) with (@nil Z).
    change (bytesOf "dirs:") with [100; 105; 114; 115; 58].
    destruct Hy as [_ (c & rest & -> & Hc)]. by intros [= <-].
  - rewrite encodeExts_cons. change (flat_map (encodeExt m2) []) with (@nil Z).
    change (bytesOf "dirs:") with [100; 105; 114; 115; 58].
    destruct Hx as [_ (c & rest & -> & Hc)]. by intros [= ->].
  - rewrite !encodeExts_cons, <- !app_assoc, <- !app_comm_cons.
    intros [Hs Hrest]%delimited_inj; [|apply Hx|apply Hy].
    apply bytesOf_inj in Hs as ->. rewrite <- !app_assoc in Hrest.
    apply intToBytes_inj in Hrest as [Hc Hrest]; [|done..].
    apply IH in Hrest as (-> & Hall & ->); [|done].
    split; [done|]. split; [by constructor|done].
Qed.

(** ** The histogram *)

Lemma bumpExt_lookup m e k :
  bumpExt m e !! k =
  if decide (e = k) then Some (default 0 (m !! k) + 1) else m !! k.
Proof.
  unfold bumpExt. destruct (decide (e = k)) as [->|Hne].
  - by rewrite lookup_insert_eq.
  - by rewrite lookup_insert_ne.
Qed.

Lemma fold_bumpExt_count names m k :
  default 0 (fold_left bumpExt (map extOf names) m !! k) =
  default 0 (m !! k) + countExt names k.
Proof.
  unfold countExt. revert m. induction names as [|n names IH]; intros m.
  { simpl. lia. }
  rewrite map_cons, fold_left_cons, IH, bumpExt_lookup, filter_cons.
  destruct (decide (extOf n = k)); simpl; lia.
Qed.

Lemma fold_bumpExt_None names m k :
  fold_left bumpExt (map extOf names) m !! k = None ↔
  m !! k = None ∧ k ∉ map extOf names.
Proof.
  revert m. induction names as [|n names IH]; intros m.
  { simpl. split; [|by intros [? _]]. intros H. split; [done|]. apply not_elem_of_nil. }
  rewrite map_cons, fold_left_cons, IH, bumpExt_lookup, not_elem_of_cons.
  destruct (decide (extOf n = k)); naive_solver.
Qed.

Lemma histogram_count names ext :
  default 0 (histogram names !! ext) = countExt names ext.
Proof.
  unfold histogram. rewrite fold_bumpExt_count, lookup_empty. simpl. lia.
Qed.

Lemma histogram_None names ext :
  histogram names !! ext = None ↔ ext ∉ map extOf names.
Proof.
  unfold histogram. rewrite fold_bumpExt_None, lookup_empty. naive_solver.
Qed.

Lemma countExt_bound names ext :
  0 ≤ countExt names ext ≤ Z.of_nat (length names).
Proof.
  unfold countExt.
  pose proof (length_filter (λ name, extOf name = ext) names). lia.
Qed.

Lemma countExt_perm names1 names2 ext :
  names1 ≡ₚ names2 → countExt names1 ext = countExt names2 ext.
Proof. intros H. unfold countExt. by rewrite H. Qed.

Lemma option_eq_default (o1 o2 : option Z) :
  (o1 = None ↔ o2 = None) → default 0 o1 = default 0 o2 → o1 = o2.
Proof. destruct o1, o2; simpl; naive_solver. Qed.

Lemma histogram_perm names1 names2 :
  names1 ≡ₚ names2 → histogram names1 = histogram names2.
Proof.
  intros H. apply map_eq. intros k. apply option_eq_default.
  - rewrite !histogram_None. by rewrite H.
  - rewrite !histogram_count. by apply countExt_perm.
Qed.

Lemma elem_of_keys (m : gmap string Z) k :
  k ∈ map fst (map_to_list m) ↔ is_Some (m !! k).
Proof.
  split.
  - intros [[k' v] [-> Hin]]%list_elem_of_fmap.
    apply elem_of_map_to_list in Hin. by exists v.
  - intros [v Hv]. apply list_elem_of_fmap. exists (k, v).
    split; [done|]. by apply elem_of_map_to_list.
Qed.

Lemma histogram_keys names k :
  k ∈ map fst (map_to_list (histogram names)) ↔ k ∈ map extOf names.
Proof.
  rewrite elem_of_keys, <- not_eq_None_Some, histogram_None.
  destruct (decide (k ∈ map extOf names)); naive_solver.
Qed.

(** ** Extension tokens *)

Lemma bytesOf_of_list l :
  bytesOf (String.string_of_list_ascii l) = map byteOf l.
Proof. unfold bytesOf. by rewrite String.list_ascii_of_string_of_list_ascii. Qed.

Lemma ext_scan_shape before suffix :
  ext_scan before suffix = [] ∨
  ∃ t, ext_scan before suffix = "."%char :: t ∧
       ∀ c, c ∈ t → c ∈ before ∨ c ∈ suffix.
Proof.
  revert suffix. induction before as [|c before IH]; intros suffix; simpl; [by left|].
  destruct (isPathSeparator c); [by left|].
  case_bool_decide as Hdot.
  - subst c. right. exists suffix. split; [done|]. by right.
  - destruct (IH (c :: suffix)) as [->|(t & -> & Ht)]; [by left|].
    right. exists t. split; [done|].
    intros x Hx. destruct (Ht x Hx) as [?|[->|?]%elem_of_cons].
    + left. by right.
    + left. left.
    + by right.
Qed.

Lemma filepath_Ext_shape name :
  filepath_Ext name = "" ∨
  ∃ t, filepath_Ext name = String "." t ∧
       ∀ b, b ∈ bytesOf t → b ∈ bytesOf name.
Proof.
  unfold filepath_Ext.
  destruct (ext_scan_shape (rev (String.list_ascii_of_string name)) [])
    as [->|(t & -> & Ht)]; [by left|].
  right. exists (String.string_of_list_ascii t). split; [done|].
  intros b. rewrite bytesOf_of_list. intros (c & -> & Hc)%list_elem_of_fmap.
  unfold bytesOf. apply list_elem_of_fmap. exists c. split; [done|].
  destruct (Ht c Hc) as [Hin|Hin]; [|by apply not_elem_of_nil in Hin].
  apply list_elem_of_In, in_rev. by apply list_elem_of_In.
Qed.

(** The token of a file name without a byte [0], for every instance of
    [Strings]: lower-casing adds no byte [0] and keeps the leading
    dot. *)
Lemma extOf_token name : nulFree name → extToken (extOf name).
Proof.
  intros Hname. unfold extOf. case_bool_decide as Hempty.
  { split; [|exists 60, (bytesOf "noext>"); done].
    unfold nulFree. refine (bool_decide_unpack _ _). by vm_compute. }
  destruct (filepath_Ext_shape name) as [Hnil|(t & Heq & Ht)].
  { exfalso. apply Hempty. rewrite Hnil.
    rewrite (ToLower_ascii "") by done. done. }
  rewrite Heq in *. split.
  - apply ToLower_nul. unfold bytesOf. cbn [String.list_ascii_of_string map].
    intros [H|H]%elem_of_cons; [by vm_compute in H|].
    apply Hname, Ht, H.
  - destruct (ToLower_dot t) as [s' ->]. by exists 46, (bytesOf s').
Qed.

(** ** Signature equality *)

Lemma sort_Strings_perm_inv l1 l2 : sort_Strings l1 = sort_Strings l2 → l1 ≡ₚ l2.
Proof.
  unfold sort_Strings. intros H.
  by rewrite <- (merge_sort_Permutation String.le l1), H, merge_sort_Permutation.
Qed.

Lemma sort_Strings_Forall (P : string → Prop) l :
  Forall P l → Forall P (sort_Strings l).
Proof. unfold sort_Strings. by rewrite merge_sort_Permutation. Qed.

Lemma encodeDirectory_inj m1 m2 sigs1 sigs2 :
  Forall extToken (map fst (map_to_list m1)) →
  Forall extToken (map fst (map_to_list m2)) →
  (∀ ext, 0 ≤ default 0 (m1 !! ext) < 2 ^ 64) →
  (∀ ext, 0 ≤ default 0 (m2 !! ext) < 2 ^ 64) →
  Forall nulFree sigs1 → Forall nulFree sigs2 →
  encodeDirectory m1 sigs1 = encodeDirectory m2 sigs2 →
  m1 = m2 ∧ sigs1 ≡ₚ sigs2.
Proof.
  intros Hk1 Hk2 Hr1 Hr2 Hs1 Hs2. unfold encodeDirectory.
  intros H%app_inv_head.
  apply encodeExts_inj in H as (Hkeys & Hvals & Hsigs);
    [|by apply sort_Strings_Forall..|done|done].
  apply encodeSigs_inj in Hsigs; [|by apply sort_Strings_Forall..].
  split; [|by apply sort_Strings_perm_inv].
  apply sort_Strings_perm_inv in Hkeys.
  apply map_eq. intros k. apply option_eq_default.
  - rewrite !eq_None_not_Some, <- !elem_of_keys. by rewrite Hkeys.
  - destruct (m1 !! k) as [v|] eqn:Hk.
    + rewrite Forall_forall in Hvals. rewrite <- Hk. apply Hvals.
      unfold sort_Strings. rewrite merge_sort_Permutation.
      apply elem_of_keys. by rewrite Hk.
    + assert (m2 !! k = None) as ->; [|done].
      apply eq_None_not_Some. rewrite <- elem_of_keys, <- Hkeys, elem_of_keys.
      rewrite Hk. by intros [? ?].
Qed.

Lemma histogram_tokens names :
  Forall nulFree names →
  Forall extToken (map fst (map_to_list (histogram names))).
Proof.
  intros Hnames. apply Forall_forall. intros k Hk.
  apply histogram_keys in Hk.
  apply list_elem_of_fmap in Hk as (name & -> & Hin).
  apply extOf_token. rewrite Forall_forall in Hnames. by apply Hnames.
Qed.

Lemma histogram_range names ext :
  Z.of_nat (length names) < 2 ^ 64 →
  0 ≤ default 0 (histogram names !! ext) < 2 ^ 64.
Proof.
  intros Hlen. rewrite histogram_count.
  pose proof (countExt_bound names ext). lia.
Qed.

Lemma fileNames_nulFree entries :
  Forall (λ e, nulFree (DirEntry_Name e)) entries →
  Forall nulFree (fileNames entries).
Proof.
  intros H. unfold fileNames. apply Forall_forall.
  intros n (e & -> & He)%list_elem_of_fmap.
  apply list_elem_of_filter in He as [_ He].
  rewrite Forall_forall in H. by apply H.
Qed.

Lemma histogram_sorted entries :
  histogram (fileNames (sortEntries entries)) = histogram (fileNames entries).
Proof. apply histogram_perm, fileNames_perm, sortEntries_perm. Qed.

(** ** Signatures hold no [0] byte *)

Lemma bytesOf_String c s : bytesOf (String c s) = byteOf c :: bytesOf s.
Proof. reflexivity. Qed.

Lemma bytesOf_app a b : bytesOf (a +:+ b) = bytesOf a ++ bytesOf b.
Proof.
  induction a as [|c a IH]; [reflexivity|].
  change (String c a +:+ b) with (String c (a +:+ b)).
  by rewrite !bytesOf_String, IH.
Qed.

Lemma nulFree_app a b : nulFree (a +:+ b) ↔ nulFree a ∧ nulFree b.
Proof. unfold nulFree. by rewrite bytesOf_app, not_elem_of_app. Qed.

Lemma nulFree_String c s : nulFree (String c s) ↔ byteOf c ≠ 0 ∧ nulFree s.
Proof.
  unfold nulFree. rewrite bytesOf_String, not_elem_of_cons. naive_solver.
Qed.

Lemma nulFree_okChars s : nulFree s ↔ okChars (String.list_ascii_of_string s).
Proof.
  unfold nulFree, okChars, bytesOf. rewrite Forall_forall. split.
  - intros H c Hc Hz. apply H. apply list_elem_of_fmap. by exists c.
  - intros H (c & Hz & Hc)%list_elem_of_fmap. by apply (H c).
Qed.

Lemma nulFree_of_list l : nulFree (String.string_of_list_ascii l) ↔ okChars l.
Proof. by rewrite nulFree_okChars, String.list_ascii_of_string_of_list_ascii. Qed.

Lemma hexDigit_nonzero d : 0 ≤ d < 16 → byteOf (hexDigit d) ≠ 0.
Proof.
  intros Hd.
  assert (d = 0 ∨ d = 1 ∨ d = 2 ∨ d = 3 ∨ d = 4 ∨ d = 5 ∨ d = 6 ∨ d = 7 ∨
          d = 8 ∨ d = 9 ∨ d = 10 ∨ d = 11 ∨ d = 12 ∨ d = 13 ∨ d = 14 ∨ d = 15)
    as Hcases by lia.
  repeat destruct Hcases as [->|Hcases]; try subst d; by vm_compute.
Qed.

Lemma hexDigits_nulFree fuel v acc :
  nulFree acc → nulFree (hexDigits fuel v acc).
Proof.
  revert v acc. induction fuel as [|fuel IH]; intros v acc Hacc; [done|].
  assert (nulFree (String (hexDigit (v mod 16)) acc)) as Hacc'.
  { apply nulFree_String. split; [|done].
    apply hexDigit_nonzero, Z.mod_pos_bound. lia. }
  cbn [hexDigits]. destruct (v / 16 =? 0); [done|]. by apply IH.
Qed.

Lemma fmt_x_nulFree v : nulFree (fmt_x v).
Proof. apply hexDigits_nulFree. unfold nulFree. apply not_elem_of_nil. Qed.

Lemma signatureForDirectory_nulFree m subs :
  nulFree (signatureForDirectory m subs).
Proof.
  rewrite signatureForDirectory_digest. apply nulFree_app.
  split; [|apply fmt_x_nulFree]. refine (bool_decide_unpack _ _). by vm_compute.
Qed.

Lemma signatureForLeaf_nulFree path : nulFree (signatureForLeaf path).
Proof.
  unfold signatureForLeaf. apply nulFree_app.
  split; [|apply fmt_x_nulFree]. refine (bool_decide_unpack _ _). by vm_compute.
Qed.

Lemma signatureForError_nulFree path err :
  nulFree path → nulFree (errType err) → nulFree (signatureForError path err).
Proof.
  intros Hp He. unfold signatureForError. rewrite !nulFree_app.
  repeat split; try done; refine (bool_decide_unpack _ _); by vm_compute.
Qed.

Lemma splitElems_ok cur s :
  okChars cur → okChars s → Forall okChars (splitElems cur s).
Proof.
  revert cur. induction s as [|c s IH]; intros cur Hcur Hs; simpl.
  { constructor; [|constructor]. by apply Forall_rev. }
  inversion_clear Hs as [|? ? Hc Hs'].
  destruct (isPathSeparator c).
  - constructor; [by apply Forall_rev|]. apply IH; [constructor|done].
  - apply IH; [by constructor|done].
Qed.

Lemma cleanElems_ok rooted out elems :
  Forall okChars out → Forall okChars elems →
  Forall okChars (cleanElems rooted out elems).
Proof.
  intros Hout Helems. revert out Hout.
  induction Helems as [|e elems He _ IH]; intros out Hout; simpl.
  { by apply Forall_rev. }
  destruct (_ || _); [by apply IH|].
  case_bool_decide.
  - destruct Hout as [|top out' Htop Hout'].
    + destruct rooted; apply IH; repeat constructor; done.
    + case_bool_decide; apply IH; [by repeat constructor|done].
  - apply IH. by constructor.
Qed.

Lemma joinElems_ok elems : Forall okChars elems → okChars (joinElems elems).
Proof.
  induction 1 as [|e elems He Helems IH]; [constructor|].
  cbn [joinElems]. destruct elems as [|e' elems']; [done|].
  apply Forall_app. split; [done|]. constructor; [by vm_compute|done].
Qed.

Lemma filepath_Clean_nulFree path : nulFree path → nulFree (filepath_Clean path).
Proof.
  intros Hpath%nulFree_okChars. unfold filepath_Clean.
  destruct (String.list_ascii_of_string path) as [|c bytes] eqn:E.
  { refine (bool_decide_unpack _ _). by vm_compute. }
  assert (Hbody : okChars (joinElems
            (cleanElems (isPathSeparator c) [] (splitElems [] (c :: bytes))))).
  { apply joinElems_ok, cleanElems_ok; [constructor|].
    apply splitElems_ok; [constructor|done]. }
  revert Hbody. generalize (joinElems
            (cleanElems (isPathSeparator c) [] (splitElems [] (c :: bytes)))).
  intros body Hbody.
  destruct (isPathSeparator c).
  - apply nulFree_of_list. constructor; [by vm_compute|done].
  - destruct body as [|b body].
    + refine (bool_decide_unpack _ _). by vm_compute.
    + by apply nulFree_of_list.
Qed.

Lemma filepath_Join_nulFree a b :
  nulFree a → nulFree b → nulFree (filepath_Join a b).
Proof.
  intros Ha Hb. unfold filepath_Join. repeat case_bool_decide.
  - unfold nulFree. apply not_elem_of_nil.
  - by apply filepath_Clean_nulFree.
  - apply filepath_Clean_nulFree. rewrite !nulFree_app.
    repeat split; try done. refine (bool_decide_unpack _ _). by vm_compute.
Qed.

Lemma NulFreeSnapshot_names entries sub name :
  NulFreeSnapshot (ReadDirOk entries sub) → name ∈ dirNames entries → nulFree name.
Proof.
  inversion_clear 1 as [|? ? Hnames _ _]. unfold dirNames.
  intros (e & -> & He)%list_elem_of_fmap.
  apply list_elem_of_filter in He as [_ He].
  rewrite Forall_forall in Hnames. by apply Hnames.
Qed.

Lemma walkDir_signatures_nulFree fs path name level opts :
  NulFreeSnapshot fs → nulFree path →
  Forall (λ d, nulFree (Signature d)) (allNodes (walkDir fs path name level opts).1).
Proof.
  revert path name level.
  induction fs as [err|entries sub IH]; intros path name level Hfs Hpath.
  - rewrite walkDir_err. cbn [fst]. rewrite allNodes_unfold.
    constructor; [|constructor].
    inversion_clear Hfs. by apply signatureForError_nulFree.
  - rewrite allNodes_unfold. constructor.
    { rewrite walkDir_Signature. apply signatureForDirectory_nulFree. }
    rewrite walkDir_Subdirs.
    assert (Hin : ∀ n, n ∈ dirNames (sortEntries entries) → n ∈ dirNames entries).
    { intros n. by rewrite (dirNames_perm _ _ (sortEntries_perm entries)). }
    revert Hin. generalize (dirNames (sortEntries entries)) as names.
    induction names as [|n names IHn]; intros Hin; [constructor|].
    rewrite map_cons, flat_map_cons. apply Forall_app. split.
    + unfold childNode. destruct (atLimit opts level).
      * rewrite allNodes_unfold. constructor; [|constructor].
        apply signatureForLeaf_nulFree.
      * unfold descendInto. apply IH.
        -- inversion_clear Hfs as [|? ? _ _ Hsub]. apply Hsub, Hin. left.
        -- apply filepath_Join_nulFree; [done|].
           apply (NulFreeSnapshot_names entries sub); [done|]. apply Hin. left.
    + apply IHn. intros n' Hn'. apply Hin. by right.
Qed.

(** C2, as the code has it.  The signature of a directory that was read
    is ["d:"] followed by the hexadecimal 64-bit FNV-1a digest of a byte
    stream.  Equal extension histograms and equal multisets of child
    signatures give equal signatures.  For names and child signatures
    without a [0] byte the byte stream determines the histogram and the
    multiset of child signatures, so distinct inputs never encode to the
    same bytes; the signatures of two directories are equal exactly when
    the digests of their byte streams are.  Each entry of the histogram
    is the number of files of that extension, lower-cased by
    [strings.ToLower]: the statement holds for every instance of
    [Strings], and uses of [strings.ToLower] only that it adds no byte
    [0] and keeps the leading dot of an extension.  Entry names, error
    types and the path are taken without [0] bytes, as an operating
    system returns them. *)
Theorem C2_signature_equality
    (entries1 entries2 : list DirEntry) (sub1 sub2 : string → ReadDir)
    (path1 path2 name1 name2 : string) (level1 level2 : Z) (opts1 opts2 : Options)
    (Hfs1 : NulFreeSnapshot (ReadDirOk entries1 sub1))
    (Hfs2 : NulFreeSnapshot (ReadDirOk entries2 sub2))
    (Hpath1 : nulFree path1) (Hpath2 : nulFree path2) :
  let node1 := (walkDir (ReadDirOk entries1 sub1) path1 name1 level1 opts1).1 in
  let node2 := (walkDir (ReadDirOk entries2 sub2) path2 name2 level2 opts2).1 in
  let hist1 := histogram (fileNames entries1) in
  let hist2 := histogram (fileNames entries2) in
  let sigs1 := map Signature (Subdirs node1) in
  let sigs2 := map Signature (Subdirs node2) in
  Signature node1 = "d:" +:+ fmt_x (digest (encodeDirectory hist1 sigs1)) ∧
  Signature node2 = "d:" +:+ fmt_x (digest (encodeDirectory hist2 sigs2)) ∧
  (hist1 = hist2 ∧ sigs1 ≡ₚ sigs2 → Signature node1 = Signature node2) ∧
  (encodeDirectory hist1 sigs1 = encodeDirectory hist2 sigs2 ↔
     hist1 = hist2 ∧ sigs1 ≡ₚ sigs2) ∧
  (Signature node1 = Signature node2 ↔
     digest (encodeDirectory hist1 sigs1) = digest (encodeDirectory hist2 sigs2)) ∧
  (∀ ext, default 0 (hist1 !! ext) = countExt (fileNames entries1) ext) ∧
  (∀ ext, hist1 !! ext = None ↔ countExt (fileNames entries1) ext = 0).
Proof.
  intros node1 node2 hist1 hist2 sigs1 sigs2.
  assert (Hsigs1 : Forall (λ d, nulFree (Signature d)) (Subdirs node1)).
  { apply Forall_forall. intros d Hd%Subdirs_allNodes. revert d Hd.
    apply Forall_forall. by apply walkDir_signatures_nulFree. }
  assert (Hsigs2 : Forall (λ d, nulFree (Signature d)) (Subdirs node2)).
  { apply Forall_forall. intros d Hd%Subdirs_allNodes. revert d Hd.
    apply Forall_forall. by apply walkDir_signatures_nulFree. }
  inversion_clear Hfs1 as [|? ? Hnames1 Hlen1 _].
  inversion_clear Hfs2 as [|? ? Hnames2 Hlen2 _].
  unfold math_MaxInt in Hlen1, Hlen2.
  assert (HS1 : Signature node1 = signatureForDirectory hist1 (Subdirs node1)).
  { subst node1 hist1. by rewrite walkDir_Signature, histogram_sorted. }
  assert (HS2 : Signature node2 = signatureForDirectory hist2 (Subdirs node2)).
  { subst node2 hist2. by rewrite walkDir_Signature, histogram_sorted. }
  assert (Hperm : hist1 = hist2 ∧ sigs1 ≡ₚ sigs2 →
                  encodeDirectory hist1 sigs1 = encodeDirectory hist2 sigs2).
  { intros [-> Hp]. unfold encodeDirectory. by rewrite (sort_Strings_perm _ _ Hp). }
  split; [by rewrite HS1, signatureForDirectory_digest|].
  split; [by rewrite HS2, signatureForDirectory_digest|].
  split; [|split; [|split; [|split]]].
  - intros H. rewrite HS1, HS2, !signatureForDirectory_digest.
    fold sigs1 sigs2. by rewrite (Hperm H).
  - split; [|done]. subst hist1 hist2 sigs1 sigs2.
    assert (Hf1 : (length (fileNames entries1) ≤ length entries1)%nat)
      by apply fileNames_length.
    assert (Hf2 : (length (fileNames entries2) ≤ length entries2)%nat)
      by apply fileNames_length.
    apply encodeDirectory_inj.
    + by apply histogram_tokens, fileNames_nulFree.
    + by apply histogram_tokens, fileNames_nulFree.
    + intros ext. apply histogram_range. lia.
    + intros ext. apply histogram_range. lia.
    + by apply Forall_fmap.
    + by apply Forall_fmap.
  - rewrite HS1, HS2. apply signature_eq_iff_digest.
  - intros ext. apply histogram_count.
  - intros ext. subst hist1. rewrite histogram_None. unfold countExt.
    split.
    + intros Hnot. destruct (filter _ _) as [|n l] eqn:E; [done|].
      exfalso. apply Hnot. apply list_elem_of_fmap. exists n. 
      assert (Hn : n ∈ filter (λ name, extOf name = ext) (fileNames entries1))
        by (rewrite E; left).
      apply list_elem_of_filter in Hn as [-> ?]. done.
    + intros Hz (n & -> & Hin)%list_elem_of_fmap.
      assert (Hn : n ∈ filter (λ name, extOf name = extOf n) (fileNames entries1))
        by (by apply list_elem_of_filter).
      destruct (filter _ _); [by apply not_elem_of_nil in Hn|done].
Qed.

Lemma collide_snapshot name : NulFreeSnapshot (ReadDirOk [mkDirEntry name false] noSub) ↔ nulFree name.
Proof.
  split.
  - inversion_clear 1 as [|? ? Hnames _ _]. by inversion_clear Hnames.
  - intros Hname. constructor.
    + by repeat constructor.
    + by vm_compute.
    + intros ? []%not_elem_of_nil.
Qed.

(** ** Sample evaluations *)

(** * Further properties of the walker *)

(** X1. [intToBytes] writes eight bytes, each in [0, 255], from which the
    value can be read back modulo [2^64]: it is the little-endian image
    of [uint64(v)], also for a negative [v]. *)
Theorem intToBytes_little_endian (v : Z) :
  length (intToBytes v) = 8%nat ∧
  Forall (λ b, 0 ≤ b < 256) (intToBytes v) ∧
  fromBytes (intToBytes v) = v mod 2 ^ 64.
Proof.
  split; [apply intToBytes_length|]. split; [|apply fromBytes_intToBytes].
  unfold intToBytes. apply Forall_fmap, Forall_forall. intros i _. simpl.
  change 255 with (Z.ones 8). rewrite Z.land_ones by lia.
  apply Z.mod_pos_bound. lia.
Qed.

Lemma kinds_differ_l_d x y : "l:" +:+ x ≠ "d:" +:+ y.
Proof. discriminate. Qed.

Lemma kinds_differ_l_err x y : "l:" +:+ x ≠ "err:" +:+ y.
Proof. discriminate. Qed.

(** X2. The three kinds of signature never coincide: the signature of a
    marker differs from that of every directory that was read and from
    that of every failed read, so [GroupIdentical] never puts a marker
    into one group with a read directory or an error node. *)
Theorem signature_kinds_disjoint (joined : string) :
  (∀ fileExtCounts subdirs,
     signatureForLeaf joined ≠ signatureForDirectory fileExtCounts subdirs) ∧
  (∀ path err, signatureForLeaf joined ≠ signatureForError path err) ∧
  (∀ fileExtCounts subdirs path err,
     signatureForDirectory fileExtCounts subdirs ≠ signatureForError path err) ∧
  (∀ name level entries sub path' name' level' opts' path'' name'' level'' err dirs g,
     g ∈ GroupIdentical dirs →
     Some (leafNode joined name level) ∈ Members g →
     (Some (walkDir (ReadDirOk entries sub) path' name' level' opts').1 ∉ Members g) ∧
     (Some (errorNode path'' name'' level'' err) ∉ Members g)).
Proof.
  assert (Hld : ∀ m s, signatureForLeaf joined ≠ signatureForDirectory m s).
  { intros m s. destruct (signatureForLeaf_kind joined) as [x ->].
    destruct (signatureForDirectory_kind m s) as [y ->]. apply kinds_differ_l_d. }
  assert (Hle : ∀ p e, signatureForLeaf joined ≠ signatureForError p e).
  { intros p e. destruct (signatureForLeaf_kind joined) as [x ->].
    destruct (signatureForError_kind p e) as [y ->]. apply kinds_differ_l_err. }
  split; [done|]. split; [done|]. split.
  { intros m s p e. destruct (signatureForDirectory_kind m s) as [x ->].
    destruct (signatureForError_kind p e) as [y ->]. apply kinds_differ_d_err. }
  intros name level entries sub path' name' level' opts' path'' name'' level'' err
    dirs g Hg Hleaf.
  pose proof (GroupIdentical_same_key _ _ _ Hg Hleaf) as Hk.
  rewrite groupKey_set in Hk by done. cbn [leafNode Signature] in Hk.
  split; intros Hother;
    pose proof (GroupIdentical_same_key _ _ _ Hg Hother) as Hk'.
  - rewrite groupKey_set in Hk'.
    + rewrite walkDir_Signature, <- Hk in Hk'. symmetry in Hk'. by apply Hld in Hk'.
    + pose proof (walkDir_Signature_set (ReadDirOk entries sub) path' name' level' opts') as H.
      rewrite allNodes_unfold in H. by inversion H.
  - rewrite groupKey_set in Hk' by done. cbn [errorNode Signature] in Hk'.
    rewrite <- Hk in Hk'. symmetry in Hk'. by apply Hle in Hk'.
Qed.

(** A field that ends at a delimiter it does not contain can be split off
    in one way only. *)
Lemma delimited_by_inj {A} (d : A) (a b r1 r2 : list A) :
  d ∉ a → d ∉ b → a ++ d :: r1 = b ++ d :: r2 → a = b ∧ r1 = r2.
Proof.
  revert b. induction a as [|x a IH]; intros [|y b] Ha Hb; simpl.
  - by intros [= ->].
  - intros [= <- _]. exfalso. apply Hb. left.
  - intros [= -> _]. exfalso. apply Ha. left.
  - intros [= -> H]. apply IH in H as [-> ->]; [done|..].
    + intros ?. apply Ha. by right.
    + intros ?. apply Hb. by right.
Qed.

Lemma chars_app a b :
  String.list_ascii_of_string (a +:+ b) =
  String.list_ascii_of_string a ++ String.list_ascii_of_string b.
Proof.
  induction a as [|c a IH]; [reflexivity|].
  change (String c a +:+ b) with (String c (a +:+ b)).
  cbn [String.list_ascii_of_string]. by rewrite IH.
Qed.

Lemma chars_inj s1 s2 :
  String.list_ascii_of_string s1 = String.list_ascii_of_string s2 → s1 = s2.
Proof.
  intros H. rewrite <- (String.string_of_list_ascii_of_string s1).
  rewrite <- (String.string_of_list_ascii_of_string s2). by rewrite H.
Qed.

(** A last field without the delimiter can be split off in one way. *)
Lemma last_field_inj (d : ascii) (a b t1 t2 : list ascii) :
  d ∉ t1 → d ∉ t2 → a ++ d :: t1 = b ++ d :: t2 → a = b ∧ t1 = t2.
Proof.
  intros H1 H2 H. apply (f_equal (@rev ascii)) in H.
  rewrite !rev_app_distr in H. cbn [rev] in H. rewrite <- !app_assoc in H.
  cbn [app] in H.
  apply delimited_by_inj in H as [Ht Ha].
  - split; [by apply rev_inj|by apply rev_inj].
  - intros Hin. apply H1. apply list_elem_of_In, in_rev. by apply list_elem_of_In.
  - intros Hin. apply H2. apply list_elem_of_In, in_rev. by apply list_elem_of_In.
Qed.

(** X3. The signature of a failed read determines the path and the type
    of the error, for error types printed without a colon (as [%T]
    prints them). *)
Theorem signatureForError_inj (path1 path2 : string) (err1 err2 : GoError)
    (Htype1 : ":"%char ∉ String.list_ascii_of_string (errType err1))
    (Htype2 : ":"%char ∉ String.list_ascii_of_string (errType err2))
    (Heq : signatureForError path1 err1 = signatureForError path2 err2) :
  path1 = path2 ∧ errType err1 = errType err2.
Proof.
  unfold signatureForError in Heq.
  apply (f_equal String.list_ascii_of_string) in Heq.
  rewrite !chars_app in Heq. apply app_inv_head in Heq.
  change (String.list_ascii_of_string ":") with [":"%char] in Heq.
  cbn [app] in Heq. apply last_field_inj in Heq as [Hp Ht]; [|done..].
  split; by apply chars_inj.
Qed.

Lemma sublist_elem {A} (l1 l2 : list A) x :
  l1 `sublist_of` l2 → x ∈ l1 → x ∈ l2.
Proof.
  induction 1 as [|y l1 l2 Hsub IH|y l1 l2 Hsub IH]; [done|..].
  - rewrite !elem_of_cons. naive_solver.
  - rewrite elem_of_cons. naive_solver.
Qed.

Lemma StronglySorted_sublist {A} (R : relation A) l1 l2 :
  l1 `sublist_of` l2 → StronglySorted R l2 → StronglySorted R l1.
Proof.
  induction 1 as [|x l1 l2 Hsub IH|x l1 l2 Hsub IH]; intros Hs; [done|..].
  - apply StronglySorted_cons in Hs as [Hx Hs]. apply StronglySorted_cons.
    split; [|by apply IH]. rewrite Forall_forall in Hx. apply Forall_forall.
    intros y Hy. apply Hx. by eapply sublist_elem.
  - apply StronglySorted_cons in Hs as [_ Hs]. by apply IH.
Qed.

Lemma sortEntries_sorted entries : StronglySorted byName (sortEntries entries).
Proof. apply (StronglySorted_merge_sort byName). Qed.

Lemma names_sorted (P : DirEntry → Prop) `{!∀ e, Decision (P e)} entries :
  StronglySorted String.le (map DirEntry_Name (filter P (sortEntries entries))).
Proof.
  apply (StronglySorted_fmap DirEntry_Name byName String.le); [done|].
  eapply StronglySorted_sublist; [apply sublist_filter|apply sortEntries_sorted].
Qed.

Lemma childNode_Name descend path level opts name :
  (∀ j n, Name (descend j n).1 = n) →
  Name (childNode descend path level opts name) = name.
Proof. intros H. unfold childNode. by destruct (atLimit opts level). Qed.

Lemma walkDir_child_names entries sub path name level opts :
  map Name (Subdirs (walkDir (ReadDirOk entries sub) path name level opts).1) =
  dirNames (sortEntries entries).
Proof.
  rewrite walkDir_Subdirs, map_map. rewrite <- (map_id (dirNames _)) at 2.
  apply map_ext. intros child. apply childNode_Name.
  intros j n. apply walkDir_Name.
Qed.

(** X4. In every tree [walkDir] builds, each child is one level below its
    parent and its path is the parent's path joined with its own name;
    the root carries the path, name and level it was called with, and the
    root of a successful [Walk] is at level [0] with the cleaned path. *)
Theorem walkDir_tree_shape (fs : ReadDir) (path name : string) (level : Z)
    (opts : Options) :
  let root := (walkDir fs path name level opts).1 in
  Path root = path ∧ Name root = name ∧ Level root = level ∧
  Forall childrenLinked (allNodes root) ∧
  ∀ stat,
    match Walk (mkFileSystem stat fs) path opts with
    | inr r => Level r = 0 ∧ Path r = filepath_Clean path ∧ Err r = None ∧
               Forall childrenLinked (allNodes r)
    | inl _ => True
    end.
Proof.
  assert (Hall : ∀ p n l, Forall childrenLinked (allNodes (walkDir fs p n l opts).1)).
  { intros p n l. apply (walkDir_nodes_ind (λ _, True) childrenLinked opts); try done.
    - intros. by constructor.
    - intros. by constructor.
    - intros entries sub p' n' l' _. unfold childrenLinked.
      rewrite walkDir_Subdirs, walkDir_Level, walkDir_Path.
      apply Forall_fmap, Forall_forall. intros child _. simpl.
      unfold childNode. destruct (atLimit opts l'); [done|].
      unfold descendInto. by rewrite walkDir_Level, walkDir_Path, walkDir_Name. }
  cbv zeta. split; [apply walkDir_Path|]. split; [apply walkDir_Name|].
  split; [apply walkDir_Level|]. split; [apply Hall|].
  intros stat. unfold Walk. cbn [os_Stat os_ReadDir].
  destruct stat as [err|n isDir]; [done|]. destruct isDir; cbn [negb]; [|done].
  destruct (Err _) eqn:E; [done|].
  split; [apply walkDir_Level|]. split; [apply walkDir_Path|]. split; [done|apply Hall].
Qed.

(** X5. In every node [walkDir] builds, the children and the retained
    files are in ascending byte-wise name order, whatever order the
    system listed them in; the children of a directory that was read are
    named after its subdirectory entries, one child each. *)
Theorem walkDir_names_ascending (fs : ReadDir) (path name : string) (level : Z)
    (opts : Options) :
  Forall namesAscending (allNodes (walkDir fs path name level opts).1) ∧
  match fs with
  | ReadDirErr _ => True
  | ReadDirOk entries sub =>
      map Name (Subdirs (walkDir fs path name level opts).1) ≡ₚ dirNames entries ∧
      Forall (λ f, FileEntry_Name f ∈ fileNames entries)
        (Files (walkDir fs path name level opts).1)
  end.
Proof.
  split.
  - apply (walkDir_nodes_ind (λ _, True) namesAscending opts); try done.
    + intros. split; constructor.
    + intros. split; constructor.
    + intros entries sub p n l _. split.
      * rewrite walkDir_child_names. apply names_sorted.
      * rewrite walkDir_Files, map_map. simpl. rewrite map_id.
        eapply StronglySorted_sublist; [apply sublist_take|]. apply names_sorted.
  - destruct fs as [err|entries sub]; [done|]. split.
    + rewrite walkDir_child_names. apply dirNames_perm, sortEntries_perm.
    + rewrite walkDir_Files. apply Forall_fmap, Forall_forall. intros f Hf. simpl.
      rewrite <- (fileNames_perm _ _ (sortEntries_perm entries)).
      eapply sublist_elem; [apply sublist_take|done].
Qed.

Lemma sumZ_app l1 l2 : sumZ (l1 ++ l2) = sumZ l1 + sumZ l2.
Proof. unfold sumZ. induction l1 as [|x l1 IH]; simpl; lia. Qed.

Lemma walkDir_totals_count fs path name level opts :
  let root := (walkDir fs path name level opts).1 in
  TotalDirs root = Z.of_nat (length (allNodes root)) - 1 ∧
  TotalFiles root = sumZ (map ImmediateFileCount (allNodes root)).
Proof.
  revert path name level. induction fs as [err|entries sub IH]; intros path name level.
  { rewrite walkDir_err. split; reflexivity. }
  cbv zeta. destruct (walkDir_countsAddUp entries sub path name level opts)
    as (_ & _ & HF & HD).
  rewrite HF, HD, allNodes_unfold. cbn [length map].
  rewrite walkDir_Subdirs.
  generalize (dirNames (sortEntries entries)) as names.
  generalize (ImmediateFileCount (walkDir (ReadDirOk entries sub) path name level opts).1).
  intros imm names.
  assert (Hc : ∀ child,
    let c := childNode (descendInto sub level opts) path level opts child in
    TotalDirs c = Z.of_nat (length (allNodes c)) - 1 ∧
    TotalFiles c = sumZ (map ImmediateFileCount (allNodes c))).
  { intros child. unfold childNode.
    destruct (atLimit opts level); [split; reflexivity|]. apply IH. }
  induction names as [|n names [IHd IHf]]; [split; [done|unfold sumZ; simpl; lia]|].
  destruct (Hc n) as [Hd Hf]. cbv zeta in Hd, Hf.
  rewrite !map_cons, flat_map_cons, length_app, map_app.
  unfold sumZ in *. cbn [foldr length] in *. rewrite !foldr_app in *.
  fold (sumZ (map ImmediateFileCount (allNodes
    (childNode (descendInto sub level opts) path level opts n)))) in *.
  split.
  - rewrite Hd. lia.
  - rewrite Hf. clear -IHf. 
    revert IHf. generalize (map ImmediateFileCount (flat_map allNodes
      (map (childNode (descendInto sub level opts) path level opts) names))).
    generalize (map ImmediateFileCount (allNodes
      (childNode (descendInto sub level opts) path level opts n))).
    generalize (foldr Z.add 0 (map TotalFiles
      (map (childNode (descendInto sub level opts) path level opts) names))).
    intros t l1 l2 H.
    assert (Hl : ∀ l a, foldr Z.add a l = sumZ l + a).
    { clear. unfold sumZ. induction l as [|x l IH]; intros a; simpl; [lia|].
      rewrite IH. lia. }
    rewrite (Hl l1 (foldr Z.add 0 l2)). unfold sumZ in *. simpl in H. lia.
Qed.

(** X6. For every node of a tree [walkDir] builds, [TotalDirs] is the
    number of nodes below it (markers and error nodes count as one
    directory each) and [TotalFiles] is the number of files, shown or
    hidden, of all nodes of its subtree. *)
Theorem walkDir_totals_count_subtree (fs : ReadDir) (path name : string)
    (level : Z) (opts : Options) :
  Forall totalsCountSubtree (allNodes (walkDir fs path name level opts).1).
Proof.
  apply (walkDir_nodes_ind (λ _, True) totalsCountSubtree opts).
  - done.
  - intros. split; reflexivity.
  - intros. split; reflexivity.
  - intros entries sub p n l _. apply walkDir_totals_count.
  - done.
Qed.

Lemma walkEntry_fold_opts d1 d2 path level o1 o2 maxFiles entries st :
  MaxLevel o1 = MaxLevel o2 →
  (∀ name, name ∈ dirNames entries →
           d1 (filepath_Join path name) name = d2 (filepath_Join path name) name) →
  fold_left (walkEntry d1 path level o1 maxFiles) entries st =
  fold_left (walkEntry d2 path level o2 maxFiles) entries st.
Proof.
  intros HL. revert st. induction entries as [|e entries IH]; intros st Hd; [done|].
  rewrite dirNames_cons in Hd. rewrite !fold_left_cons, <- IH.
  - f_equal. unfold walkEntry, atLimit. rewrite HL.
    destruct (DirEntry_IsDir e); [|done].
    rewrite (Hd (DirEntry_Name e)); [done|left].
  - intros name Hname. apply Hd. destruct (DirEntry_IsDir e); [by right|done].
Qed.

Lemma walkDir_opts_ext fs path name level o1 o2 :
  fileCap o1 = fileCap o2 → MaxLevel o1 = MaxLevel o2 →
  walkDir fs path name level o1 = walkDir fs path name level o2.
Proof.
  intros Hcap HL. revert path name level.
  induction fs as [err|entries sub IH]; intros path name level; [done|].
  rewrite !walkDir_ok. cbv zeta. rewrite Hcap.
  rewrite (walkEntry_fold_opts (descendInto sub level o1) (descendInto sub level o2)
             path level o1 o2); [done..|].
  intros child _. unfold descendInto. apply IH.
Qed.

(** X7. A negative [MaxFiles] behaves exactly like [0]: the walk returns
    the same tree and the same reads, and (for listings that fit a
    slice) no node hides a file. *)
Theorem walkDir_negative_MaxFiles (fs : ReadDir) (path name : string)
    (level maxFiles maxLevel : Z) (Hneg : maxFiles ≤ 0) (Hfit : ListingsFit fs) :
  walkDir fs path name level (mkOptions maxFiles maxLevel) =
  walkDir fs path name level (mkOptions 0 maxLevel) ∧
  Forall (λ d, HiddenFiles d = 0)
    (allNodes (walkDir fs path name level (mkOptions maxFiles maxLevel)).1).
Proof.
  assert (Heq : walkDir fs path name level (mkOptions maxFiles maxLevel) =
                walkDir fs path name level (mkOptions 0 maxLevel)).
  { apply walkDir_opts_ext; [|done]. unfold fileCap. simpl.
    by rewrite (proj2 (Z.leb_le maxFiles 0)). }
  split; [done|]. rewrite Heq.
  apply (walkDir_nodes_ind ListingsFit); try done.
  - apply ListingsFit_sub.
  - intros entries sub p n l Hf.
    by apply (truncationHolds_ok entries sub p n l (mkOptions 0 maxLevel));
      [inversion Hf|].
Qed.

(** X8. A negative [MaxLevel], which [Walk] itself does not reject, stops
    the walk at the first directory: only that directory is read and
    each of its subdirectories is recorded as a marker. *)
Theorem walkDir_negative_MaxLevel (entries : list DirEntry) (sub : string → ReadDir)
    (path name : string) (level maxFiles maxLevel : Z)
    (Hneg : maxLevel < 0) (Hlevel : 0 ≤ level) :
  let '(root, log) :=
    walkDir (ReadDirOk entries sub) path name level (mkOptions maxFiles maxLevel) in
  log = [path] ∧
  Subdirs root =
    map (λ child, leafNode (filepath_Join path child) child level)
      (dirNames (sortEntries entries)) ∧
  TotalDirs root = Z.of_nat (length (dirNames entries)).
Proof.
  set (opts := mkOptions maxFiles maxLevel).
  assert (Hat : atLimit opts level = true) by (apply atLimit_iff; simpl; lia).
  destruct (walkDir _ _ _ _ _) as [root log] eqn:Hwalk.
  assert (Hroot : root = (walkDir (ReadDirOk entries sub) path name level opts).1)
    by (by rewrite Hwalk).
  assert (Hlog : log = (walkDir (ReadDirOk entries sub) path name level opts).2)
    by (by rewrite Hwalk).
  clear Hwalk.
  assert (HS : Subdirs root =
    map (λ child, leafNode (filepath_Join path child) child level)
      (dirNames (sortEntries entries))).
  { rewrite Hroot, walkDir_children. apply map_ext. intros child. by rewrite Hat. }
  assert (Hreads : ∀ names,
    concat (map (childReads (descendInto sub level opts) path level opts) names) = []).
  { induction names as [|n names IH]; [done|].
    rewrite map_cons. unfold childReads at 1. rewrite Hat. apply IH. }
  assert (Hzero : ∀ names,
    sumZ (map TotalDirs
            (map (λ child, leafNode (filepath_Join path child) child level) names)) = 0).
  { induction names as [|n names IH]; [done|].
    rewrite !map_cons. unfold sumZ in *. cbn [foldr]. rewrite IH. reflexivity. }
  split; [|split; [done|]].
  - by rewrite Hlog, walkDir_reads, Hreads.
  - destruct (walkDir_countsAddUp entries sub path name level opts) as (_ & _ & _ & HD).
    rewrite <- Hroot in HD. rewrite HD, HS, Hzero, !length_map.
    rewrite (Permutation_length (dirNames_perm _ _ (sortEntries_perm entries))). lia.
Qed.

(** * Further properties of grouping *)

Lemma firstSeen_length keys : (length (firstSeen keys) ≤ length keys)%nat.
Proof.
  induction keys as [|k keys IH]; simpl; [done|].
  pose proof (length_filter (λ k', k' ≠ k) (firstSeen keys)). lia.
Qed.

Lemma firstSeen_NoDup keys : NoDup keys → firstSeen keys = keys.
Proof.
  induction 1 as [|k keys Hk _ IH]; simpl; [done|]. rewrite IH. f_equal.
  clear IH. induction keys as [|k' keys IH]; [done|].
  apply not_elem_of_cons in Hk as [Hne Hk].
  rewrite filter_cons, decide_True by done. f_equal. by apply IH.
Qed.

Lemma firstSeen_nil keys : firstSeen keys = [] ↔ keys = [].
Proof. destruct keys; simpl; split; done. Qed.

Lemma groupsBy_signatures key dirs :
  map DirGroup_Signature (groupsBy key dirs) = firstSeen (map key dirs).
Proof. unfold groupsBy. rewrite map_map. simpl. apply map_id. Qed.

Lemma groupsBy_elem key dirs g :
  g ∈ groupsBy key dirs →
  DirGroup_Signature g ∈ map key dirs ∧
  Members g = map Some (filter (λ d, key d = DirGroup_Signature g) dirs).
Proof.
  unfold groupsBy. intros (k & -> & Hk)%list_elem_of_fmap. simpl.
  split; [by apply elem_of_firstSeen|done].
Qed.

Lemma groupsBy_member key dirs d :
  d ∈ dirs →
  ∃ g, g ∈ groupsBy key dirs ∧ DirGroup_Signature g = key d ∧ Some d ∈ Members g.
Proof.
  intros Hd.
  exists {| DirGroup_Signature := key d;
            Members := map Some (filter (λ x, key x = key d) dirs) |}.
  split; [|split; [done|]].
  - unfold groupsBy. apply list_elem_of_fmap. exists (key d). split; [done|].
    apply elem_of_firstSeen, list_elem_of_fmap. by exists d.
  - simpl. apply list_elem_of_fmap. exists d. split; [done|].
    by apply list_elem_of_filter.
Qed.

Lemma elem_of_nonNil dirs d : d ∈ nonNil dirs ↔ Some d ∈ dirs.
Proof.
  unfold nonNil. rewrite list_elem_of_omap. split.
  - by intros ([x|] & Hx & [= ->]).
  - intros H. by exists (Some d).
Qed.

(** X9. [GroupIdentical] partitions the non-nil directories by key: the
    signatures of the groups are pairwise distinct, no group is empty,
    every member carries the key of its group, and two directories of
    the input are members of one group exactly when their keys agree. *)
Theorem GroupIdentical_partition (dirs : list (option Directory)) :
  let groups := GroupIdentical dirs in
  NoDup (map DirGroup_Signature groups) ∧
  Forall (λ g, Members g ≠ [] ∧
               Forall (λ m, ∃ d, m = Some d ∧ Some d ∈ dirs ∧
                                 groupKey d = DirGroup_Signature g)
                 (Members g)) groups ∧
  ∀ d1 d2, Some d1 ∈ dirs → Some d2 ∈ dirs →
    (groupKey d1 = groupKey d2 ↔
     ∃ g, g ∈ groups ∧ Some d1 ∈ Members g ∧ Some d2 ∈ Members g).
Proof.
  cbv zeta. rewrite GroupIdentical_spec. split; [|split].
  - rewrite groupsBy_signatures. apply NoDup_firstSeen.
  - apply Forall_forall. intros g Hg.
    apply groupsBy_elem in Hg as [Hk ->]. split.
    + apply list_elem_of_fmap in Hk as (d & Hkd & Hd).
      intros Hnil. apply fmap_nil_inv in Hnil.
      assert (d ∈ filter (λ x, groupKey x = DirGroup_Signature g) (nonNil dirs))
        as Hin by (by apply list_elem_of_filter).
      rewrite Hnil in Hin. by apply not_elem_of_nil in Hin.
    + apply Forall_fmap, Forall_forall. intros d [Hkd Hd]%list_elem_of_filter.
      exists d. split; [done|]. split; [by apply elem_of_nonNil|done].
  - intros d1 d2 H1%elem_of_nonNil H2%elem_of_nonNil. split.
    + intros Hkey. destruct (groupsBy_member groupKey _ _ H1) as (g & Hg & Hs & Hm).
      exists g. split; [done|]. split; [done|].
      apply groupsBy_elem in Hg as [_ ->]. apply list_elem_of_fmap.
      exists d2. split; [done|]. apply list_elem_of_filter. by rewrite Hs.
    + intros (g & Hg & Hm1 & Hm2). apply groupsBy_elem in Hg as [_ Hmem].
      rewrite Hmem in Hm1, Hm2.
      apply list_elem_of_fmap in Hm1 as (x1 & [= <-] & [Hk1 _]%list_elem_of_filter).
      apply list_elem_of_fmap in Hm2 as (x2 & [= <-] & [Hk2 _]%list_elem_of_filter).
      by rewrite Hk1, Hk2.
Qed.

(** X10. The groups account for every non-nil directory once: their
    sizes add up to the number of non-nil entries, there are at most as
    many groups as non-nil entries, and there is no group exactly when
    the input is empty or holds only nil. *)
Theorem GroupIdentical_sizes (dirs : list (option Directory)) :
  let groups := GroupIdentical dirs in
  sum_list (map (λ g, length (Members g)) groups) = length (nonNil dirs) ∧
  (length groups ≤ length (nonNil dirs))%nat ∧
  (groups = [] ↔ nonNil dirs = []).
Proof.
  cbv zeta. split; [|split].
  - pose proof (allMembers_groupsBy groupKey (nonNil dirs)) as Hperm.
    apply Permutation_length in Hperm. rewrite length_map in Hperm.
    rewrite GroupIdentical_spec, <- Hperm. unfold allMembers.
    generalize (groupsBy groupKey (nonNil dirs)) as groups.
    induction groups as [|g groups IH]; [done|].
    cbn [map concat sum_list sum_list_with]. rewrite length_app. simpl in *. lia.
  - rewrite GroupIdentical_spec. unfold groupsBy. rewrite length_map.
    etrans; [apply firstSeen_length|]. by rewrite length_map.
  - rewrite GroupIdentical_spec. unfold groupsBy. split.
    + intros H%fmap_nil_inv. apply (proj1 (firstSeen_nil _)) in H.
      by apply fmap_nil_inv in H.
    + by intros ->.
Qed.

Lemma filter_unique_key (key : Directory → string) dirs d :
  NoDup (map key dirs) → d ∈ dirs → filter (λ x, key x = key d) dirs = [d].
Proof.
  induction dirs as [|a dirs IH]; intros Hnd Hd; [by apply not_elem_of_nil in Hd|].
  rewrite map_cons in Hnd. apply NoDup_cons in Hnd as [Ha Hnd].
  rewrite filter_cons. apply elem_of_cons in Hd as [->|Hd].
  - rewrite decide_True by done. f_equal.
    clear IH Hnd. induction dirs as [|b dirs IH]; [done|].
    rewrite map_cons in Ha. apply not_elem_of_cons in Ha as [Hne Ha].
    rewrite filter_cons, decide_False by done. by apply IH.
  - rewrite decide_False; [by apply IH|].
    intros Heq. apply Ha. rewrite Heq. apply list_elem_of_fmap. by exists d.
Qed.

Lemma groupsBy_distinct key dirs :
  NoDup (map key dirs) →
  groupsBy key dirs =
  map (λ d, {| DirGroup_Signature := key d; Members := [Some d] |}) dirs.
Proof.
  intros Hnd. unfold groupsBy. rewrite firstSeen_NoDup by done.
  rewrite map_map. apply map_ext_in. intros d Hd%list_elem_of_In.
  by rewrite filter_unique_key.
Qed.

Lemma firstSeen_const keys k :
  Forall (λ k', k' = k) keys → keys ≠ [] → firstSeen keys = [k].
Proof.
  intros Hall Hne. destruct Hall as [|k' keys -> Hall]; [done|]. simpl. f_equal.
  assert (Forall (λ k', k' = k) (firstSeen keys)) as Hfs.
  { apply Forall_forall. intros x Hx. apply (proj1 (elem_of_firstSeen _ _)) in Hx.
    rewrite Forall_forall in Hall. by apply Hall. }
  induction Hfs as [|x l -> _ IH]; [done|].
  rewrite filter_cons, decide_False by (intros H; by apply H). done.
Qed.

Lemma groupsBy_const key dirs k :
  Forall (λ d, key d = k) dirs → dirs ≠ [] →
  groupsBy key dirs = [{| DirGroup_Signature := k; Members := map Some dirs |}].
Proof.
  intros Hall Hne. unfold groupsBy. rewrite (firstSeen_const _ k).
  - simpl. do 3 f_equal. clear Hne.
    induction Hall as [|d dirs Hd _ IH]; [done|].
    rewrite filter_cons, decide_True by done. by rewrite IH.
  - by apply Forall_fmap.
  - by destruct dirs.
Qed.

(** X11. When the non-nil directories have pairwise distinct keys, every
    one of them forms a group of its own and the groups follow the input
    order, so that the members of all groups, group after group, are the
    non-nil entries in input order. *)
Theorem GroupIdentical_all_distinct (dirs : list (option Directory))
    (Hdistinct : NoDup (map groupKey (nonNil dirs))) :
  GroupIdentical dirs =
    map (λ d, {| DirGroup_Signature := groupKey d; Members := [Some d] |})
      (nonNil dirs) ∧
  allMembers (GroupIdentical dirs) = filter (λ d, is_Some d) dirs.
Proof.
  assert (H : GroupIdentical dirs =
    map (λ d, {| DirGroup_Signature := groupKey d; Members := [Some d] |})
      (nonNil dirs)).
  { rewrite GroupIdentical_spec. by apply groupsBy_distinct. }
  split; [done|]. rewrite H, filter_is_Some_nonNil. unfold allMembers.
  rewrite map_map. simpl. clear.
  induction (nonNil dirs) as [|d l IH]; [done|]. simpl. by rewrite IH.
Qed.

(** X12. When all non-nil directories share one key, they form a single
    group that lists them in input order. *)
Theorem GroupIdentical_all_identical (dirs : list (option Directory)) (k : string)
    (Hsame : Forall (λ d, groupKey d = k) (nonNil dirs))
    (Hsome : nonNil dirs ≠ []) :
  GroupIdentical dirs =
  [{| DirGroup_Signature := k; Members := filter (λ d, is_Some d) dirs |}].
Proof.
  rewrite GroupIdentical_spec, filter_is_Some_nonNil. by apply groupsBy_const.
Qed.

(** The decimal digits of a number hold no colon. *)
Lemma pretty_N_go_no_colon x s :
  ":"%char ∉ String.list_ascii_of_string s →
  ":"%char ∉ String.list_ascii_of_string (pretty_N_go x s).
Proof.
  revert s. induction (N.lt_wf_0 x) as [x _ IH]; intros s Hs.
  assert (x = 0 ∨ 0 < x)%N as [->|Hpos] by lia; [by rewrite pretty_N_go_0|].
  rewrite pretty_N_go_step by done. apply IH; [by apply N.div_lt|].
  cbn [String.list_ascii_of_string]. apply not_elem_of_cons. split; [|done].
  unfold pretty_N_char. by repeat case_match.
Qed.

Lemma fmt_d_pretty n : fmt_d n = pretty n.
Proof. by destruct n. Qed.

Lemma fmt_d_no_colon n : ":"%char ∉ String.list_ascii_of_string (fmt_d n).
Proof.
  assert (HN : ∀ x : N, ":"%char ∉ String.list_ascii_of_string (pretty x)).
  { intros x. unfold pretty, pretty_N. case_decide.
    - refine (bool_decide_unpack _ _). by vm_compute.
    - apply pretty_N_go_no_colon. apply not_elem_of_nil. }
  unfold fmt_d. destruct (n <? 0); [|apply HN].
  rewrite chars_app. apply not_elem_of_app. split; [|apply HN].
  refine (bool_decide_unpack _ _). by vm_compute.
Qed.

(** X13. The fallback signature of a directory with an unset signature
    determines its name and its level, and it starts with ["name:"], so
    it is never the signature of a read directory, a marker or a failed
    read: such a directory only groups with directories of the same name
    and level whose signature is unset as well. *)
Theorem fallbackSignature_inj (d1 d2 : Directory) :
  (fallbackSignature d1 = fallbackSignature d2 ↔
   Name d1 = Name d2 ∧ Level d1 = Level d2) ∧
  (∀ fileExtCounts subdirs,
     fallbackSignature d1 ≠ signatureForDirectory fileExtCounts subdirs) ∧
  (∀ path, fallbackSignature d1 ≠ signatureForLeaf path) ∧
  (∀ path err, fallbackSignature d1 ≠ signatureForError path err).
Proof.
  split; [|split; [|split]].
  - unfold fallbackSignature. split; [|by intros [-> ->]]. intros Heq.
    apply (f_equal String.list_ascii_of_string) in Heq.
    rewrite !chars_app in Heq. apply app_inv_head in Heq.
    change (String.list_ascii_of_string ":level:")
      with (String.list_ascii_of_string ":level" ++ [":"%char]) in Heq.
    rewrite <- !app_assoc in Heq.
    rewrite !(app_assoc (String.list_ascii_of_string (Name _))) in Heq.
    cbn [app] in Heq.
    apply last_field_inj in Heq as [Hn Hl]; [|apply fmt_d_no_colon..].
    apply app_inv_tail, chars_inj in Hn. apply chars_inj in Hl.
    rewrite !fmt_d_pretty in Hl. by apply (inj pretty) in Hl.
  - intros m s. destruct (signatureForDirectory_kind m s) as [x ->]. discriminate.
  - intros p. destruct (signatureForLeaf_kind p) as [x ->]. discriminate.
  - intros p e. destruct (signatureForError_kind p e) as [x ->]. discriminate.
Qed.

(** * Properties of rendering *)

Lemma dirCap_pos opts : 1 ≤ dirCap opts.
Proof.
  unfold dirCap, math_MaxInt. destruct (Z.leb_spec (MaxDirs opts) 0); lia.
Qed.

Lemma groupLimit_min cap g :
  groupLimit cap g = Z.min (Z.of_nat (length (Members g))) cap.
Proof.
  unfold groupLimit. destruct (Z.gtb_spec (Z.of_nat (length (Members g))) cap); lia.
Qed.

Section item_filters.
Context (k : itemKind).

Lemma filter_kind_app (l1 l2 : list treeItem) :
  filter (λ it, treeItem_kind it = k) (l1 ++ l2) =
  filter (λ it, treeItem_kind it = k) l1 ++ filter (λ it, treeItem_kind it = k) l2.
Proof. apply filter_app. Qed.

Lemma filter_kind_map (mk : treeItem) (k' : itemKind) {A} (f : A → treeItem) l :
  (∀ x, treeItem_kind (f x) = k') →
  filter (λ it, treeItem_kind it = k) (map f l) =
  if decide (k' = k) then map f l else [].
Proof.
  intros Hk. induction l as [|x l IH]; [by destruct (decide _)|].
  rewrite map_cons, filter_cons, IH, Hk. by destruct (decide (k' = k)).
Qed.
End item_filters.

Lemma groupItems_shown cap g :
  shownDirs (groupItems cap g) = take (Z.to_nat (groupLimit cap g)) (Members g).
Proof.
  unfold shownDirs, groupItems.
  destruct (_ >? _); rewrite ?filter_app,
    (filter_kind_map itemDir (dirItem None) itemDir dirItem) by done; simpl.
  - rewrite app_nil_r, map_map. apply map_id.
  - rewrite map_map. apply map_id.
Qed.

Lemma groupItems_collapsed cap g :
  collapsedDirs (groupItems cap g) =
  Z.of_nat (length (Members g)) - groupLimit cap g.
Proof.
  unfold collapsedDirs, groupItems.
  destruct (Z.gtb_spec (Z.of_nat (length (Members g))) (groupLimit cap g)) as [Hgt|Hle];
    rewrite ?filter_app,
      (filter_kind_map itemCollapse (dirItem None) itemDir dirItem) by done; simpl.
  - unfold sumZ. simpl. lia.
  - rewrite groupLimit_min in *. unfold sumZ. simpl. lia.
Qed.

Lemma groupItems_files cap g :
  shownFiles (groupItems cap g) = [] ∧ fileSummaries (groupItems cap g) = [].
Proof.
  unfold shownFiles, fileSummaries, groupItems.
  destruct (_ >? _); rewrite ?filter_app,
    (filter_kind_map itemFile (dirItem None) itemDir dirItem),
    (filter_kind_map itemFileSummary (dirItem None) itemDir dirItem) by done; done.
Qed.

Lemma groupItems_length cap g :
  1 ≤ cap → (length (groupItems cap g) ≤ length (Members g))%nat.
Proof.
  intros Hcap. unfold groupItems.
  destruct (Z.gtb_spec (Z.of_nat (length (Members g))) (groupLimit cap g)) as [Hgt|Hle];
    rewrite ?length_app, length_map, length_take; simpl;
    rewrite groupLimit_min in *; lia.
Qed.

Lemma groupItems_collapse_positive cap g :
  Forall (λ it, treeItem_kind it = itemCollapse → 1 ≤ treeItem_collapseCount it)
    (groupItems cap g).
Proof.
  unfold groupItems.
  destruct (Z.gtb_spec (Z.of_nat (length (Members g))) (groupLimit cap g)) as [Hgt|Hle].
  - apply Forall_app. split.
    + apply Forall_fmap, Forall_forall. by intros.
    + constructor; [|constructor]. simpl. lia.
  - apply Forall_fmap, Forall_forall. by intros.
Qed.

Section groups_items.
Context (cap : Z) (Hcap : 1 ≤ cap).

Lemma groupsItems_shown groups :
  shownDirs (flat_map (groupItems cap) groups) =
  flat_map (λ g, take (Z.to_nat (groupLimit cap g)) (Members g)) groups.
Proof.
  induction groups as [|g groups IH]; [done|].
  rewrite !flat_map_cons, <- IH, <- groupItems_shown.
  unfold shownDirs. by rewrite filter_app, map_app.
Qed.

Lemma groupsItems_account groups :
  Z.of_nat (length (shownDirs (flat_map (groupItems cap) groups))) +
  collapsedDirs (flat_map (groupItems cap) groups) =
  Z.of_nat (length (allMembers groups)).
Proof.
  induction groups as [|g groups IH]; [done|].
  rewrite flat_map_cons. unfold allMembers in *. cbn [map concat].
  rewrite length_app.
  assert (Hs : shownDirs (groupItems cap g ++ flat_map (groupItems cap) groups) =
               shownDirs (groupItems cap g) ++ shownDirs (flat_map (groupItems cap) groups)).
  { unfold shownDirs. by rewrite filter_app, map_app. }
  assert (Hc : collapsedDirs (groupItems cap g ++ flat_map (groupItems cap) groups) =
               collapsedDirs (groupItems cap g) + collapsedDirs (flat_map (groupItems cap) groups)).
  { unfold collapsedDirs. by rewrite filter_app, map_app, sumZ_app. }
  rewrite Hs, Hc, length_app, groupItems_shown, groupItems_collapsed, length_take.
  rewrite groupLimit_min. lia.
Qed.

Lemma groupsItems_files groups :
  shownFiles (flat_map (groupItems cap) groups) = [] ∧
  fileSummaries (flat_map (groupItems cap) groups) = [].
Proof.
  induction groups as [|g groups [IH1 IH2]]; [done|].
  rewrite flat_map_cons. destruct (groupItems_files cap g) as [H1 H2].
  unfold shownFiles, fileSummaries in *.
  by rewrite !filter_app, !map_app, H1, H2, IH1, IH2.
Qed.

Lemma groupsItems_length groups :
  (length (flat_map (groupItems cap) groups) ≤ length (allMembers groups))%nat.
Proof.
  induction groups as [|g groups IH]; [done|].
  rewrite flat_map_cons. unfold allMembers in *. cbn [map concat].
  rewrite !length_app. pose proof (groupItems_length cap g Hcap). lia.
Qed.
End groups_items.

Lemma allMembers_Subdirs_length d :
  length (allMembers (GroupIdentical (map Some (Subdirs d)))) = length (Subdirs d).
Proof.
  rewrite GroupIdentical_spec, nonNil_Some.
  by rewrite (Permutation_length (allMembers_groupsBy groupKey (Subdirs d))), length_map.
Qed.

Lemma buildItems_split d opts :
  buildItems d opts =
  flat_map (groupItems (dirCap opts)) (GroupIdentical (map Some (Subdirs d))) ++
  map fileItem (Files d) ++
  (if HiddenFiles d >? 0 then [fileSummaryItem (HiddenFiles d)] else []).
Proof.
  unfold buildItems. destruct (HiddenFiles d >? 0).
  - by rewrite <- app_assoc.
  - by rewrite app_nil_r.
Qed.

Lemma buildItems_shownDirs d opts :
  shownDirs (buildItems d opts) =
  flat_map (λ g, take (Z.to_nat (groupLimit (dirCap opts) g)) (Members g))
    (GroupIdentical (map Some (Subdirs d))).
Proof.
  rewrite buildItems_split, <- groupsItems_shown. unfold shownDirs.
  rewrite !filter_app, !map_app.
  rewrite (filter_kind_map itemDir (dirItem None) itemFile fileItem) by done.
  destruct (HiddenFiles d >? 0); simpl; by rewrite app_nil_r.
Qed.

Lemma buildItems_collapsedDirs d opts :
  collapsedDirs (buildItems d opts) =
  collapsedDirs (flat_map (groupItems (dirCap opts))
                   (GroupIdentical (map Some (Subdirs d)))).
Proof.
  rewrite buildItems_split. unfold collapsedDirs.
  rewrite !filter_app, !map_app, !sumZ_app.
  rewrite (filter_kind_map itemCollapse (dirItem None) itemFile fileItem) by done.
  destruct (HiddenFiles d >? 0); simpl; unfold sumZ; simpl; lia.
Qed.

Lemma take_groupLimit {A} cap (l : list A) n :
  n = Z.min (Z.of_nat (length l)) cap →
  take (Z.to_nat n) l = take (Z.to_nat cap) l.
Proof.
  intros ->. destruct (Z.le_gt_cases cap (Z.of_nat (length l))).
  - by rewrite Z.min_r.
  - rewrite Z.min_l by lia. rewrite Nat2Z.id, !firstn_all2; [done| |done]. lia.
Qed.

Lemma nonNil_take_Some n (l : list Directory) :
  nonNil (take n (map Some l)) = take n l.
Proof. rewrite firstn_map. apply nonNil_Some. Qed.

Lemma filter_all {A} (P : A → Prop) `{∀ x, Decision (P x)} l :
  Forall P l → filter P l = l.
Proof.
  induction 1 as [|x l Hx _ IH]; [done|].
  by rewrite filter_cons, decide_True, IH.
Qed.

Lemma filter_none {A} (P : A → Prop) `{∀ x, Decision (P x)} l :
  Forall (λ x, ¬ P x) l → filter P l = [].
Proof.
  induction 1 as [|x l Hx _ IH]; [done|].
  by rewrite filter_cons, decide_False, IH.
Qed.

Lemma Forall_take_filter {A} (P : A → Prop) `{∀ x, Decision (P x)} n l :
  Forall P (take n (filter P l)).
Proof.
  apply Forall_take, Forall_forall. intros x Hx.
  by apply list_elem_of_filter in Hx as [Hx _].
Qed.

Lemma filter_key_pieces (key : Directory → string) n dirs ks k :
  NoDup ks →
  filter (λ c, key c = k)
    (flat_map (λ k', take n (filter (λ c, key c = k') dirs)) ks) =
  if decide (k ∈ ks) then take n (filter (λ c, key c = k) dirs) else [].
Proof.
  induction 1 as [|k' ks Hk' _ IH]; [done|].
  rewrite flat_map_cons, filter_app, IH.
  destruct (decide (k' = k)) as [->|Hne].
  - rewrite (decide_False (P := k ∈ ks)) by done.
    rewrite (decide_True (P := k ∈ k :: ks)) by left.
    rewrite app_nil_r. apply filter_all, Forall_take_filter.
  - rewrite filter_none.
    + simpl. destruct (decide (k ∈ ks)) as [Hin|Hnin].
      * rewrite decide_True; [done|by right].
      * rewrite decide_False; [done|]. rewrite elem_of_cons. naive_solver.
    + eapply Forall_impl; [apply (Forall_take_filter (λ c, key c = k'))|].
      simpl. congruence.
Qed.

Lemma nonNil_pieces (f : string → list Directory) n ks :
  nonNil (flat_map (λ k, take n (map Some (f k))) ks) =
  flat_map (λ k, take n (f k)) ks.
Proof.
  induction ks as [|k ks IH]; [done|].
  rewrite !flat_map_cons. unfold nonNil in *. rewrite omap_app, IH. f_equal.
  apply nonNil_take_Some.
Qed.

(** X14. Of the subdirectories of each signature, [buildItems] shows the
    first [MaxDirs] in the order of [Subdirs] (all of them when [MaxDirs]
    is zero or negative, up to [math.MaxInt]). *)
Theorem buildItems_first_of_each_signature (d : Directory)
    (opts : PrinterOptions) (k : string) :
  filter (λ c, groupKey c = k) (nonNil (shownDirs (buildItems d opts))) =
  take (Z.to_nat (dirCap opts)) (filter (λ c, groupKey c = k) (Subdirs d)).
Proof.
  rewrite buildItems_shownDirs, GroupIdentical_spec, nonNil_Some.
  unfold groupsBy. rewrite flat_map_concat_map, map_map, <- flat_map_concat_map.
  cbn [Members].
  rewrite (flat_map_ext _
    (λ k', take (Z.to_nat (dirCap opts))
             (map Some (filter (λ c, groupKey c = k') (Subdirs d))))).
  2:{ intros k'. apply take_groupLimit. apply groupLimit_min. }
  rewrite (nonNil_pieces (λ k', filter (λ c, groupKey c = k') (Subdirs d))).
  rewrite filter_key_pieces by apply NoDup_firstSeen.
  destruct (decide (k ∈ firstSeen (map groupKey (Subdirs d)))) as [Hin|Hnin]; [done|].
  rewrite filter_none; [by rewrite firstn_nil|].
  apply Forall_forall. intros c Hc Hk. apply Hnin, elem_of_firstSeen.
  rewrite <- Hk. apply list_elem_of_fmap. eauto.
Qed.

(** X15. Every subdirectory is accounted for by the items of
    [buildItems]: the directories shown and the counts of the collapse
    items add up to [len(dir.Subdirs)]; a collapse item stands for at
    least one directory; and every directory item carries a non-nil
    member of [dir.Subdirs]. *)
Theorem buildItems_accounts_for_subdirs (d : Directory) (opts : PrinterOptions) :
  let items := buildItems d opts in
  Z.of_nat (length (shownDirs items)) + collapsedDirs items =
    Z.of_nat (length (Subdirs d)) ∧
  Forall (λ it, treeItem_kind it = itemCollapse → 1 ≤ treeItem_collapseCount it)
    items ∧
  Forall (λ c, ∃ child, c = Some child ∧ child ∈ Subdirs d) (shownDirs items).
Proof.
  cbv zeta. split; [|split].
  - rewrite buildItems_shownDirs, buildItems_collapsedDirs.
    rewrite <- (groupsItems_shown (dirCap opts)).
    rewrite groupsItems_account by apply dirCap_pos.
    by rewrite allMembers_Subdirs_length.
  - rewrite buildItems_split. apply Forall_app. split; [|apply Forall_app; split].
    + apply Forall_flat_map, Forall_forall. intros g _.
      apply groupItems_collapse_positive.
    + apply Forall_fmap, Forall_forall. by intros.
    + destruct (HiddenFiles d >? 0); by repeat constructor.
  - rewrite buildItems_shownDirs. apply Forall_flat_map, Forall_forall.
    intros g Hg. apply Forall_take, Forall_forall. intros c Hc.
    assert (Hall : c ∈ allMembers (GroupIdentical (map Some (Subdirs d)))).
    { unfold allMembers. apply list_elem_of_In, in_concat. exists (Members g).
      split; [|by apply list_elem_of_In]. apply in_map. by apply list_elem_of_In. }
    rewrite GroupIdentical_spec, nonNil_Some in Hall.
    rewrite (allMembers_groupsBy groupKey (Subdirs d)) in Hall.
    apply list_elem_of_fmap in Hall as (child & -> & Hchild). eauto.
Qed.

(** X16. The slice of [buildItems] never grows past the capacity it is
    made with, [len(dir.Subdirs)+len(dir.Files)+1]. *)
Theorem buildItems_within_capacity (d : Directory) (opts : PrinterOptions) :
  (length (buildItems d opts) ≤ length (Subdirs d) + length (Files d) + 1)%nat.
Proof.
  rewrite buildItems_split, !length_app, length_map.
  pose proof (groupsItems_length (dirCap opts) (dirCap_pos opts)
                (GroupIdentical (map Some (Subdirs d)))) as H.
  rewrite allMembers_Subdirs_length in H.
  destruct (HiddenFiles d >? 0); simpl; lia.
Qed.

(** ** The lines of [printChildren] *)


Lemma dirHeight_unfold d : dirHeight d = S (max_list (map dirHeight (Subdirs d))).
Proof. by destruct d. Qed.

Lemma dirHeight_child d c : c ∈ Subdirs d → (dirHeight c < dirHeight d)%nat.
Proof.
  intros Hc. rewrite (dirHeight_unfold d).
  assert (dirHeight c ≤ max_list (map dirHeight (Subdirs d)))%nat; [|lia].
  apply max_list_elem_of_le, list_elem_of_fmap. eauto.
Qed.

Lemma errorMessage_Some c pal e :
  Err c = Some e → ∃ msg, errorMessage c pal = Some msg.
Proof.
  intros He. unfold errorMessage. rewrite He.
  destruct (IsPermissionError (Some c)); eauto.
Qed.

Lemma buildItems_dir_items d opts it :
  it ∈ buildItems d opts → treeItem_kind it = itemDir →
  ∃ c, treeItem_dir it = Some c ∧ c ∈ Subdirs d.
Proof.
  rewrite buildItems_split, !elem_of_app. intros [Hit|[Hit|Hit]] Hk.
  - apply list_elem_of_In, in_flat_map in Hit as (g & Hg & Hit).
    apply list_elem_of_In in Hit. unfold groupItems in Hit.
    assert (Hd : it ∈ map dirItem (take (Z.to_nat (groupLimit (dirCap opts) g)) (Members g))).
    { destruct (_ >? _); [|done]. apply elem_of_app in Hit as [Hit|Hit]; [done|].
      apply list_elem_of_singleton in Hit. by subst it. }
    apply list_elem_of_fmap in Hd as (m & -> & Hm).
    assert (Hall : m ∈ allMembers (GroupIdentical (map Some (Subdirs d)))).
    { unfold allMembers. apply list_elem_of_In, in_concat. exists (Members g).
      split; [by apply in_map|]. apply list_elem_of_In.
      eapply (sublist_elem _ (Members g)); [|done]. apply sublist_take. }
    rewrite GroupIdentical_spec, nonNil_Some in Hall.
    rewrite (allMembers_groupsBy groupKey (Subdirs d)) in Hall.
    apply list_elem_of_fmap in Hall as (child & -> & Hchild). eauto.
  - apply list_elem_of_fmap in Hit as (f & -> & _). done.
  - destruct (HiddenFiles d >? 0); [|by apply elem_of_nil in Hit].
    apply list_elem_of_singleton in Hit. by subst it.
Qed.

Section printItems_rel.
Context (R : Z → Z → Prop).
Context (R_zero : R 0 0).
Context (R_add : ∀ a b a' b', R a b → R a' b' → R (a + a') (b + b')).
Context (recur : Directory → string → option (list string)).
Context (dir : Directory) (pal : palette) (w : treeItem → Z).

Lemma printItems_rel prefix items :
  (∀ it, it ∈ items →
     if decide (treeItem_kind it = itemDir) then
       ∃ c, treeItem_dir it = Some c ∧
            (Err c ≠ None → R 1 (w it)) ∧
            (Err c = None →
               ∀ p, ∃ ls, recur c p = Some ls ∧ R (1 + Z.of_nat (length ls)) (w it))
     else R 1 (w it)) →
  ∃ ls, printItems recur dir prefix pal items = Some ls ∧
        R (Z.of_nat (length ls)) (sumZ (map w items)).
Proof.
  induction items as [|it items IH]; intros H.
  { exists []. by split. }
  destruct IH as (more & Hmore & Rmore).
  { intros it' Hit'. apply H. by right. }
  specialize (H it (list_elem_of_here _ _)).
  cbn [printItems]. rewrite Hmore.
  change (sumZ (map w (it :: items))) with (w it + sumZ (map w items)).
  destruct (treeItem_kind it) eqn:K; cbn [decide] in H.
  - rewrite decide_True in H by done. destruct H as (c & -> & Herr & Hok).
    cbn [mbind option_bind]. destruct (Err c) as [e|] eqn:E.
    + destruct (errorMessage_Some c pal e E) as [msg ->]. cbn [mbind option_bind].
      eexists. split; [done|]. rewrite length_app, Nat2Z.inj_add.
      apply R_add; [|done]. by apply Herr.
    + destruct (Hok eq_refl (extendPrefix prefix match items with [] => true | _ => false end))
        as (ls & -> & Rls).
      cbn [mbind option_bind]. eexists. split; [done|].
      rewrite length_app, Nat2Z.inj_add. apply R_add; [|done].
      cbn [length]. by rewrite Nat2Z.inj_succ, <- Z.add_1_l.
  - rewrite decide_False in H by done. cbn [mbind option_bind].
    eexists. split; [done|]. rewrite length_app, Nat2Z.inj_add. by apply R_add.
  - rewrite decide_False in H by done. cbn [mbind option_bind].
    eexists. split; [done|]. rewrite length_app, Nat2Z.inj_add. by apply R_add.
  - rewrite decide_False in H by done. cbn [mbind option_bind].
    eexists. split; [done|]. rewrite length_app, Nat2Z.inj_add. by apply R_add.
Qed.
End printItems_rel.








Lemma allNodes_self (Q : Directory → Prop) d : Forall Q (allNodes d) → Q d.
Proof. rewrite allNodes_unfold. by intros [H _]%Forall_cons. Qed.









Lemma printItems_ext recur1 recur2 dir prefix pal items :
  (∀ it c, it ∈ items → treeItem_kind it = itemDir → treeItem_dir it = Some c →
           ∀ p, recur1 c p = recur2 c p) →
  printItems recur1 dir prefix pal items = printItems recur2 dir prefix pal items.
Proof.
  induction items as [|it items IH]; intros H; [done|].
  cbn [printItems]. rewrite IH by (intros it' c Hit'; apply H; by right).
  destruct (treeItem_kind it) eqn:Hk; [|done..].
  destruct (treeItem_dir it) as [c|] eqn:Hc; [|done].
  cbn [mbind option_bind]. destruct (Err c); [done|].
  by rewrite (H it c (list_elem_of_here _ _) Hk Hc).
Qed.

Lemma printChildren_unfold fuel dir prefix opts pal :
  printChildren (S fuel) dir prefix opts pal =
  printItems (λ child prefix', printChildren fuel child prefix' opts pal)
    dir prefix pal (buildItems dir opts).
Proof. done. Qed.

(** With fuel for the height of the tree, [printChildren] returns. *)
Lemma printChildren_Some opts pal fuel :
  ∀ d prefix, (dirHeight d ≤ fuel)%nat →
    ∃ ls, printChildren fuel d prefix opts pal = Some ls.
Proof.
  induction fuel as [|fuel IH]; intros d prefix Hh.
  { rewrite dirHeight_unfold in Hh. lia. }
  rewrite printChildren_unfold.
  destruct (printItems_rel (λ _ _, True) I (λ _ _ _ _ _ _, I)
              (λ child prefix', printChildren fuel child prefix' opts pal)
              d pal (λ _, 0) prefix (buildItems d opts)) as (ls & Hls & _); [|eauto].
  intros it Hit. destruct (decide (treeItem_kind it = itemDir)) as [Hk|]; [|done].
  destruct (buildItems_dir_items d opts it Hit Hk) as (c & Hc & Hsub).
  exists c. split; [done|]. split; [done|]. intros _ p.
  destruct (IH c p) as [ls Hls]; [|eauto].
  pose proof (dirHeight_child d c Hsub). lia.
Qed.

(** More fuel than the height of the tree changes nothing. *)
Lemma printChildren_fuel opts pal fuel1 :
  ∀ fuel2 d prefix, (dirHeight d ≤ fuel1)%nat → (dirHeight d ≤ fuel2)%nat →
    printChildren fuel1 d prefix opts pal = printChildren fuel2 d prefix opts pal.
Proof.
  induction fuel1 as [|fuel1 IH]; intros fuel2 d prefix H1 H2.
  { rewrite dirHeight_unfold in H1. lia. }
  destruct fuel2 as [|fuel2]; [rewrite dirHeight_unfold in H2; lia|].
  rewrite !printChildren_unfold. apply printItems_ext.
  intros it c Hit Hk Hc p.
  destruct (buildItems_dir_items d opts it Hit Hk) as (c' & Hc' & Hsub).
  assert (c' = c) as -> by congruence.
  pose proof (dirHeight_child d c Hsub). apply IH; lia.
Qed.










Lemma PrintTree_Some newPalette rootLabel d opts children :
  printChildren (dirHeight d) d "" opts (newPalette (UseColor opts)) = Some children →
  PrintTree newPalette rootLabel (Some d) opts =
  printOk (palette_dir (newPalette (UseColor opts)) rootLabel :: children ++
           [statsLine (newPalette (UseColor opts)) d]).
Proof. unfold PrintTree. by intros ->. Qed.

(** X17. [PrintTree] returns on every tree: a nil directory gives the
    error [nil directory] and writes nothing; for any other directory
    the recursion of [printChildren] ends without a panic (a directory
    item always carries a directory, and [errorMessage] is only asked
    for a node whose [Err] is set), the result does not depend on the
    fuel of the model, and the lines written are the root label, the
    lines of the children and the footer, whose directory count is
    [TotalDirs + 1] in [int] arithmetic.  The error texts are trimmed by
    [strings.TrimSpace], whatever it is: the statement holds for every
    instance of [Strings]. *)
Theorem PrintTree_returns (newPalette : bool → palette) (rootLabel : string)
    (d : Directory) (opts : PrinterOptions) :
  let pal := newPalette (UseColor opts) in
  PrintTree newPalette rootLabel None opts = printError (fmt_Errorf "nil directory") ∧
  ∃ children,
    (∀ extra, printChildren (dirHeight d + extra) d "" opts pal = Some children) ∧
    PrintTree newPalette rootLabel (Some d) opts =
    printOk (palette_dir pal rootLabel :: children ++ [statsLine pal d]).
Proof.
  cbv zeta. split; [done|].
  destruct (printChildren_Some opts (newPalette (UseColor opts)) (dirHeight d) d "")
    as [children Hc]; [done|].
  exists children. split; [|by apply PrintTree_Some].
  intros extra. rewrite <- Hc. apply printChildren_fuel; lia.
Qed.





Lemma buildItems_shownFiles d opts : shownFiles (buildItems d opts) = Files d.
Proof.
  rewrite buildItems_split. unfold shownFiles. rewrite !filter_app, !map_app.
  destruct (groupsItems_files (dirCap opts)
              (GroupIdentical (map Some (Subdirs d)))) as [H _].
  unfold shownFiles in H. rewrite H.
  rewrite (filter_kind_map itemFile (dirItem None) itemFile fileItem) by done.
  rewrite decide_True by done. rewrite map_map. cbn [app].
  destruct (HiddenFiles d >? 0); simpl; rewrite app_nil_r; apply map_id.
Qed.

Lemma buildItems_summary d opts it :
  it ∈ buildItems d opts → treeItem_kind it = itemFileSummary →
  0 < HiddenFiles d ∧ treeItem_collapseCount it = HiddenFiles d.
Proof.
  rewrite buildItems_split, !elem_of_app. intros [Hit|[Hit|Hit]] Hk.
  - apply list_elem_of_In, in_flat_map in Hit as (g & _ & Hit).
    apply list_elem_of_In in Hit. unfold groupItems in Hit.
    destruct (_ >? _).
    + apply elem_of_app in Hit as [Hit|Hit].
      * apply list_elem_of_fmap in Hit as (m & -> & _). done.
      * apply list_elem_of_singleton in Hit. by subst it.
    + apply list_elem_of_fmap in Hit as (m & -> & _). done.
  - apply list_elem_of_fmap in Hit as (f & -> & _). done.
  - destruct (Z.gtb_spec (HiddenFiles d) 0); [|by apply elem_of_nil in Hit].
    apply list_elem_of_singleton in Hit. subst it. by split; [lia|].
Qed.

Lemma countsAddUp_summaryAgrees opts n : countsAddUp n → summaryAgrees opts n.
Proof.
  intros (Hf & Hd & _). unfold summaryAgrees. cbv zeta. split; [|split].
  - rewrite Hd, buildItems_shownDirs, buildItems_collapsedDirs.
    rewrite <- (groupsItems_shown (dirCap opts)).
    rewrite groupsItems_account by apply dirCap_pos.
    by rewrite allMembers_Subdirs_length.
  - apply buildItems_shownFiles.
  - apply Forall_forall. intros it Hit Hk.
    destruct (buildItems_summary n opts it Hit Hk) as [Hpos ->].
    rewrite buildItems_shownFiles. split; [done|lia].
Qed.

(** X21. For every node of a tree built by [walkDir], the numbers of the
    summary line [... [D directories, F files, showing first K]] agree
    with what is listed: [D] is the number of directories shown plus
    the ones collapsed, the file lines are [Files], and [K] is the
    number of file lines; a summary item hides at least one file. *)
Theorem summary_line_agrees (fs : ReadDir) (path name : string) (level : Z)
    (opts : Options) (popts : PrinterOptions) :
  Forall (summaryAgrees popts) (allNodes (walkDir fs path name level opts).1).
Proof.
  eapply Forall_impl; [|apply countsAddUp_summaryAgrees].
  apply (walkDir_nodes_ind (λ _, True) countsAddUp opts).
  - done.
  - intros. repeat split; reflexivity.
  - intros. repeat split; reflexivity.
  - intros entries sub p n l _. apply walkDir_countsAddUp.
  - done.
Qed.

(** * Properties of the command *)

Lemma strings_HasSuffix_app a b : strings_HasSuffix (a +:+ b) b = true.
Proof.
  unfold strings_HasSuffix. cbv zeta. rewrite chars_app, length_app.
  apply andb_true_intro. split.
  - apply Nat.leb_le. lia.
  - apply bool_decide_eq_true.
    replace (length (String.list_ascii_of_string a) +
             length (String.list_ascii_of_string b) -
             length (String.list_ascii_of_string b))%nat
      with (length (String.list_ascii_of_string a)) by lia.
    apply drop_app_length.
Qed.

(** X22. The root label is never empty: it is ["."] exactly when the
    target (the empty target counting as ["."]) cleans to ["."], and
    otherwise it ends with the path separator; a target that already
    ends with the separator is kept as it is. *)
Theorem formatRootLabel_shape (input : string) :
  let target := if bool_decide (input = "") then "." else input in
  (formatRootLabel input = "." ↔ filepath_Clean target = ".") ∧
  (formatRootLabel input ≠ "." →
     strings_HasSuffix (formatRootLabel input) sep = true) ∧
  (filepath_Clean target ≠ "." → strings_HasSuffix input sep = true →
     formatRootLabel input = input).
Proof.
  cbv zeta. unfold formatRootLabel.
  set (target := if bool_decide (input = "") then "." else input).
  assert (Hsuf : strings_HasSuffix target sep = true → target = input).
  { subst target. case_bool_decide; [|done]. by vm_compute. }
  assert (Hin : strings_HasSuffix input sep = true → target = input).
  { subst target. case_bool_decide as E; [|done]. subst input. by vm_compute. }
  case_bool_decide as Hc.
  { split; [done|]. split; [done|]. done. }
  destruct (strings_HasSuffix target sep) eqn:Hs.
  - split; [|split].
    + split; [|done]. intros E. rewrite E in Hs. by vm_compute in Hs.
    + intros _. exact Hs.
    + intros _ _. by apply Hsuf.
  - split; [|split].
    + split; [|done]. intros E%(f_equal String.list_ascii_of_string).
      rewrite chars_app in E.
      destruct (String.list_ascii_of_string (filepath_Clean target)) as [|x [|y l]];
        by vm_compute in E.
    + intros _. apply strings_HasSuffix_app.
    + intros _ Hi. rewrite <- (Hin Hi) in Hi. congruence.
Qed.

(** X23. A negative flag is rejected before anything is read: whatever
    the arguments and the file system, [RunE] returns the message of the
    first negative flag in the order [--files], [--dirs], [--level]. *)
Theorem RunE_rejects_negative_flags (newPalette : bool → palette)
    (fs : string → FileSystem) (maxFiles maxDirs maxLevel : Z)
    (args : list string) :
  maxFiles < 0 ∨ maxDirs < 0 ∨ maxLevel < 0 →
  RunE newPalette fs maxFiles maxDirs maxLevel args =
  printError (fmt_Errorf
    (if maxFiles <? 0 then "--files must be >= 0"
     else if maxDirs <? 0 then "--dirs must be >= 0"
     else "--level must be >= 0")).
Proof.
  intros H. unfold RunE.
  destruct (Z.ltb_spec maxFiles 0); [done|].
  destruct (Z.ltb_spec maxDirs 0); [done|].
  destruct (Z.ltb_spec maxLevel 0); [done|lia].
Qed.



(** * Identical structure *)

Lemma histogram_exts names1 names2 :
  map extOf names1 ≡ₚ map extOf names2 → histogram names1 = histogram names2.
Proof.
  intros H. apply map_eq. intros k. apply option_eq_default.
  - rewrite !histogram_None. by rewrite H.
  - rewrite !histogram_count. unfold countExt. f_equal.
    assert (Hc : ∀ names, length (filter (λ name, extOf name = k) names) =
                          length (filter (λ e, e = k) (map extOf names))).
    { induction names as [|n names IH]; [done|].
      rewrite map_cons, !filter_cons. destruct (decide (extOf n = k)); simpl; by rewrite IH. }
    rewrite !Hc. by rewrite H.
Qed.

Lemma walkDir_child_signatures entries sub path name level opts :
  MaxLevel opts = 0 →
  map Signature (Subdirs (walkDir (ReadDirOk entries sub) path name level opts).1) ≡ₚ
  map (λ n, Signature (walkDir (sub n) (filepath_Join path n) n (level + 1) opts).1)
    (dirNames entries).
Proof.
  intros HL. rewrite walkDir_children, map_map.
  assert (atLimit opts level = false) as -> by (apply atLimit_false; by left).
  apply Permutation_map, dirNames_perm, sortEntries_perm.
Qed.

Lemma SameStructure_signature fs1 fs2 opts1 opts2 :
  MaxLevel opts1 = 0 → MaxLevel opts2 = 0 →
  SameStructure fs1 fs2 →
  ∀ path1 path2 name1 name2 level1 level2,
    Signature (walkDir fs1 path1 name1 level1 opts1).1 =
    Signature (walkDir fs2 path2 name2 level2 opts2).1.
Proof.
  intros HL1 HL2.
  induction 1 as [entries1 entries2 sub1 sub2 pairs Hext Hd1 Hd2 _ IH].
  intros path1 path2 name1 name2 level1 level2.
  rewrite (walkDir_Signature entries1 sub1 path1 name1 level1 opts1).
  rewrite (walkDir_Signature entries2 sub2 path2 name2 level2 opts2).
  rewrite !histogram_sorted, !signatureForDirectory_digest.
  assert (Henc :
    encodeDirectory (histogram (fileNames entries1))
      (map Signature (Subdirs (walkDir (ReadDirOk entries1 sub1) path1 name1 level1 opts1).1)) =
    encodeDirectory (histogram (fileNames entries2))
      (map Signature (Subdirs (walkDir (ReadDirOk entries2 sub2) path2 name2 level2 opts2).1))).
  { unfold encodeDirectory. rewrite (histogram_exts _ _ Hext).
    rewrite (sort_Strings_perm
               (map Signature (Subdirs (walkDir (ReadDirOk entries1 sub1) path1 name1 level1 opts1).1))
               (map Signature (Subdirs (walkDir (ReadDirOk entries2 sub2) path2 name2 level2 opts2).1)));
      [done|].
    rewrite (walkDir_child_signatures entries1 sub1 path1 name1 level1 opts1 HL1).
    rewrite (walkDir_child_signatures entries2 sub2 path2 name2 level2 opts2 HL2).
    rewrite Hd1, Hd2, !map_map.
    apply Permutation_refl'. apply map_ext_in. intros [n1 n2] Hin%list_elem_of_In.
    cbn [fst snd]. by apply IH. }
  by rewrite Henc.
Qed.

(** X25. Structure alone decides the signature: when nothing cuts the
    walk short ([MaxLevel = 0]), two directories whose files have the
    same extensions after [strings.ToLower] (for every instance of
    [Strings]) with the same multiplicities and whose
    subdirectories pair off into directories of the same structure get
    the same signature, whatever the names of the files and of the
    directories, the paths, the levels and the file limits; as siblings
    they fall into one group of [GroupIdentical]. *)
Theorem same_structure_same_signature (fs1 fs2 : ReadDir)
    (path1 path2 name1 name2 : string) (level1 level2 : Z)
    (opts1 opts2 : Options) :
  MaxLevel opts1 = 0 → MaxLevel opts2 = 0 →
  SameStructure fs1 fs2 →
  let d1 := (walkDir fs1 path1 name1 level1 opts1).1 in
  let d2 := (walkDir fs2 path2 name2 level2 opts2).1 in
  Signature d1 = Signature d2 ∧
  ∀ dirs g, g ∈ GroupIdentical dirs → Some d1 ∈ Members g → Some d2 ∈ dirs →
            Some d2 ∈ Members g.
Proof.
  intros HL1 HL2 Hsame. cbv zeta.
  pose proof (SameStructure_signature fs1 fs2 opts1 opts2 HL1 HL2 Hsame
                path1 path2 name1 name2 level1 level2) as Hsig.
  split; [done|].
  intros dirs g Hg Hd1 Hd2.
  pose proof (GroupIdentical_same_key dirs g _ Hg Hd1) as Hkey.
  rewrite GroupIdentical_spec in Hg.
  apply groupsBy_elem in Hg as [_ ->].
  apply list_elem_of_fmap. eexists. split; [done|].
  apply list_elem_of_filter. split.
  - rewrite <- Hkey.
    rewrite !groupKey_set; [done|..];
      apply (allNodes_self (λ d, Signature d ≠ "")), walkDir_Signature_set.
  - by apply elem_of_nonNil.
Qed.

(** An extension beyond ASCII: a file [a.É] is counted under what
    [strings.ToLower] returns for [.É], which is [.é] in Go, and the
    directory that holds it alone gets the signature of that key. *)
Example unicode_extension :
  strings_ToLower ".É" = ".é" →
  extOf "a.É" = ".é" ∧
  Signature
    (walkDir (ReadDirOk [mkDirEntry "a.É" false] noSub) "p" "p" 0
       (mkOptions 0 0)).1 = "d:cd1edfa9e12cbbb9".
Proof.
  intros Hlower.
  assert (Hext : extOf "a.É" = ".é").
  { unfold extOf. change (filepath_Ext "a.É") with ".É". by rewrite Hlower. }
  split; [done|].
  rewrite (walkDir_Signature [mkDirEntry "a.É" false] noSub "p" "p" 0 (mkOptions 0 0)).
  rewrite (walkDir_Subdirs [mkDirEntry "a.É" false] noSub "p" "p" 0 (mkOptions 0 0)).
  change (dirNames (sortEntries [mkDirEntry "a.É" false])) with (@nil string).
  change (fileNames (sortEntries [mkDirEntry "a.É" false])) with ["a.É"].
  unfold histogram. cbn [map fold_left]. rewrite Hext.
  by vm_compute.
Qed.

End properties.

(** * The properties on concrete snapshots

    The snapshots below have ASCII names and error texts, on which
    [strings.ToLower] and [strings.TrimSpace] are the functions of
    [asciiStrings]. *)

#[local] Existing Instance asciiStrings.

Lemma C1_depth_limit_witness :
  0 < 1 ∧
  (walkDir scenarioAB "root" "root" 0 (mkOptions 0 1)).2 =
  map Path
    (filter (λ d, Level d ≤ 1)
       (allNodes (walkDir scenarioAB "root" "root" 0 (mkOptions 0 1)).1)).
Proof.
  split; [lia|].
  pose proof (C1_depth_limit scenarioAB "root" "root" 0 1 ltac:(lia)) as [H _].
  destruct (walkDir scenarioAB "root" "root" 0 (mkOptions 0 1)) as [root log].
  apply H.
Defined.

(** C1, as the specification words it, fails: with [MaxLevel = 1] the
    directories [a] and [b] of depth exactly [1] are read and expanded;
    they are not markers. *)
Lemma C1_counterexample :
  ¬ markersAtDepth 1
      (walkDir scenarioAB "root" "root" 0 (mkOptions 0 1)).1
      (walkDir scenarioAB "root" "root" 0 (mkOptions 0 1)).2.
Proof.
  intros H.
  destruct (H (oneFileNode "root/a" "a" "x.txt" "d:e64394207b378751"))
    as [Hmarker _].
  - vm_compute. apply list_elem_of_further, list_elem_of_here.
  - done.
  - unfold isLeafMarker in Hmarker. discriminate Hmarker.
Qed.

(** C10, read literally, fails: the members of the groups, group after
    group, are not the non-nil entries in input order once two groups
    interleave. *)
Lemma C10_counterexample :
  ¬ membersInInputOrder
      [Some (bareNode "A" "s1"); None; Some (bareNode "B" "s2");
       Some (bareNode "C" "s1")].
Proof. unfold membersInInputOrder. vm_compute. discriminate. Qed.

Lemma C8_permission_error_node_witness :
  let err := mkGoError "*fs.PathError" "open root/a: permission denied" KindPermission in
  errKind err = KindPermission ∧
  IsPermissionError (Some (walkDir (ReadDirErr err) "root/a" "a" 1 (mkOptions 0 0)).1) = true.
Proof.
  intros err. split; [reflexivity|].
  apply (C8_permission_error_node err "root/a" "a" 1 (mkOptions 0 0)).
  reflexivity.
Defined.

Lemma C5_truncation_witness :
  ListingsFit scenarioAB ∧
  Forall (truncationHolds 1)
    (allNodes (walkDir scenarioAB "root" "root" 0 (mkOptions 1 0)).1).
Proof.
  split; [apply scenarioAB_fits|].
  apply (C5_truncation scenarioAB "root" "root" 0 (mkOptions 1 0) scenarioAB_fits).
Defined.

Lemma C9_entry_order_irrelevant_witness :
  DistinctNames scenarioAB ∧ SameUpToOrder scenarioAB scenarioBA ∧
  walkDir scenarioAB "root" "root" 0 (mkOptions 0 0) =
  walkDir scenarioBA "root" "root" 0 (mkOptions 0 0).
Proof.
  split; [apply scenarioAB_distinct|]. split; [apply scenarioAB_BA|].
  apply (C9_entry_order_irrelevant scenarioAB scenarioBA
           scenarioAB_distinct scenarioAB_BA).
Defined.

Lemma C2_signature_equality_witness :
  let entriesA := [mkDirEntry "x.5sx4gh04an0da" false] in
  let entriesB := [mkDirEntry "x.ijvpkfu14s2vn" false] in
  let nodeA := (walkDir (ReadDirOk entriesA noSub) "root/a" "a" 1 (mkOptions 0 0)).1 in
  let nodeB := (walkDir (ReadDirOk entriesB noSub) "root/b" "b" 1 (mkOptions 0 0)).1 in
  NulFreeSnapshot (ReadDirOk entriesA noSub) ∧
  NulFreeSnapshot (ReadDirOk entriesB noSub) ∧
  nulFree "root/a" ∧ nulFree "root/b" ∧
  (Signature nodeA = Signature nodeB ↔
   digest (encodeDirectory (histogram (fileNames entriesA))
             (map Signature (Subdirs nodeA))) =
   digest (encodeDirectory (histogram (fileNames entriesB))
             (map Signature (Subdirs nodeB)))).
Proof.
  intros entriesA entriesB nodeA nodeB.
  assert (HA : NulFreeSnapshot (ReadDirOk entriesA noSub)).
  { apply collide_snapshot. refine (bool_decide_unpack _ _). by vm_compute. }
  assert (HB : NulFreeSnapshot (ReadDirOk entriesB noSub)).
  { apply collide_snapshot. refine (bool_decide_unpack _ _). by vm_compute. }
  assert (HpA : nulFree "root/a").
  { refine (bool_decide_unpack _ _). by vm_compute. }
  assert (HpB : nulFree "root/b").
  { refine (bool_decide_unpack _ _). by vm_compute. }
  do 4 (split; [assumption|]).
  apply (C2_signature_equality entriesA entriesB noSub noSub
           "root/a" "root/b" "a" "b" 1 1 (mkOptions 0 0) (mkOptions 0 0)
           HA HB HpA HpB).
Defined.

(** C2, as the specification words it, fails: a directory holding the one
    file [x.5sx4gh04an0da] and a directory holding the one file
    [x.ijvpkfu14s2vn] have different extension histograms and the same
    signature ["d:789d5c8abf20598e"]. *)
Lemma C2_counterexample :
  ¬ signatureEqualityExact
      [mkDirEntry "x.5sx4gh04an0da" false] [mkDirEntry "x.ijvpkfu14s2vn" false]
      (walkDir collideA "root/a" "a" 1 (mkOptions 0 0)).1
      (walkDir collideB "root/b" "b" 1 (mkOptions 0 0)).1.
Proof.
  unfold signatureEqualityExact. intros [Hfwd _].
  destruct Hfwd as [Hhist _]; [by vm_compute|].
  apply (f_equal (λ m : gmap string Z, m !! ".5sx4gh04an0da")) in Hhist.
  vm_compute in Hhist. discriminate Hhist.
Qed.

Example fmt_samples :
  fmt_x 255 = "ff" ∧ fmt_x 0 = "0" ∧ fmt_x 4096 = "1000" ∧
  fmt_x (2 ^ 64 - 1) = "ffffffffffffffff" ∧
  fmt_d 0 = "0" ∧ fmt_d 12 = "12" ∧ fmt_d (-3) = "-3" ∧
  intToBytes 258 = [2; 1; 0; 0; 0; 0; 0; 0].
Proof. by vm_compute. Qed.

Example path_samples :
  filepath_Clean "a//b/./c/.." = "a/b" ∧ filepath_Clean "/../a" = "/a" ∧
  filepath_Clean "../../x" = "../../x" ∧ filepath_Clean "./" = "." ∧
  filepath_Join "." "a" = "a" ∧ filepath_Join "/" "a" = "/a" ∧
  filepath_Join "root" "a" = "root/a" ∧
  filepath_Ext "x.TXT" = ".TXT" ∧ filepath_Ext "Makefile" = "" ∧
  filepath_Ext ".bashrc" = ".bashrc" ∧ filepath_Ext "a.tar.gz" = ".gz" ∧
  extOf "x.TXT" = ".txt" ∧ extOf "Makefile" = "<noext>".
Proof. by vm_compute. Qed.

Example signature_samples :
  signatureForDirectory ∅ [] = "d:92f3e8eb64d657b8" ∧
  signatureForDirectory (histogram ["x.txt"]) [] = "d:e64394207b378751" ∧
  signatureForError "root/a" (mkGoError "*fs.PathError" "permission denied" KindPermission)
    = "err:root/a:*fs.PathError".
Proof. by vm_compute. Qed.

(** Walking [scenarioPkg] with two files shown per directory: the children
    of [pkg] form one group of two, and [scripts] keeps [x.sh] and [y.sh]
    and hides one file. *)
Example end_to_end :
  match Walk (mkFileSystem (StatInfo "root" true) scenarioPkg) "root" (mkOptions 2 0) with
  | inr {| Subdirs := [pkg; scripts] |} =>
      map (λ g, map (option_map Name) (Members g)) (GroupIdentical (map Some (Subdirs pkg)))
        = [[Some "a"; Some "b"]] ∧
      Files scripts = [mkFileEntry "x.sh"; mkFileEntry "y.sh"] ∧
      HiddenFiles scripts = 1 ∧ TotalFiles scripts = 3
  | _ => False
  end.
Proof. by vm_compute. Qed.

Lemma signatureForError_inj_witness :
  let e := mkGoError "*fs.PathError" "permission denied" KindPermission in
  (":"%char ∉ String.list_ascii_of_string (errType e)) ∧
  signatureForError "root/a" e = signatureForError "root/a" e ∧
  "root/a" = "root/a".
Proof.
  intros e.
  assert (H : ":"%char ∉ String.list_ascii_of_string (errType e)).
  { refine (bool_decide_unpack _ _). by vm_compute. }
  split; [exact H|]. split; [reflexivity|].
  apply (signatureForError_inj "root/a" "root/a" e e H H eq_refl).
Defined.

Lemma walkDir_negative_MaxFiles_witness :
  -3 ≤ 0 ∧ ListingsFit scenarioPkg ∧
  walkDir scenarioPkg "root" "root" 0 (mkOptions (-3) 0) =
  walkDir scenarioPkg "root" "root" 0 (mkOptions 0 0).
Proof.
  assert (Hfit : ListingsFit scenarioPkg).
  { constructor; [by vm_compute|]. intros name _. simpl.
    case_bool_decide.
    - constructor; [by vm_compute|]. intros ? _.
      constructor; [by vm_compute|]. intros ? []%not_elem_of_nil.
    - constructor; [by vm_compute|]. intros ? []%not_elem_of_nil. }
  split; [lia|]. split; [exact Hfit|].
  apply (walkDir_negative_MaxFiles scenarioPkg "root" "root" 0 (-3) 0 ltac:(lia) Hfit).
Defined.

Lemma walkDir_negative_MaxLevel_witness :
  -1 < 0 ∧ 0 ≤ 0 ∧
  (walkDir scenarioAB "root" "root" 0 (mkOptions 0 (-1))).2 = ["root"].
Proof.
  split; [lia|]. split; [lia|].
  pose proof (walkDir_negative_MaxLevel
                [mkDirEntry "a" true; mkDirEntry "b" true]
                (λ name,
                   if bool_decide (name = "a") then ReadDirOk [mkDirEntry "x.txt" false] noSub
                   else if bool_decide (name = "b") then ReadDirOk [mkDirEntry "y.txt" false] noSub
                   else noSub name)
                "root" "root" 0 0 (-1) ltac:(lia) ltac:(lia)) as H.
  change (ReadDirOk _ _) with scenarioAB in H.
  destruct (walkDir scenarioAB "root" "root" 0 (mkOptions 0 (-1))) as [root log].
  apply H.
Defined.

Lemma GroupIdentical_all_distinct_witness :
  let dirs := [Some (bareNode "A" "s1"); None; Some (bareNode "B" "s2")] in
  NoDup (map groupKey (nonNil dirs)) ∧
  allMembers (GroupIdentical dirs) = filter (λ d, is_Some d) dirs.
Proof.
  intros dirs.
  assert (H : NoDup (map groupKey (nonNil dirs))).
  { refine (bool_decide_unpack _ _). by vm_compute. }
  split; [exact H|]. apply (GroupIdentical_all_distinct dirs H).
Defined.

Lemma GroupIdentical_all_identical_witness :
  let dirs := [Some (bareNode "A" "s1"); None; Some (bareNode "B" "s1")] in
  Forall (λ d, groupKey d = "s1") (nonNil dirs) ∧ nonNil dirs ≠ [] ∧
  GroupIdentical dirs =
  [{| DirGroup_Signature := "s1"; Members := filter (λ d, is_Some d) dirs |}].
Proof.
  intros dirs.
  assert (H1 : Forall (λ d, groupKey d = "s1") (nonNil dirs)).
  { refine (bool_decide_unpack _ _). by vm_compute. }
  assert (H2 : nonNil dirs ≠ []) by discriminate.
  split; [exact H1|]. split; [exact H2|].
  apply (GroupIdentical_all_identical dirs "s1" H1 H2).
Defined.

(** The sample of the README, colours stripped. *)
Example readme_sample :
  match Walk (mkFileSystem (StatInfo "sample" true) sampleTree) "examples/sample"
          (mkOptions 2 0) with
  | inr root =>
      PrintTree (λ _, plainPalette) "examples/sample/" (Some root)
        (mkPrinterOptions 1 true) =
      printOk
        [ "examples/sample/";
          "├── pkg/";
          "│   ├── serviceA/";
          "│   │   ├── cmd/";
          "│   │   │   └── main.go";
          "│   │   ├── ... (1 identical dirs)";
          "│   │   └── config.yaml";
          "│   └── ... (2 identical dirs)";
          "└── scripts/";
          "    ├── build.sh";
          "    ├── deploy.sh";
          "    └── ... [0 directories, 3 files, showing first 2]";
          "[12 directories, 12 files]" ]
  | inl _ => False
  end.
Proof. by vm_compute. Qed.


Lemma RunE_rejects_negative_flags_witness :
  (5 < 0 ∨ -1 < 0 ∨ -2 < 0) ∧
  RunE (λ _, plainPalette) (λ _, {| os_Stat := StatInfo "." true; os_ReadDir := scenarioAB |})
    5 (-1) (-2) ["."] =
  printError (fmt_Errorf "--dirs must be >= 0").
Proof.
  split; [lia|].
  apply (RunE_rejects_negative_flags (λ _, plainPalette)
           (λ _, {| os_Stat := StatInfo "." true; os_ReadDir := scenarioAB |})
           5 (-1) (-2) ["."]).
  lia.
Defined.


Lemma structureA_B : SameStructure structureA structureB.
Proof.
  apply (same_structure _ _ _ _ [("lib", "pkg")]).
  - vm_compute. reflexivity.
  - vm_compute. reflexivity.
  - vm_compute. reflexivity.
  - intros n1 n2 _. apply (same_structure _ _ _ _ []).
    + vm_compute. reflexivity.
    + vm_compute. reflexivity.
    + vm_compute. reflexivity.
    + intros ? ? []%not_elem_of_nil.
Qed.

Lemma same_structure_same_signature_witness :
  MaxLevel (mkOptions 5 0) = 0 ∧ MaxLevel (mkOptions 1 0) = 0 ∧
  SameStructure structureA structureB ∧
  Signature (walkDir structureA "root/svc" "svc" 1 (mkOptions 5 0)).1 =
  Signature (walkDir structureB "other" "other" 0 (mkOptions 1 0)).1.
Proof.
  split; [reflexivity|]. split; [reflexivity|]. split; [apply structureA_B|].
  apply (same_structure_same_signature structureA structureB
           "root/svc" "other" "svc" "other" 1 0 (mkOptions 5 0) (mkOptions 1 0)
           eq_refl eq_refl structureA_B).
Defined.

(** The footer is computed in [int]: a directory that claims
    [math.MaxInt] directories below it prints a negative count, and a
    summary line wraps in the same way. *)
Example footer_wraps :
  statsLine plainPalette
    {| Name := "d"; Path := "d"; Level := 0; Subdirs := []; Files := [];
       HiddenFiles := 0; ImmediateDirCount := 0; ImmediateFileCount := 0;
       TotalDirs := math_MaxInt; TotalFiles := 0; Signature := "";
       Err := None |} =
  "[-9223372036854775808 directories, 0 files]" ∧
  wrapInt (math_MaxInt + 1) = - 2 ^ 63 ∧ wrapInt 12 = 12 ∧ wrapInt (-1) = -1.
Proof. by vm_compute. Qed.
